(** * Phonon interpolation core of simphony (simphony/data/interpolation.py)

    A shallow embedding of [InterpolationData.calculate_fine_phonons] and of
    the private methods it calls.  NumPy arrays are nested lists, Python
    integers are [Z], and float64 values are idealised as exact rationals
    ([Qc], canonical fractions with Leibniz equality); complex128 values are
    pairs of them.  NumPy, SciPy and LAPACK routines whose results are not
    rational ([np.exp], [np.sqrt], [np.linalg.eigh], [zheev]) are parameters
    of the sections that use them. *)

From Stdlib Require Import String.
From Stdlib Require Import ZArith QArith Qabs Qround Qcanon List Bool Lia Lqa.
From Stdlib Require Import Permutation.
Import ListNotations.

Set Implicit Arguments.

(** ** Exceptions *)

Inductive exn : Type :=
| IndexError
| LinAlgError
| ValueError
| AttributeError
| ZeroDivisionError
| Exception (msg : string).

Inductive result (A : Type) : Type :=
| Ok (a : A)
| Raise (e : exn).
Arguments Ok {A} a.
Arguments Raise {A} e.

Definition bind {A B : Type} (r : result A) (k : A -> result B) : result B :=
  match r with
  | Ok a => k a
  | Raise e => Raise e
  end.

Notation "x <- r ;; k" := (bind r (fun x => k))
  (at level 61, r at next level, right associativity).

(** ** Scalars *)

Local Open Scope Qc_scope.

Definition QcZ (z : Z) : Qc := Q2Qc (inject_Z z).

Definition Qcabs (x : Qc) : Qc := Q2Qc (Qabs x).

Definition Qcleb (x y : Qc) : bool := Qle_bool x y.
Definition Qceqb (x y : Qc) : bool := Qeq_bool x y.
Definition Qcltb (x y : Qc) : bool := negb (Qle_bool y x).

Definition Qcmax (x y : Qc) : Qc := if Qcleb x y then y else x.

(** ** Array helpers *)

Definition sumQc (l : list Qc) : Qc := fold_right Qcplus 0 l.

Definition dot (u v : list Qc) : Qc :=
  sumQc (map (fun p => fst p * snd p) (combine u v)).

Definition vadd (u v : list Qc) : list Qc :=
  map (fun p => fst p + snd p) (combine u v).

Definition vsub (u v : list Qc) : list Qc :=
  map (fun p => fst p - snd p) (combine u v).

Definition col (m : list (list Qc)) (j : nat) : list Qc :=
  map (fun r => nth j r 0) m.

(** [np.transpose] of a two-dimensional array with [cols] columns. *)
Definition transpose (cols : nat) (m : list (list Qc)) : list (list Qc) :=
  map (col m) (seq 0 cols).

(** The same for arrays of any element type, with the element [d] read
    where a row is too short. *)
Definition transpose_of {A : Type} (d : A) (cols : nat) (m : list (list A))
  : list (list A) :=
  map (fun j => map (fun r => nth j r d) m) (seq 0 cols).

(** [np.dot(v, m)] for a vector and a matrix with [cols] columns. *)
Definition vecmat (cols : nat) (v : list Qc) (m : list (list Qc)) : list Qc :=
  map (fun j => dot v (col m j)) (seq 0 cols).

(** [np.dot(a, b)] for two matrices, [b] with [cols] columns. *)
Definition matmul (cols : nat) (a b : list (list Qc)) : list (list Qc) :=
  map (fun r => vecmat cols r b) a.

Definition ZtoQc_vec (v : list Z) : list Qc := map QcZ v.
Definition ZtoQc_mat (m : list (list Z)) : list (list Qc) := map ZtoQc_vec m.

(** [np.repeat(l, n)]: every element [n] times in a row. *)
Definition np_repeat {A : Type} (l : list A) (n : nat) : list A :=
  flat_map (fun x => repeat x n) l.

(** [np.tile(l, n)]: the whole list [n] times. *)
Definition np_tile {A : Type} (l : list A) (n : nat) : list A :=
  concat (repeat l n).

(** Python's [range(lo, hi)]. *)
Definition range (lo hi : Z) : list Z :=
  map (fun k => lo + Z.of_nat k)%Z (seq 0 (Z.to_nat (hi - lo))).

(** Python indexing [l[i]] of a sequence: a negative index counts from the
    end, an index outside the sequence raises [IndexError]. *)
Definition py_index {A : Type} (l : list A) (i : Z) : result A :=
  let n := Z.of_nat (length l) in
  let k := if (i <? 0)%Z then (i + n)%Z else i in
  if ((0 <=? k) && (k <? n))%Z
  then match nth_error l (Z.to_nat k) with
       | Some x => Ok x
       | None => Raise IndexError
       end
  else Raise IndexError.

(** 3 x 3 determinant and inverse ([np.linalg.inv], which raises
    [LinAlgError] on a singular matrix). *)
Definition at2 (m : list (list Qc)) (i j : nat) : Qc := nth j (nth i m []) 0.

Definition det3 (m : list (list Qc)) : Qc :=
  at2 m 0 0 * (at2 m 1 1 * at2 m 2 2 - at2 m 1 2 * at2 m 2 1)
  - at2 m 0 1 * (at2 m 1 0 * at2 m 2 2 - at2 m 1 2 * at2 m 2 0)
  + at2 m 0 2 * (at2 m 1 0 * at2 m 2 1 - at2 m 1 1 * at2 m 2 0).

Definition inv3 (m : list (list Qc)) : result (list (list Qc)) :=
  let d := det3 m in
  if Qceqb d 0 then Raise LinAlgError
  else
    let c i j :=
      let i1 := Nat.modulo (i + 1) 3 in let i2 := Nat.modulo (i + 2) 3 in
      let j1 := Nat.modulo (j + 1) 3 in let j2 := Nat.modulo (j + 2) 3 in
      at2 m i1 j1 * at2 m i2 j2 - at2 m i1 j2 * at2 m i2 j1 in
    Ok (map (fun i => map (fun j => c j i / d) (seq 0 3)) (seq 0 3)).

(** ** The crystal and its supercell

    The attributes of an [InterpolationData] object that the interpolation
    reads.  [cell_vec] is the magnitude of [self.cell_vec] in bohr and
    [ion_mass] the magnitude of [self.ion_mass] in electron masses, as the
    methods below obtain them with [.to(...).magnitude]. *)

Record crystal : Type := mkCrystal {
  n_ions : nat;
  cell_vec : list (list Qc);
  ion_r : list (list Qc);
  ion_mass : list Qc;
  n_cells_in_sc : nat;
  sc_matrix : list (list Z);
  cell_origins : list (list Z);
  force_constants : list (list (list Qc))
}.

(** ** [_get_all_origins] *)

Definition get_all_origins (max_xyz min_xyz : list Z) : list (list Z) :=
  let diff := map (fun p => Z.to_nat (Z.abs (fst p - snd p)))
                  (combine max_xyz min_xyz) in
  let mx i := nth i max_xyz 0%Z in
  let mn i := nth i min_xyz 0%Z in
  let d i := nth i diff O in
  let nx := np_repeat (range (mn 0%nat) (mx 0%nat)) (d 1 * d 2)%nat in
  let ny := np_repeat (np_tile (range (mn 1%nat) (mx 1%nat)) (d 0%nat))
                      (d 2%nat) in
  let nz := np_tile (range (mn 2%nat) (mx 2%nat)) (d 0 * d 1)%nat in
  map (fun p => [fst (fst p); snd (fst p); snd p]) (combine (combine nx ny) nz).

(** ** [_calculate_supercell_images] *)

(** Storing a Python integer in an [int8] array keeps its low eight bits. *)
Definition int8 (z : Z) : Z := ((z + 128) mod 256 - 128)%Z.

Definition ws_frac : list (list Z) :=
  [[0; 0; 0]; [0; 0; 1]; [0; 1; 0]; [0; 1; 1];
   [0; 1; -1]; [1; 0; 0]; [1; 0; 1]; [1; 0; -1];
   [1; 1; 0]; [1; 1; 1]; [1; 1; -1]; [1; -1; 0];
   [1; -1; 1]; [1; -1; -1]]%Z.

Definition cutoff_scale : Qc := 1.

(** A float that may be [inf] or [nan] where the code divides by a sum of
    squares that can be zero: [None] stands for the non-finite value. *)
Definition inv_sq (w : list Qc) : option Qc :=
  let s := sumQc (map (fun x => x * x) w) in
  if Qceqb s 0 then None else Some (1 / s).

(** [np.amax(dist_wsp_frac, axis=1) <= 0.5*cutoff_scale + 0.001] for one
    candidate image: false as soon as one fraction is [nan]. *)
Definition within_ws (ws : list (list Qc)) (inv_ws_sq : list (option Qc))
    (dist : list Qc) : bool :=
  let fracs := map (fun p => match snd p with
                             | Some v => Some (Qcabs (dot dist (fst p) * v))
                             | None => None
                             end) (combine ws inv_ws_sq) in
  match fold_right (fun f acc => match f, acc with
                                 | Some x, Some m => Some (Qcmax x m)
                                 | _, _ => None
                                 end) (Some 0) fracs with
  | Some m => Qcleb m (Q2Qc (1 # 2) * cutoff_scale + Q2Qc (1 # 1000))
  | None => false
  end.

(** [np.where(cond)[0]]: the positions at which [cond] holds. *)
Definition np_where {A : Type} (cond : A -> bool) (l : list A) : list Z :=
  map (fun p => Z.of_nat (fst p))
      (filter (fun p => cond (snd p)) (combine (seq 0%nat (length l)) l)).

Record sc_images : Type := mkImages {
  sc_image_i : list (list (list (list Z)));
  n_sc_images : list (list (list Z));
  max_sc_images : Z
}.

(** [np.max] of an array raises [ValueError] when the array is empty. *)
Definition np_max (l : list Z) : result Z :=
  match l with
  | [] => Raise ValueError
  | x :: r => Ok (fold_left Z.max r x)
  end.

(** The candidate images of lines 1221-1222. *)
Definition image_candidates (lim : Z) : list (list Z) :=
  get_all_origins (map (fun l => l + 1)%Z (repeat lim 3%nat))
                  (map Z.opp (repeat lim 3%nat)).

(** Lines 1237-1244 for one triple: the candidates that pass the
    Wigner-Seitz test. *)
Definition triple_images (ws_list sc_image_cart : list (list Qc))
    (sc_ion_cart : list (list (list Qc))) (nc i j : nat) : list Z :=
  let dists := map (fun img =>
                 vsub (vsub (nth i (nth 0%nat sc_ion_cart []) [])
                            (nth j (nth nc sc_ion_cart []) [])) img)
                 sc_image_cart in
  np_where (within_ws (tl ws_list) (map inv_sq (tl ws_list))) dists.

Definition calculate_supercell_images (c : crystal) (lim : Z)
  : result sc_images :=
  let scm := ZtoQc_mat (sc_matrix c) in
  let sc_vecs := matmul 3%nat scm (cell_vec c) in
  let ws_list := matmul 3%nat (ZtoQc_mat ws_frac) sc_vecs in
  let sc_image_cart :=
    matmul 3%nat (ZtoQc_mat (image_candidates lim)) sc_vecs in
  inv_scm <- inv3 (transpose 3%nat scm) ;;
  let sc_ion_r :=
    map (fun o => map (fun r => vecmat 3%nat (vadd (ZtoQc_vec o) r) inv_scm)
                      (ion_r c))
        (cell_origins c) in
  let sc_ion_cart := map (fun cell => matmul 3%nat cell sc_vecs) sc_ion_r in
  let n_img := Z.to_nat ((2 * lim + 1) ^ 3) in
  let cells := seq 0%nat (n_cells_in_sc c) in
  let ions := seq 0%nat (n_ions c) in
  let table :=
    map (fun nc => map (fun i => map (fun j =>
           triple_images ws_list sc_image_cart sc_ion_cart nc i j) ions)
         ions) cells in
  let image_i :=
    map (map (map (fun found =>
      map int8 (firstn n_img (found ++ repeat (-1)%Z n_img))))) table in
  let n_images := map (map (map (fun found => int8 (Z.of_nat (length found)))))
                      table in
  m <- np_max (concat (concat n_images)) ;;
  Ok (mkImages image_i n_images m).

(** ** Complex numbers ([complex128], with exact rational parts) *)

Record C : Type := mkC { Re : Qc; Im : Qc }.

Definition C0 : C := mkC 0 0.
Definition C1 : C := mkC 1 0.
Definition Cre (x : Qc) : C := mkC x 0.
Definition Cadd (a b : C) : C := mkC (Re a + Re b) (Im a + Im b).
Definition Csub (a b : C) : C := mkC (Re a - Re b) (Im a - Im b).
Definition Cmul (a b : C) : C :=
  mkC (Re a * Re b - Im a * Im b) (Re a * Im b + Im a * Re b).
Definition Cscale (x : Qc) (a : C) : C := mkC (x * Re a) (x * Im a).
Definition Cconj (a : C) : C := mkC (Re a) (- Im a).
Definition Cabs2 (a : C) : Qc := Re a * Re a + Im a * Im a.
Definition Cinv (a : C) : C :=
  mkC (Re a / Cabs2 a) (- Im a / Cabs2 a).
Definition Cdiv (a b : C) : C := Cmul a (Cinv b).

Fixpoint Cpow_nat (z : C) (n : nat) : C :=
  match n with
  | O => C1
  | S k => Cmul z (Cpow_nat z k)
  end.

(** [np.power(z, n)] for a complex base and an integer exponent. *)
Definition Cpow (z : C) (n : Z) : C :=
  if (n <? 0)%Z then Cinv (Cpow_nat z (Z.to_nat (- n)))
  else Cpow_nat z (Z.to_nat n).

Definition Ceqb (a b : C) : bool := Qceqb (Re a) (Re b) && Qceqb (Im a) (Im b).

Definition cmatrix : Type := list (list C).

Definition sumC (l : list C) : C := fold_right Cadd C0 l.

Definition cat2 (m : cmatrix) (i j : nat) : C := nth j (nth i m []) C0.

(** Elementwise operations on two-dimensional arrays. *)
Definition map2 {A B D : Type} (f : A -> B -> D) (u : list A) (v : list B)
  : list D :=
  map (fun p => f (fst p) (snd p)) (combine u v).

Definition mmap2 {A B D : Type} (f : A -> B -> D)
    (a : list (list A)) (b : list (list B)) : list (list D) :=
  map2 (map2 f) a b.

Definition cmadd : cmatrix -> cmatrix -> cmatrix := mmap2 Cadd.
Definition cmsub : cmatrix -> cmatrix -> cmatrix := mmap2 Csub.

(** [np.conj], [np.transpose], [np.matmul] and [np.identity] on square
    complex arrays with [n] rows. *)
Definition cmconj (m : cmatrix) : cmatrix := map (map Cconj) m.
Definition cmtranspose (n : nat) (m : cmatrix) : cmatrix :=
  transpose_of C0 n m.
Definition cmatmul (n : nat) (a b : cmatrix) : cmatrix :=
  map (fun r => map (fun j =>
         sumC (map2 Cmul r (map (fun row => nth j row C0) b)))
       (seq 0 n)) a.
Definition cidentity (n : nat) : cmatrix :=
  map (fun i => map (fun j => if Nat.eqb i j then C1 else C0) (seq 0 n))
      (seq 0 n).

(** [np.einsum('i,j->ij', u, v)]. *)
Definition couter (u v : list C) : cmatrix :=
  map (fun x => map (fun y => Cmul x y) v) u.

(** ** Phase factors: [np.unique] and [_calculate_phases] *)

Fixpoint insert_unique (x : Z) (l : list Z) : list Z :=
  match l with
  | [] => [x]
  | y :: r => if (x <? y)%Z then x :: l
              else if (x =? y)%Z then l
              else y :: insert_unique x r
  end.

Fixpoint index_of (x : Z) (l : list Z) : nat :=
  match l with
  | [] => O
  | y :: r => if (x =? y)%Z then O else S (index_of x r)
  end.

(** [np.unique(l, return_inverse=True)]: the sorted distinct values and,
    for every element of [l], its position among them. *)
Definition np_unique (l : list Z) : list Z * list nat :=
  let u := fold_right insert_unique [] l in
  (u, map (fun x => index_of x u) l).

Definition column {A : Type} (d : A) (m : list (list A)) (j : nat) : list A :=
  map (fun r => nth j r d) m.

(** The float [math.pi]. *)
Definition math_pi : Qc := Q2Qc (884279719003555 # 281474976710656).

(** The float [sys.float_info.epsilon] and the float [sys.float_info.max]. *)
Definition float_epsilon : Qc := Q2Qc (1 # 4503599627370496).
Definition float_max : Qc := QcZ (2 ^ 1024 - 2 ^ 971).

(** A decimal constant [m]e-[k] of the source. *)
Definition decimal (m : Z) (k : positive) : Qc :=
  Q2Qc (Qmake m (Pos.pow 10 k)).

Section Phases.

(** [np.exp(1j*x)] for a real [x]. *)
Variable np_exp_j : Qc -> C.

(** Lines 415-424 of [calculate_fine_phonons]: the supercell image
    offsets and the cell origins, split per axis into their distinct
    values and the indices that rebuild them. *)
Definition unique_axes (rows : list (list Z))
  : list (list Z) * list (list nat) :=
  let per_axis := map (fun i => np_unique (column 0%Z rows i)) (seq 0 3) in
  (map fst per_axis,
   map (fun k => map (fun ax => nth k (snd ax) O) per_axis)
       (seq 0 (length rows))).

Definition sc_offsets (sc_mat : list (list Z)) (sc_image_r : list (list Z))
  : list (list Z) :=
  map (fun img => map (fun i =>
         fold_right Z.add 0%Z
           (map2 Z.mul (column 0%Z sc_mat i) img)) (seq 0 3)) sc_image_r.

Definition phases_of (phase : list C) (unique_vals : list (list Z))
    (unique_i : list (list nat)) : list C :=
  fold_left
    (fun acc i =>
       let unique_phases := map (Cpow (nth i phase C0))
                                (nth i unique_vals []) in
       map2 Cmul acc
            (map (fun idx => nth (nth i idx O) unique_phases C0) unique_i))
    (seq 0 3) (repeat C1 (length unique_i)).

Definition calculate_phases (qpt : list Qc)
    (unique_sc_offsets : list (list Z)) (unique_sc_i : list (list nat))
    (unique_cell_origins : list (list Z)) (unique_cell_i : list (list nat))
  : list C * list C :=
  let phase := map (fun x => np_exp_j (QcZ 2 * math_pi * x)) qpt in
  (phases_of phase unique_sc_offsets unique_sc_i,
   phases_of phase unique_cell_origins unique_cell_i).

End Phases.

(** ** [_calculate_dyn_mat] *)

Fixpoint mapM {A B : Type} (f : A -> result B) (l : list A) : result (list B) :=
  match l with
  | [] => Ok []
  | x :: r => y <- f x ;; ys <- mapM f r ;; Ok (y :: ys)
  end.

Fixpoint foldM {A B : Type} (f : B -> A -> result B) (l : list A) (b : B)
  : result B :=
  match l with
  | [] => Ok b
  | x :: r => b' <- f b x ;; foldM f r b'
  end.

(** The slice [l[0:m]]. *)
Definition py_slice_to {A : Type} (l : list A) (m : Z) : list A :=
  if (m <? 0)%Z then firstn (length l - Z.to_nat (- m)) l
  else firstn (Z.to_nat m) l.

(** [a.repeat(3, axis=2).repeat(3, axis=1)] on one cell's [n x n] block. *)
Definition repeat3 {A : Type} (m : list (list A)) : list (list A) :=
  np_repeat (map (fun r => np_repeat r 3) m) 3.

Definition czeros (n : nat) : cmatrix := repeat (repeat C0 n) n.

Definition calculate_dyn_mat (np_exp_j : Qc -> C) (n_ions : nat)
    (img : sc_images) (qpt : list Qc)
    (fc_img_weighted : list (list (list Qc)))
    (unique_sc_offsets : list (list Z)) (unique_sc_i : list (list nat))
    (unique_cell_origins : list (list Z)) (unique_cell_i : list (list nat))
  : result cmatrix :=
  let (sc_ph, cell_phases) :=
    calculate_phases np_exp_j qpt unique_sc_offsets unique_sc_i
                     unique_cell_origins unique_cell_i in
  let sc_phases := sc_ph ++ [C0] in
  sc_phase_sum <-
    mapM (mapM (mapM (fun idx =>
      ph <- mapM (py_index sc_phases) (py_slice_to idx (max_sc_images img)) ;;
      Ok (sumC ph)))) (sc_image_i img) ;;
  let ij_phases :=
    map2 (fun cp m => map (map (Cmul cp)) m) cell_phases sc_phase_sum in
  let full_dyn_mat :=
    map2 (fun fc ph => mmap2 Cscale fc
                         (repeat3 (transpose_of C0 n_ions ph)))
         fc_img_weighted ij_phases in
  let dyn_mat := fold_left cmadd full_dyn_mat (czeros (3 * n_ions)) in
  Ok (cmtranspose (3 * n_ions) dyn_mat).

(** Lines 434-443 of [calculate_fine_phonons].  [np.divide(..., where=...)]
    leaves the entries it skips uninitialised: [uninit] is what the fresh
    output array holds there. *)
Definition fc_image_weighting (uninit : Qc) (n_ions : nat)
    (fc : list (list (list Qc))) (n_images : list (list (list Z)))
  : list (list (list Qc)) :=
  let n_sc_images_repeat :=
    map (fun m => transpose_of 0%Z (3 * n_ions) (repeat3 m)) n_images in
  map2 (mmap2 (fun f n => if (n =? 0)%Z then uninit else f / QcZ n))
       fc n_sc_images_repeat.

Definition dyn_mat_weighting (np_sqrt : Qc -> Qc) (n_ions : nat)
    (mass : list Qc) : list (list Qc) :=
  let row := np_repeat mass 3 in
  let masses := repeat row (3 * n_ions) in
  mmap2 (fun a b => 1 / np_sqrt (a * b))
        masses (transpose (3 * n_ions) masses).

(** ** [_calculate_gamma_correction] *)

Definition cross (u v : list Qc) : list Qc :=
  let x l i := nth i l 0 in
  [x u 1%nat * x v 2%nat - x u 2%nat * x v 1%nat;
   x u 2%nat * x v 0%nat - x u 0%nat * x v 2%nat;
   x u 0%nat * x v 1%nat - x u 1%nat * x v 0%nat].

Definition cell_volume (cv : list (list Qc)) : Qc :=
  dot (nth 0 cv []) (cross (nth 1 cv []) (nth 2 cv [])).

(** Lines 900-910.  The quotient is the float quotient where the divisor,
    the cell volume times [q_dir . dielectric . q_dir], is not zero.  A
    zero divisor, which NumPy answers with [inf] and a matrix of [nan], is
    outside the model: the theorems on the values of this correction assume
    that the divisor is not zero. *)
Definition calculate_gamma_correction (cv : list (list Qc))
    (born : list (list (list Qc))) (dielectric : list (list Qc))
    (q_dir : list Qc) : cmatrix :=
  let denominator := dot q_dir (map (fun row => dot row q_dir) dielectric) in
  let factor := QcZ 4 * math_pi / (cell_volume cv * denominator) in
  let q_born_sum := map (map (fun row => dot row q_dir)) born in
  let na_corr :=
    flat_map (fun bi =>
      map (fun x => flat_map (fun bj => map (fun y => Cre (x * y)) bj)
                             q_born_sum) bi) q_born_sum in
  map (map (Cscale factor)) na_corr.

(** ** [_find_acoustic_modes] *)

(** What the routine needs of the entries of its matrix, which are floats
    for the real-space force constants and complex for a dynamical matrix. *)
Record entry_ops (S : Type) : Type := mkOps {
  e_zero : S;
  e_add : S -> S -> S;
  e_abs2 : S -> Qc      (* [np.abs(x)**2] *)
}.

Definition real_ops : entry_ops Qc := mkOps 0 Qcplus (fun x => x * x).
Definition complex_ops : entry_ops C := mkOps C0 Cadd Cabs2.

Fixpoint chunks_fuel {A : Type} (fuel k : nat) (l : list A) : list (list A) :=
  match fuel, l with
  | _, [] => []
  | O, _ => []
  | S f, _ => firstn k l :: chunks_fuel f k (skipn k l)
  end.

(** Consecutive pieces of [k] elements. *)
Definition chunks {A : Type} (k : nat) (l : list A) : list (list A) :=
  chunks_fuel (length l) k l.

(** [np.reshape(a, (d0, d1, d2))] of a two-dimensional array. *)
Definition reshape3 {A : Type} (a : list (list A)) (d0 d1 d2 : nat)
  : result (list (list (list A))) :=
  let flat := concat a in
  if Nat.eqb (length flat) (d0 * d1 * d2)
  then Ok (map (chunks d2) (chunks (d1 * d2) flat))
  else Raise ValueError.

Fixpoint insert_sorted (x : Qc * nat) (l : list (Qc * nat)) : list (Qc * nat) :=
  match l with
  | [] => [x]
  | y :: r => if Qcltb (fst x) (fst y) then x :: l else y :: insert_sorted x r
  end.

(** [np.argsort]: the positions of the elements in ascending order (equal
    elements are kept in their original order here). *)
Definition np_argsort (l : list Qc) : list nat :=
  map snd (fold_left (fun acc x => insert_sorted x acc)
                     (combine l (seq 0 (length l))) []).

(** The slice [l[-3:]]. *)
Definition last3 {A : Type} (l : list A) : list A :=
  skipn (length l - 3) l.

Section AcousticModes.

Variable S : Type.
Variable ops : entry_ops S.
(** [np.linalg.eigh]: eigenvalues and eigenvectors (as columns), or
    [LinAlgError]. *)
Variable eigh : list (list S) -> result (list Qc * list (list S)).

(** The squared centre-of-mass displacement of every branch (lines
    1109-1111) and the number of branches that qualify as acoustic (line
    1115). *)
Definition c_of_m_disp_sq (evec_reshape : list (list (list S))) : list Qc :=
  let c_of_m_disp :=
    map (fun branch =>
           map (fun a => fold_right (e_add ops) (e_zero ops)
                           (column (e_zero ops) branch a)) (seq 0 3))
        evec_reshape in
  map (fun d => sumQc (map (e_abs2 ops) d)) c_of_m_disp.

Definition qualifying_modes (n_ions : nat) (disp_sq : list Qc) : nat :=
  let sensitivity := Q2Qc (1 # 2) in
  let sc_mass := 1 * QcZ (Z.of_nat n_ions) in
  List.length (filter (fun x => Qcltb (sensitivity * sc_mass) x) disp_sq).

Definition find_acoustic_modes (dyn_mat : list (list S))
  : result (list nat * list Qc * list (list S)) :=
  let n_branches := List.length dyn_mat in
  let n_ions := Nat.div n_branches 3 in
  ev <- eigh dyn_mat ;;
  let (evals, evecs) := ev in
  evec_reshape <- reshape3 (transpose_of (e_zero ops) n_branches evecs)
                           n_branches n_ions 3 ;;
  let disp_sq := c_of_m_disp_sq evec_reshape in
  if Nat.ltb (qualifying_modes n_ions disp_sq) 3
  then Raise (Exception "Could not find 3 acoustic modes"%string)
  else Ok (last3 (np_argsort disp_sq), evals, evecs).

End AcousticModes.

(** ** Warnings ([warnings.warn]) *)

Inductive warning : Type :=
| NoRelativeIndex      (* "... supercell relative index couldn't be found.
                           Returning uncorrected FC matrix" *)
| NoAcousticModesFC    (* "... could not find 3 acoustic modes.
                           Returning uncorrected FC matrix" *)
| NoAcousticModesDyn.  (* "... could not find 3 acoustic modes.
                           Returning uncorrected dynamical matrix" *)

(** [np.min] of a float array. *)
Definition np_min (l : list Qc) : result Qc :=
  match l with
  | [] => Raise ValueError
  | x :: r => Ok (fold_left (fun m y => if Qcltb y m then y else m) r x)
  end.

(** ** [_enforce_reciprocal_asr] *)

Section ReciprocalASR.

Variable eigh : cmatrix -> result (list Qc * cmatrix).

Definition enforce_reciprocal_asr (dyn_mat_gamma dyn_mat : cmatrix)
  : result (cmatrix * list warning) :=
  match find_acoustic_modes complex_ops eigh dyn_mat_gamma with
  | Raise _ => Ok (dyn_mat, [NoAcousticModesDyn])
  | Ok (ac_i, evals, evecs) =>
      m <- np_min (map Qcabs evals) ;;
      let tol := decimal 1 8 * m in
      corrected <-
        foldM
          (fun dm (p : nat * nat) =>
             let (i, ac) := p in
             e <- py_index evals (Z.of_nat ac) ;;
             let v := column C0 evecs ac in
             Ok (cmsub dm (map (map (Cscale (tol * QcZ (Z.of_nat i) + e)))
                               (couter v v))))
          (combine (seq 0 (length ac_i)) ac_i) dyn_mat ;;
      Ok (corrected, [])
  end.

End ReciprocalASR.

(** ** [_enforce_realspace_asr] *)

(** [np.rint]: the nearest integer, halves going to the even neighbour. *)
Definition np_rint (x : Qc) : Qc :=
  let f := Qfloor x in
  let d := x - QcZ f in
  let half := Q2Qc (1 # 2) in
  if Qcltb d half then QcZ f
  else if Qcltb half d then QcZ (f + 1)
  else if Z.even f then QcZ f else QcZ (f + 1).

(** [np.argmin]: the first position of the smallest element. *)
Fixpoint argmin_from (l : list Qc) (pos best_pos : nat) (best : Qc) : nat * Qc :=
  match l with
  | [] => (best_pos, best)
  | x :: r => if Qcltb x best then argmin_from r (Datatypes.S pos) pos x
              else argmin_from r (Datatypes.S pos) best_pos best
  end.

Definition np_argmin (l : list Qc) : result (nat * Qc) :=
  match l with
  | [] => Raise ValueError
  | x :: r => Ok (argmin_from r 1 0 x)
  end.

Definition slice {A : Type} (l : list A) (lo hi : nat) : list A :=
  firstn (hi - lo) (skipn lo l).

(** The chunked search of lines 986-1003 for one origin cell [nc]: for
    every cell the index of the cell origin equivalent to their difference,
    and the distance at which it was found. *)
Definition relative_index_search (n_cells : nat)
    (cell_origins_sc : list (list Qc)) (nc : nat)
  : result (list Qc * list nat) :=
  let inter_cell_vectors :=
    map (fun v => vsub v (nth nc cell_origins_sc [])) cell_origins_sc in
  let N := 100%nat in
  let tol := QcZ 16 * float_epsilon in
  res <-
    foldM
      (fun (st : bool * (list Qc * list nat)) i =>
         let '(stopped, (dist_min, sc_relative_index)) := st in
         if stopped then Ok st
         else
           let ci := (i * N)%nat in
           let cf := Nat.min ((i + 1) * N) n_cells in
           current <-
             mapM (fun v =>
                     np_argmin
                       (map (fun o =>
                               sumQc (map (fun d => Qcabs (d - np_rint d))
                                          (vsub v o)))
                            (slice cell_origins_sc ci cf)))
                  inter_cell_vectors ;;
           let updated :=
             map2 (fun (cur : nat * Qc) (old : Qc * nat) =>
                     if Qcltb (snd cur) (fst old)
                     then (snd cur, (ci + fst cur)%nat)
                     else old)
                  current (combine dist_min sc_relative_index) in
           let dist_min' := map fst updated in
           Ok (forallb (fun d => Qcleb d tol) dist_min',
               (dist_min', map snd updated)))
      (seq 0 (Z.to_nat (Z.quot (Z.of_nat n_cells - 1) 100) + 1))
      (false, (repeat float_max n_cells, repeat O n_cells)) ;;
  Ok (snd res).

Section RealspaceASR.

Variable eigh : list (list Qc) -> result (list Qc * list (list Qc)).

Definition msub : list (list Qc) -> list (list Qc) -> list (list Qc) :=
  mmap2 Qcminus.

Definition outer (u v : list Qc) : list (list Qc) :=
  map (fun x => map (fun y => x * y) v) u.

(** Lines 978-1011 for one origin cell [nc]: [None] once the relative
    index of some cell is not found within [16 * epsilon], otherwise the
    rows of the square matrix gathered so far. *)
Definition relative_index_tolerance : Qc := QcZ 16 * float_epsilon.

Definition assemble_step (c : crystal) (cell_origins_sc : list (list Qc))
    (acc : option (list (list Qc))) (nc : nat)
  : result (option (list (list Qc))) :=
  match acc with
  | None => Ok None
  | Some sq_fc =>
      found <- relative_index_search (n_cells_in_sc c) cell_origins_sc nc ;;
      let (dist_min, sc_relative_index) := found in
      if existsb (fun d => Qcltb relative_index_tolerance d) dist_min
      then Ok None
      else
        gathered <- mapM (fun r => py_index (force_constants c) (Z.of_nat r))
                         sc_relative_index ;;
        Ok (Some (sq_fc ++ transpose (3 * n_ions c) (List.concat gathered)))
  end.

Definition supercell_cell_origins (c : crystal)
    (inv_sc_matrix : list (list Qc)) : list (list Qc) :=
  map (fun o => map (fun k => dot (ZtoQc_vec o) (nth k inv_sc_matrix []))
                    (seq 0 3)) (cell_origins c).

(** The square force-constant matrix of the whole supercell, or [None]
    when the warning of line 1005 is due. *)
Definition assemble_sq_fc (c : crystal) : result (option (list (list Qc))) :=
  inv_sc_matrix <- inv3 (transpose 3 (ZtoQc_mat (sc_matrix c))) ;;
  foldM (assemble_step c (supercell_cell_origins c inv_sc_matrix))
        (seq 0 (n_cells_in_sc c)) (Some []).

Definition enforce_realspace_asr (c : crystal)
  : result (list (list (list Qc)) * list warning) :=
  let n := n_ions c in
  assembled <- assemble_sq_fc c ;;
  match assembled with
  | None => Ok (force_constants c, [NoRelativeIndex])
  | Some sq_fc =>
      match find_acoustic_modes real_ops eigh sq_fc with
      | Raise _ => Ok (force_constants c, [NoAcousticModesFC])
      | Ok (ac_i, evals, evecs) =>
          m <- np_min (map Qcabs evals) ;;
          let fc_tol := decimal 1 8 * m in
          corrected <-
            foldM (fun sq ac =>
                     e <- py_index evals (Z.of_nat ac) ;;
                     let v := column 0 evecs ac in
                     Ok (msub sq (map (map (Qcmult (fc_tol + e)))
                                      (outer v v))))
                  ac_i sq_fc ;;
          Ok (chunks (3 * n) (map (firstn (3 * n)) corrected), [])
      end
  end.

End RealspaceASR.

(** ** The Ewald sum: [_dipole_correction_init] and
    [_calculate_dipole_correction] *)

(** What [_dipole_correction_init] stores on the object. *)
Record ewald : Type := mkEwald {
  w_max_cells_abc : list Z;
  w_max_cells_hkl : list Z;
  w_gvecs_cart : list (list Qc);
  w_recip_cutoff : Qc;
  w_eta : Qc;
  w_n_cells_in_range : list (list Z);
  w_cells_in_range : list (list (list Z));
  w_H_ab : list (list (list (list (list Qc))));
  w_dipole_q0 : list (list (list C));
  w_gvec_phases : list (list C)
}.

(** [x.astype(np.int32)] of a float: towards zero. *)
Definition to_int32 (x : Qc) : Z := Z.quot (Qnum x) (Zpos (Qden x)).

Definition scale33 (x : Qc) (m : list (list Qc)) : list (list Qc) :=
  map (map (Qcmult x)) m.

Definition cscale33 (x : Qc) (m : list (list C)) : list (list C) :=
  map (map (Cscale x)) m.

(** The sum of a list of 3 x 3 arrays. *)
Definition sum33 (terms : list (list (list Qc))) : list (list Qc) :=
  map (fun a => map (fun b => sumQc (map (fun t => at2 t a b) terms))
                    (seq 0 3)) (seq 0 3).

Definition csum33 (terms : list (list (list C))) : list (list C) :=
  map (fun a => map (fun b => sumC (map (fun t => cat2 t a b) terms))
                    (seq 0 3)) (seq 0 3).

(** Lines 854-858: the blocks below the diagonal are the conjugates of
    the blocks computed above it. *)
Definition fill_by_symmetry (n : nat) (upper : nat -> nat -> list (list C))
  : list (list (list (list C))) :=
  map (fun i => map (fun j => if Nat.leb i j then upper i j
                              else cmconj (upper j i)) (seq 0 n)) (seq 0 n).

(** [np.einsum('i,jk,ik->j', born[i,a,:], born[j,:,:], t)]: entry [b] is
    the sum over [c] and [d] of [born[i,a,c] * born[j,b,d] * t[c,d]]. *)
Definition born_contract (bia : list Qc) (bj : list (list Qc))
    (t : list (list C)) : list C :=
  map (fun bjb =>
         sumC (map (fun c =>
                 sumC (map (fun d =>
                         Cscale (nth c bia 0 * nth d bjb 0) (cat2 t c d))
                       (seq 0 3)))
               (seq 0 3)))
      bj.

(** [a[idx]] for an index array without negative entries. *)
Definition take_at {A : Type} (d : A) (l : list A) (idx : list Z) : list A :=
  map (fun k => nth (Z.to_nat k) l d) idx.

Section Ewald.

Variable np_exp_j : Qc -> C.     (* [np.exp(1j*x)] *)
Variable np_sqrt : Qc -> Qc.
Variable np_exp : Qc -> Qc.
Variable erfc : Qc -> Qc.        (* [scipy.special.erfc] *)
Variable np_power : Qc -> Qc -> Qc.  (* [x**y] of two floats *)
(** [simphony.util.reciprocal_lattice], which is not among the sources. *)
Variable reciprocal_lattice : list (list Qc) -> list (list Qc).

Definition epsilon : Qc := decimal 1 10.

(** [math.sqrt], which raises [ValueError] below zero. *)
Definition math_sqrt (x : Qc) : result Qc :=
  if Qcltb x 0 then Raise ValueError else Ok (np_sqrt x).

Definition norm (v : list Qc) : Qc := np_sqrt (dot v v).

(** Lines 646-652 and 657-663: the number of cells to visit along each
    axis for a cutoff [r], and all the cells within it. *)
Definition max_cells (r : Qc) (vecs : list (list Qc)) : list Z :=
  let column_sums := map (fun i => sumQc (map Qcabs (col vecs i))) (seq 0 3) in
  let reach := np_sqrt (r * r + sumQc (map (fun x => x * x) column_sums)) in
  map (fun v => (to_int32 (reach / norm v) + 1)%Z) vecs.

Definition all_cells (max_cells : list Z) : list (list Z) :=
  get_all_origins (map (fun m => m + 1)%Z max_cells) (map Z.opp max_cells).

(** The cells kept by [np.where(np.logical_and(x > epsilon, x < cutoff))]
    together with what is stored for them. *)
Definition in_range (cutoff x : Qc) : bool :=
  Qcltb epsilon x && Qcltb x cutoff.

(** Lines 683-708 for one pair of ions: the indices of the cells in range
    and their tensors [H_ab]. *)
Definition real_space_pair (eta_2 real_cutoff sqrt_pi : Qc)
    (inv_dielectric : list (list Qc))
    (cell_origins_cart cell_origins_e : list (list Qc))
    (rij_cart rij_e : list Qc) : list (Z * list (list Qc)) :=
  let per_cell :=
    map2 (fun oc oe =>
            let diff := vsub rij_cart oc in
            let delta := vsub rij_e oe in
            let norm_2 := dot delta diff * eta_2 in
            (delta, norm_2, np_sqrt norm_2))
         cell_origins_cart cell_origins_e in
  let indexed := combine (seq 0 (List.length per_cell)) per_cell in
  let kept := filter (fun p => in_range real_cutoff (snd (snd p))) indexed in
  map (fun p =>
         let '(k, (delta, norm_2, nrm)) := p in
         let exp_term := QcZ 2 * np_exp (- norm_2) / (sqrt_pi * norm_2) in
         let erfc_term := erfc nrm / (nrm * norm_2) in
         let f1 := eta_2 * (QcZ 3 * erfc_term / norm_2
                            + exp_term * (QcZ 3 / norm_2 + QcZ 2)) in
         let f2 := erfc_term + exp_term in
         (Z.of_nat k,
          mmap2 Qcminus (scale33 f1 (outer delta delta))
                        (scale33 f2 inv_dielectric)))
      kept.

(** The reciprocal-lattice vectors kept by the cutoff, each with its
    phases, and the weight [exp(-k^2)/k^2] of the sum. *)
Definition recip_terms (eta_2 recip_cutoff : Qc) (dielectric : list (list Qc))
    (kvecs : list (list Qc)) (gvec_phases : list (list C))
  : list (list Qc * list C * Qc) :=
  let per_g :=
    map2 (fun k ph =>
            let k_len_2 := dot k (map (fun row => dot row k) dielectric)
                           / (QcZ 4 * eta_2) in
            (k, ph, k_len_2))
         kvecs gvec_phases in
  map (fun p => let '(k, ph, k_len_2) := p in
                (k, ph, np_exp (- k_len_2) / k_len_2))
      (filter (fun p => in_range recip_cutoff (np_sqrt (snd p))) per_g).

(** The slice [a[:m]] of an array padded with [d] up to the length
    [total]. *)
Definition padded {A : Type} (d : A) (total m : nat) (l : list A) : list A :=
  firstn m (l ++ repeat d (total - List.length l)).

Definition zeros33 : list (list Qc) := repeat (repeat 0 3) 3.

Definition dipole_correction_init (c : crystal)
    (born : list (list (list Qc))) (dielectric : list (list Qc))
  : result ewald :=
  let cv := cell_vec c in
  let recip := reciprocal_lattice cv in
  let n := n_ions c in
  inv_dielectric <- inv3 dielectric ;;
  let sqrt_pi := np_sqrt math_pi in
  (* lines 636-643 *)
  let abc_mag := map norm cv in
  let third := Q2Qc (1 # 3) in
  let sixth := Q2Qc (1 # 6) in
  let mean_abc_mag := np_power (fold_right Qcmult 1 abc_mag) third in
  let skew := fold_right Qcmax 0 abc_mag / mean_abc_mag in
  let eta0 := sqrt_pi / mean_abc_mag * np_power (QcZ (Z.of_nat n)) sixth in
  let precision := QcZ 50 in
  let real_cutoff := np_sqrt precision * skew in
  let recip_cutoff := 1 * np_sqrt precision * skew in
  (* lines 646-664 *)
  let max_cells_abc := max_cells (real_cutoff / eta0) cv in
  let n_cells_tot :=
    Z.to_nat (fold_right Z.mul 1%Z (map (fun m => 2 * m + 1)%Z max_cells_abc))
  in
  let cells := all_cells max_cells_abc in
  let cell_origins_cart := matmul 3 (ZtoQc_mat cells) cv in
  let max_cells_hkl := max_cells (recip_cutoff * QcZ 2 * eta0) recip in
  let gvecs := all_cells max_cells_hkl in
  let gvecs_cart := matmul 3 (ZtoQc_mat gvecs) recip in
  (* lines 667-668 *)
  let eta := eta0 * np_power (det3 dielectric) sixth in
  let eta_2 := eta * eta in
  (* lines 671-710 *)
  let ion_r_cart := matmul 3 (ion_r c) cv in
  let ion_r_e := matmul 3 ion_r_cart inv_dielectric in
  let cell_origins_e := matmul 3 cell_origins_cart inv_dielectric in
  let pairs :=
    map (fun i => map (fun j =>
           real_space_pair eta_2 real_cutoff sqrt_pi inv_dielectric
             cell_origins_cart cell_origins_e
             (vsub (nth i ion_r_cart []) (nth j ion_r_cart []))
             (vsub (nth i ion_r_e []) (nth j ion_r_e [])))
         (seq 0 n)) (seq 0 n) in
  sqrt_det <- math_sqrt (det3 dielectric) ;;
  let real_q0 :=
    map (map (fun pair =>
           scale33 (eta * eta * eta / sqrt_det) (sum33 (map snd pair))))
        pairs in
  (* lines 714-738 *)
  let gvec_phases :=
    map (fun g => map (fun r =>
           np_exp_j (QcZ 2 * math_pi * dot (ZtoQc_vec g) r)) (ion_r c)) gvecs in
  let terms := recip_terms eta_2 recip_cutoff dielectric gvecs_cart
                           gvec_phases in
  let volume := cell_volume cv in
  let recip_q0 :=
    map (fun i => map (fun j =>
           cscale33 (math_pi / (volume * eta_2))
             (csum33
                (map (fun t =>
                        let '(g, ph, recip_exp) := t in
                        let phase_exp := Cdiv (nth i ph C0) (nth j ph C0) in
                        map (map (fun x => Cscale (x * recip_exp) phase_exp))
                            (outer g g))
                     terms)))
         (seq 0 n)) (seq 0 n) in
  (* lines 742-751 *)
  let dipole_q0 :=
    map (fun i =>
           let acc :=
             map (fun bia =>
                    fold_left
                      (fun row j =>
                         map2 Cadd row
                           (born_contract bia (nth j born [])
                              (mmap2 (fun x y => Csub x (Cre y))
                                     (nth j (nth i recip_q0 []) [])
                                     (nth j (nth i real_q0 []) []))))
                      (seq 0 n) (repeat C0 3))
                 (nth i born []) in
           mmap2 (fun x y => Cscale (Q2Qc (1 # 2)) (Cadd x y))
                 acc (transpose_of C0 3 acc))
        (seq 0 n) in
  (* lines 753-764 *)
  let counts :=
    map (map (fun pair => Z.of_nat (List.length pair))) pairs in
  m <- np_max (List.concat counts) ;;
  let keep := Z.to_nat m in
  Ok (mkEwald max_cells_abc max_cells_hkl gvecs_cart recip_cutoff eta counts
        (map (map (fun pair => padded 0%Z n_cells_tot keep (map fst pair)))
             pairs)
        (map (map (fun pair => padded zeros33 n_cells_tot keep (map snd pair)))
             pairs)
        dipole_q0 gvec_phases).

Definition calculate_dipole_correction (c : crystal)
    (born : list (list (list Qc))) (dielectric : list (list Qc))
    (e : ewald) (qpt : list Qc) : result cmatrix :=
  let cv := cell_vec c in
  let recip := reciprocal_lattice cv in
  let n := n_ions c in
  inv_dielectric <- inv3 dielectric ;;
  let eta := w_eta e in
  let eta_2 := eta * eta in
  let q_norm := map (fun x => x - np_rint x) qpt in
  (* lines 807-822 *)
  let cell_origins := all_cells (w_max_cells_abc e) in
  let real_phases :=
    map (fun o => np_exp_j (QcZ 2 * math_pi * dot q_norm (ZtoQc_vec o)))
        cell_origins in
  sqrt_det <- math_sqrt (det3 dielectric) ;;
  let real_upper i j :=
    cscale33 (eta * eta * eta / sqrt_det)
      (csum33 (map2 (fun h ph => map (map (fun x => Cscale x ph)) h)
                    (nth j (nth i (w_H_ab e) []) [])
                    (take_at C0 real_phases
                             (nth j (nth i (w_cells_in_range e) []) [])))) in
  (* lines 826-852 *)
  let q_phases :=
    map (fun r => np_exp_j (QcZ 2 * math_pi * dot q_norm r)) (ion_r c) in
  let q_cart := vecmat 3 q_norm recip in
  let kvecs := map (fun g => vadd g q_cart) (w_gvecs_cart e) in
  let terms := recip_terms eta_2 (w_recip_cutoff e) dielectric kvecs
                           (w_gvec_phases e) in
  let volume := cell_volume cv in
  let recip_upper i j :=
    cscale33 (math_pi / (volume * eta_2))
      (csum33
         (map (fun t =>
                 let '(k, ph, weight) := t in
                 let phase_exp :=
                   Cdiv (Cmul (nth i ph C0) (nth i q_phases C0))
                        (Cmul (nth j ph C0) (nth j q_phases C0)) in
                 map (map (fun x => Cscale x phase_exp))
                     (scale33 weight (outer k k)))
              terms)) in
  (* lines 854-858 *)
  let real_dipole := fill_by_symmetry n real_upper in
  let recip_dipole := fill_by_symmetry n recip_upper in
  (* lines 860-868 *)
  let dipole :=
    map (fun i => map (fun j =>
           let dipole_tmp := mmap2 Csub (nth j (nth i recip_dipole []) [])
                                        (nth j (nth i real_dipole []) []) in
           let block := map (fun bia => born_contract bia (nth j born [])
                                                      dipole_tmp)
                            (nth i born []) in
           if Nat.eqb i j then mmap2 Csub block (nth i (w_dipole_q0 e) [])
           else block)
         (seq 0 n)) (seq 0 n) in
  (* lines 870-871 *)
  Ok (flat_map (fun row_of_blocks =>
                  map (fun a => flat_map (fun block => nth a block [])
                                         row_of_blocks) (seq 0 3))
               dipole).

End Ewald.

(** ** [calculate_fine_phonons] *)

(** Modelled from the spec: [simphony.util.is_gamma], which is not part of
    the sources at hand; the spec speaks of a q-point that "equals the zone
    center". *)
Definition is_gamma (qpt : list Qc) : bool :=
  forallb (fun x => Qceqb x 0) qpt.

Inductive asr_mode : Type := realspace | reciprocal.

Record options : Type := mkOptions {
  opt_asr : option asr_mode;
  opt_precondition : bool;
  opt_set_attrs : bool;
  opt_dipole : bool;
  opt_splitting : bool
}.

(** The defaults of the signature. *)
Definition default_options : options := mkOptions None false true true true.

(** [evals = np.sqrt(np.abs(evals)); evals[np.where(evals < 0)] *= -1],
    with the positions taken before the square root as in the source. *)
Definition signed_frequencies (np_sqrt : Qc -> Qc) (evals : list Qc)
  : list Qc :=
  map (fun e => if Qcltb e 0 then np_sqrt (Qcabs e) * QcZ (-1)
                else np_sqrt (Qcabs e)) evals.

(** [a[q] = x] on a list. *)
Fixpoint set_nth {A : Type} (l : list A) (q : nat) (x : A) : list A :=
  match l, q with
  | [], _ => []
  | _ :: r, O => x :: r
  | y :: r, Datatypes.S k => y :: set_nth r k x
  end.

(** The two solvers of lines 495-499: [np.linalg.eigh], and LAPACK's
    [zheev] when it raises [LinAlgError]. *)
Definition diagonalise (eigh : cmatrix -> result (list Qc * cmatrix))
    (zheev : cmatrix -> list Qc * cmatrix * Z) (m : cmatrix)
  : result (list Qc * cmatrix) :=
  match eigh m with
  | Ok r => Ok r
  | Raise LinAlgError => let '(evals, evecs, info) := zheev m in
                         Ok (evals, evecs)
  | Raise e => Raise e
  end.

(** Lines 470-476: the directions of approach for q-point number [q]. *)
Definition gamma_directions (qpts : list (list Qc)) (q : nat)
  : result (list (list Qc)) :=
  let n_qpts := List.length qpts in
  if Nat.eqb q 0 then
    d <- py_index qpts 1 ;; Ok [d]
  else if Nat.eqb q (n_qpts - 1) then
    d <- py_index qpts (-2) ;; Ok [d]
  else
    a <- py_index qpts (Z.of_nat q - 1) ;;
    b <- py_index qpts (Z.of_nat q + 1) ;;
    Ok [map Qcopp a; b].

(** NumPy, SciPy, LAPACK and pint, and the helper of [simphony.util] that
    is not among the sources. *)
Record library : Type := mkLibrary {
  np_exp_j : Qc -> C;                 (* [np.exp(1j*x)] *)
  np_sqrt : Qc -> Qc;
  np_exp : Qc -> Qc;
  erfc : Qc -> Qc;
  np_power : Qc -> Qc -> Qc;
  reciprocal_lattice : list (list Qc) -> list (list Qc);
  eigh : cmatrix -> result (list Qc * cmatrix);
  eigh_real : list (list Qc) -> result (list Qc * list (list Qc));
  zheev : cmatrix -> list Qc * cmatrix * Z;
  uninit : Qc;                        (* a fresh array's contents *)
  hartree_to : string -> Qc -> Qc     (* [(x*hartree).to(u).magnitude] *)
}.

Section Engine.

Variable lib : library.

(** The [InterpolationData] object.  An attribute that a method tests
    with [hasattr] is an [option]. *)
Record interpolation_data : Type := mkData {
  crys : crystal;
  born : option (list (list (list Qc)));
  dielectric : option (list (list Qc));
  force_constants_asr : option (list (list (list Qc)));
  eta : option ewald;
  images : option sc_images;
  dyn_mats : list cmatrix;
  asr : option asr_mode;
  dipole : bool;
  n_qpts : nat;
  qpts : list (list Qc);
  weights : list Qc;
  freqs : list (list Qc);
  freqs_units : string;
  eigenvecs : list (list (list (list C)));
  split_i : list nat;
  split_freqs : list (list Qc);
  split_freqs_units : string;
  split_eigenvecs : list (list (list (list C)))
}.

(** What the loop over the q-points carries from one pass to the next. *)
Record loop_state : Type := mkLoop {
  l_prev_evecs : cmatrix;
  l_dyn_mats : list cmatrix;
  l_freqs : list (list Qc);
  l_eigenvecs : list (list (list (list C)));
  l_split_i : list nat;
  l_split_freqs : list (list Qc);
  l_split_eigenvecs : list (list (list (list C)))
}.

(** Lines 486-493: the matrix handed to the solver for one entry of
    [na_corrs] ([None] is the single zero of [np.array([0])], which
    leaves every entry as it is). *)
Definition corrected_matrix (n : nat) (precondition : bool)
    (weighting : list (list Qc)) (dyn_mat : cmatrix)
    (prev_evecs : cmatrix) (na_corr : option cmatrix) : cmatrix :=
  let dyn_mat_corr := match na_corr with
                      | Some corr => cmadd dyn_mat corr
                      | None => dyn_mat
                      end in
  let dyn_mat_corr := mmap2 Cscale weighting dyn_mat_corr in
  if precondition
  then cmatmul (3 * n)
         (cmatmul (3 * n) (cmtranspose (3 * n) (cmconj prev_evecs))
                  dyn_mat_corr)
         prev_evecs
  else dyn_mat_corr.

(** Lines 502-506: the eigenvectors as [(n_branches, n_ions, 3)] and the
    signed frequencies. *)
Definition mode_set (n : nat) (evals : list Qc) (evecs : cmatrix)
  : result (list Qc * list (list (list C))) :=
  evecs_out <- reshape3 (cmtranspose (3 * n) evecs) (3 * n) n 3 ;;
  Ok (signed_frequencies (np_sqrt lib) evals, evecs_out).

(** Lines 485-514: one pass of [for i, na_corr in enumerate(na_corrs)]
    for q-point number [q]. *)
Definition solve_one (n : nat) (precondition : bool)
    (weighting : list (list Qc)) (dyn_mat : cmatrix) (q : nat)
    (st : loop_state) (ic : nat * option cmatrix) : result loop_state :=
  let (i, na_corr) := ic in
  let dyn_mat_corr :=
    corrected_matrix n precondition weighting dyn_mat
                     (l_prev_evecs st) na_corr in
  ev <- diagonalise (eigh lib) (zheev lib) dyn_mat_corr ;;
  let (evals, evecs) := ev in
  modes <- mode_set n evals evecs ;;
  let (evals_out, evecs_out) := modes in
  let dm := set_nth (l_dyn_mats st) q dyn_mat_corr in
  if Nat.eqb i 0
  then Ok (mkLoop evecs dm
             (set_nth (l_freqs st) q evals_out)
             (set_nth (l_eigenvecs st) q evecs_out)
             (l_split_i st) (l_split_freqs st) (l_split_eigenvecs st))
  else Ok (mkLoop evecs dm (l_freqs st) (l_eigenvecs st)
             (l_split_i st ++ [q])
             (l_split_freqs st ++ [evals_out])
             (l_split_eigenvecs st ++ [evecs_out])).

(** Everything the loop reads that does not change from one q-point to
    the next. *)
Record loop_context : Type := mkCtx {
  x_crystal : crystal;
  x_born : option (list (list (list Qc)));
  x_dielectric : option (list (list Qc));
  x_ewald : option ewald;
  x_images : sc_images;
  x_fc_img_weighted : list (list (list Qc));
  x_weighting : list (list Qc);
  x_unique_sc : list (list Z) * list (list nat);
  x_unique_cell : list (list Z) * list (list nat);
  x_dyn_mat_gamma : option cmatrix;
  x_precondition : bool;
  x_dipole : bool;
  x_splitting : bool
}.

(** [_calculate_dyn_mat] followed by [+= _calculate_dipole_correction]
    when [dipole] is set (lines 457-463, and 446-451 for the zone
    centre). *)
Definition dipole_corrected (x : loop_context) (qpt : list Qc)
  : result cmatrix :=
  dyn_mat <- calculate_dyn_mat (np_exp_j lib) (n_ions (x_crystal x))
               (x_images x) qpt (x_fc_img_weighted x)
               (fst (x_unique_sc x)) (snd (x_unique_sc x))
               (fst (x_unique_cell x)) (snd (x_unique_cell x)) ;;
  if x_dipole x then
    match x_born x, x_dielectric x, x_ewald x with
    | Some b, Some d, Some e =>
        corr <- calculate_dipole_correction (np_exp_j lib) (np_sqrt lib)
                  (np_exp lib) (reciprocal_lattice lib) (x_crystal x) b d e
                  qpt ;;
        Ok (cmadd dyn_mat corr)
    | _, _, _ => Raise AttributeError
    end
  else Ok dyn_mat.

(** Lines 470-483: the non-analytic corrections of q-point number [q]. *)
Definition na_corrections (x : loop_context) (all_qpts : list (list Qc))
    (q : nat) (qpt : list Qc) : result (list (option cmatrix)) :=
  if x_splitting x && is_gamma qpt then
    q_dirs <- gamma_directions all_qpts q ;;
    match x_born x, x_dielectric x with
    | Some b, Some d =>
        Ok (map (fun q_dir =>
                   Some (calculate_gamma_correction
                           (cell_vec (x_crystal x)) b d q_dir)) q_dirs)
    | _, _ => Raise AttributeError
    end
  else Ok [None].

(** The body of [for q in range(n_qpts)]. *)
Definition loop_body (x : loop_context) (all_qpts : list (list Qc))
    (acc : loop_state * list warning) (q : nat)
  : result (loop_state * list warning) :=
  let (st, warned) := acc in
  qpt <- py_index all_qpts (Z.of_nat q) ;;
  dyn_mat <- dipole_corrected x qpt ;;
  dw <- match x_dyn_mat_gamma x with
        | Some dyn_mat_gamma =>
            enforce_reciprocal_asr (eigh lib) dyn_mat_gamma dyn_mat
        | None => Ok (dyn_mat, [])
        end ;;
  let (dyn_mat, w) := dw in
  na_corrs <- na_corrections x all_qpts q qpt ;;
  st' <- foldM (solve_one (n_ions (x_crystal x)) (x_precondition x)
                          (x_weighting x) dyn_mat q)
               (combine (seq 0 (List.length na_corrs)) na_corrs) st ;;
  Ok (st', warned ++ w).

Definition is_some {A : Type} (o : option A) : bool :=
  match o with Some _ => true | None => false end.

(** Lines 377-451: everything before the loop over the q-points.  The
    result is the loop's context, the cached [force_constants_asr] and
    the warnings given so far. *)
Definition prepare (self : interpolation_data) (o : options)
  : result (loop_context * option (list (list (list Qc))) * list warning) :=
  let c := crys self in
  let n := n_ions c in
  (* lines 378-383 *)
  fa <- match opt_asr o, force_constants_asr self with
        | Some realspace, None =>
            r <- enforce_realspace_asr (eigh_real lib) c ;;
            Ok (fst r, Some (fst r), snd r)
        | Some realspace, Some fc => Ok (fc, Some fc, [])
        | _, cached => Ok (force_constants c, cached, [])
        end ;;
  let '(fc, fc_asr, warned) := fa in
  (* lines 385-391 *)
  let dipole_on :=
    opt_dipole o && is_some (born self) && is_some (dielectric self) in
  let splitting_on := opt_splitting o && dipole_on in
  ew <- match dipole_on, eta self, born self, dielectric self with
        | true, None, Some b, Some d =>
            e <- dipole_correction_init (np_exp_j lib) (np_sqrt lib)
                   (np_exp lib) (erfc lib) (np_power lib)
                   (reciprocal_lattice lib) c b d ;;
            Ok (Some e)
        | _, cached, _, _ => Ok cached
        end ;;
  (* lines 408-424 *)
  let lim := 2%Z in
  let sc_image_r := image_candidates lim in
  let unique_sc := unique_axes (sc_offsets (sc_matrix c) sc_image_r) in
  let unique_cell := unique_axes (cell_origins c) in
  (* lines 427-432 *)
  img <- match images self with
         | Some i => Ok i
         | None => calculate_supercell_images c lim
         end ;;
  (* lines 434-443 *)
  let fc_img_weighted :=
    fc_image_weighting (uninit lib) n fc (n_sc_images img) in
  let weighting := dyn_mat_weighting (np_sqrt lib) n (ion_mass c) in
  let x0 := mkCtx c (born self) (dielectric self) ew img fc_img_weighted
                  weighting unique_sc unique_cell None
                  (opt_precondition o) dipole_on splitting_on in
  (* lines 445-451 *)
  gamma <- match opt_asr o with
           | Some reciprocal =>
               g <- dipole_corrected x0 [0; 0; 0] ;; Ok (Some g)
           | _ => Ok None
           end ;;
  Ok (mkCtx c (born self) (dielectric self) ew img fc_img_weighted
            weighting unique_sc unique_cell gamma
            (opt_precondition o) dipole_on splitting_on,
      fc_asr, warned).

(** Lines 453-514: the loop over the q-points. *)
Definition initial_state (n n_q : nat) : loop_state :=
  mkLoop (cidentity (3 * n))
         (repeat (czeros (3 * n)) n_q)
         (repeat (repeat 0 (3 * n)) n_q)
         (repeat (repeat (repeat (repeat C0 3) n) (3 * n)) n_q)
         [] [] [].

Definition run_loop (x : loop_context) (new_qpts : list (list Qc))
    (warned : list warning) : result (loop_state * list warning) :=
  let n_q := List.length new_qpts in
  foldM (loop_body x new_qpts) (seq 0 n_q)
        (initial_state (n_ions (x_crystal x)) n_q, warned).

Definition calculate_fine_phonons (self : interpolation_data)
    (new_qpts : list (list Qc)) (o : options)
  : result (interpolation_data * (list (list Qc)
                                  * list (list (list (list C))))
            * list warning) :=
  prepared <- prepare self o ;;
  let '(x, fc_asr, warned) := prepared in
  looped <- run_loop x new_qpts warned ;;
  let (st, warned) := looped in
  (* lines 516-531 *)
  let n_q := List.length new_qpts in
  let out_freqs := map (map (hartree_to lib (freqs_units self))) (l_freqs st) in
  let out_split :=
    map (map (hartree_to lib (split_freqs_units self))) (l_split_freqs st) in
  let cached := mkData (crys self) (born self) (dielectric self) fc_asr
                       (x_ewald x) (Some (x_images x)) (l_dyn_mats st) in
  self' <-
    (if opt_set_attrs o then
       if Nat.eqb n_q 0 then Raise ZeroDivisionError
       else Ok (cached (opt_asr o) (x_dipole x) n_q new_qpts
                  (repeat (1 / QcZ (Z.of_nat n_q)) n_q)
                  out_freqs (freqs_units self) (l_eigenvecs st)
                  (l_split_i st) out_split (split_freqs_units self)
                  (l_split_eigenvecs st))
     else Ok (cached (asr self) (dipole self) (n_qpts self)
                (qpts self) (weights self) (freqs self) (freqs_units self)
                (eigenvecs self) (split_i self) (split_freqs self)
                (split_freqs_units self) (split_eigenvecs self))) ;;
  Ok (self', (out_freqs, l_eigenvecs st), warned).

End Engine.

(** ** Concrete inputs

    Stand-ins for the numerical library, exact where the examples need
    them, and two small crystals. *)

(** A point of the unit circle for every angle, the right one at [0]. *)
Definition circle_point (x : Qc) : C :=
  let t := x / QcZ 2 in
  mkC ((1 - t * t) / (1 + t * t)) (QcZ 2 * t / (1 + t * t)).

(** The square root of a fraction of two squares. *)
Definition sqrt_of_square (x : Qc) : Qc :=
  Q2Qc (Qmake (Z.sqrt (Qnum x)) (Pos.sqrt (Qden x))).

(** A solver that reads the diagonal: right for diagonal matrices whose
    diagonal ascends. *)
Definition diagonal_solver (m : cmatrix) : result (list Qc * cmatrix) :=
  Ok (map (fun i => Re (cat2 m i i)) (seq 0 (List.length m)),
      cidentity (List.length m)).

Definition failing_solver (m : cmatrix) : result (list Qc * cmatrix) :=
  Raise LinAlgError.

Definition zheev_with (info : Z) (m : cmatrix) : list Qc * cmatrix * Z :=
  (map (fun i => Re (cat2 m i i)) (seq 0 (List.length m)),
   cidentity (List.length m), info).

Definition real_diagonal_solver (m : list (list Qc))
  : result (list Qc * list (list Qc)) :=
  Ok (map (fun i => at2 m i i) (seq 0 (List.length m)),
      map (fun i => map (fun j => if Nat.eqb i j then 1 else 0)
                        (seq 0 (List.length m))) (seq 0 (List.length m))).

Definition frac (n d : Z) : Qc := Q2Qc (Qmake n (Z.to_pos d)).

Definition eye3 : list (list Qc) :=
  [[1; 0; 0]; [0; 1; 0]; [0; 0; 1]].

(** One ion in a cubic cell, one cell in the supercell. *)
Definition cubic_cell (fc : list (list Qc)) : crystal :=
  mkCrystal 1 eye3 [[0; 0; 0]] [1] 1
            [[1; 0; 0]; [0; 1; 0]; [0; 0; 1]]%Z [[0; 0; 0]]%Z [fc].

(** Two ions in a cell whose third vector leans far along the first. *)
Definition skew_cell : crystal :=
  mkCrystal 2
    [[1; 0; 0]; [0; 1; 0]; [frac 15 2; 0; 1]]
    [[0; 0; 0]; [0; 0; frac 1 2]]
    [1; 1] 1
    [[1; 0; 0]; [0; 1; 0]; [0; 0; 1]]%Z [[0; 0; 0]]%Z
    [repeat (repeat 0 6) 6].

(** The reciprocal lattice, [2 pi] times the inverse transpose. *)
Definition reciprocal_of (cv : list (list Qc)) : list (list Qc) :=
  match inv3 cv with
  | Ok m => scale33 (QcZ 2 * math_pi) (transpose 3 m)
  | Raise _ => zeros33
  end.

(** A library for running the code on the examples: the two solvers are
    given, square roots are exact on squares, [exp] and [erfc] of a real
    number underflow to zero (so that the Ewald sums vanish), and units are
    left alone. *)
Definition test_library (eigh : cmatrix -> result (list Qc * cmatrix))
    (zheev : cmatrix -> list Qc * cmatrix * Z) : library :=
  mkLibrary circle_point sqrt_of_square (fun _ => 0) (fun _ => 0)
            (fun x _ => x) reciprocal_of eigh real_diagonal_solver zheev 0
            (fun _ x => x).

Definition fresh_data (c : crystal) (b : option (list (list (list Qc))))
    (d : option (list (list Qc))) : interpolation_data :=
  mkData c b d None None None [] None false 0 [] [] [] "meV" [] [] [] "meV"
         [].

Definition run (eigh : cmatrix -> result (list Qc * cmatrix))
    (zheev : cmatrix -> list Qc * cmatrix * Z)
    (self : interpolation_data) (new_qpts : list (list Qc)) (o : options) :=
  calculate_fine_phonons (test_library eigh zheev) self new_qpts o.

(** * Properties *)

(** ** Supercell images *)

Lemma np_where_length {A : Type} (cond : A -> bool) (l : list A) :
  (List.length (np_where cond l) <= List.length l)%nat.
Proof.
  unfold np_where. rewrite length_map.
  eapply Nat.le_trans; [apply filter_length_le|].
  rewrite length_combine, length_seq. lia.
Qed.

Lemma int8_small (z : Z) : (0 <= z <= 127)%Z -> int8 z = z.
Proof.
  intros H. unfold int8. rewrite Z.mod_small by lia. lia.
Qed.

Lemma fold_max_le (bound : Z) (l : list Z) (x : Z) :
  (x <= bound)%Z -> Forall (fun y => (y <= bound)%Z) l ->
  (fold_left Z.max l x <= bound)%Z.
Proof.
  intros Hx Hl. revert x Hx.
  induction Hl as [|y r Hy _ IH]; intros x Hx; simpl; [assumption|].
  apply IH. lia.
Qed.

Lemma np_max_le (bound : Z) (l : list Z) (m : Z) :
  Forall (fun y => (y <= bound)%Z) l -> np_max l = Ok m -> (m <= bound)%Z.
Proof.
  intros Hl. destruct l as [|x r]; simpl; [discriminate|].
  intros E. injection E as <-.
  inversion Hl; subst. now apply fold_max_le.
Qed.

Lemma Forall_concat {A : Type} (P : A -> Prop) (ll : list (list A)) :
  Forall (Forall P) ll -> Forall P (List.concat ll).
Proof.
  induction 1 as [|l r Hl _ IH]; simpl; [constructor|].
  apply Forall_app. split; assumption.
Qed.

Lemma nth_map_seq {A : Type} (f : nat -> A) (d : A) (n k : nat) :
  (k < n)%nat -> nth k (map f (seq 0 n)) d = f k.
Proof.
  intros Hk.
  rewrite (nth_indep _ d (f 0%nat)) by (rewrite length_map, length_seq; lia).
  rewrite (map_nth f (seq 0 n) 0%nat k), seq_nth by lia. reflexivity.
Qed.

Arguments triple_images : simpl never.
Arguments image_candidates : simpl never.
Arguments int8 : simpl never.
Arguments inv3 : simpl never.

Definition count_of (t : sc_images) (nc i j : nat) : Z :=
  nth j (nth i (nth nc (n_sc_images t) []) []) 0%Z.

Lemma triple_images_length (lim : Z) (ws sv : list (list Qc))
    (cart : list (list (list Qc))) (nc i j : nat) :
  (List.length (triple_images ws
      (matmul 3 (ZtoQc_mat (image_candidates lim)) sv) cart nc i j)
   <= List.length (image_candidates lim))%nat.
Proof.
  unfold triple_images.
  eapply Nat.le_trans; [apply np_where_length|].
  unfold matmul, ZtoQc_mat. rewrite !length_map. lia.
Qed.

Lemma candidates_2 : List.length (image_candidates 2) = 125%nat.
Proof. reflexivity. Qed.

(** C2, as the code has it: with the image limit 2 of
    [calculate_fine_phonons] the search returns whenever the supercell
    matrix is invertible and the crystal has a cell and an ion, whatever the
    counts are; and every count it returns lies between 0 and 125, the
    number of candidates, so within the [int8] range. *)
Theorem supercell_image_counts (c : crystal) :
  (Qceqb (det3 (transpose 3 (ZtoQc_mat (sc_matrix c)))) 0 = false ->
   (1 <= n_cells_in_sc c)%nat -> (1 <= n_ions c)%nat ->
   exists t, calculate_supercell_images c 2 = Ok t) /\
  (forall t, calculate_supercell_images c 2 = Ok t ->
     (max_sc_images t <= 125)%Z /\
     forall nc i j, (nc < n_cells_in_sc c)%nat ->
       (i < n_ions c)%nat -> (j < n_ions c)%nat ->
       (0 <= count_of t nc i j <= 125)%Z).
Proof.
  unfold calculate_supercell_images.
  set (scm := ZtoQc_mat (sc_matrix c)).
  set (sv := matmul 3 scm (cell_vec c)).
  set (ws := matmul 3 (ZtoQc_mat ws_frac) sv).
  assert (Hcount : forall cart nc i j,
             (0 <= int8 (Z.of_nat (List.length
                (triple_images ws (matmul 3 (ZtoQc_mat (image_candidates 2)) sv)
                               cart nc i j))) <= 125)%Z).
  { intros cart nc i j.
    pose proof (triple_images_length 2 ws sv cart nc i j) as H.
    rewrite candidates_2 in H. rewrite int8_small; lia. }
  split.
  - intros Hdet Hc Hi. unfold inv3. fold scm. rewrite Hdet. simpl bind.
    destruct (n_cells_in_sc c) as [|nc']; [lia|].
    destruct (n_ions c) as [|ni']; [lia|].
    rewrite <- !cons_seq.
    cbn [map List.concat app np_max bind]. eexists. reflexivity.
  - intros t. destruct (inv3 (transpose 3 scm)) as [inv|e]; [|discriminate].
    simpl bind.
    set (cart := map _ (map _ (cell_origins c))).
    set (table := map _ (seq 0 (n_cells_in_sc c))).
    destruct (np_max _) as [m|e] eqn:Hm; [|discriminate].
    simpl. intros E. injection E as <-. simpl. split.
    + eapply np_max_le; [|exact Hm].
      apply Forall_concat, Forall_concat.
      unfold table. rewrite !Forall_map. apply Forall_forall. intros nc _.
      rewrite !Forall_map. apply Forall_forall. intros i _.
      rewrite !Forall_map. apply Forall_forall. intros j _.
      apply Hcount.
    + intros nc i j Hnc Hi Hj. unfold count_of. simpl.
      unfold table. rewrite !map_map.
      rewrite (nth_map_seq _ [] Hnc), !map_map.
      rewrite (nth_map_seq _ [] Hi), !map_map.
      rewrite (nth_map_seq _ 0%Z Hj).
      apply Hcount.
Qed.

(** Reading a property off a computed result. *)
Lemma ok_exists {A : Type} (r : result A) (p : A -> bool) :
  match r with Ok a => p a | Raise _ => false end = true ->
  exists a, r = Ok a /\ p a = true.
Proof.
  destruct r as [a|e]; [|discriminate]. intros H. exists a. auto.
Qed.

Lemma supercell_image_counts_witness :
  exists t, calculate_supercell_images skew_cell 2 = Ok t /\
            (max_sc_images t <= 125)%Z /\
            (0 <= count_of t 0 0 1 <= 125)%Z.
Proof.
  destruct (supercell_image_counts skew_cell) as [Hret Hbound].
  destruct Hret as [t Ht];
    [vm_compute; reflexivity | simpl; lia | simpl; lia |].
  exists t. split; [exact Ht|].
  destruct (Hbound t Ht) as [Hmax Hcount]. split; [exact Hmax|].
  apply Hcount; simpl; lia.
Defined.

(** C2 fails on the code: in [skew_cell] no candidate image of the pair
    (ion 0, ion 1) passes the Wigner-Seitz test, the search returns the
    count 0 for it, and the interpolation at the zone centre goes on to
    return frequencies without a warning. *)
Lemma skew_cell_pair_without_image :
  (exists t, calculate_supercell_images skew_cell 2 = Ok t /\
             count_of t 0 0 1 = 0%Z) /\
  (exists r, run diagonal_solver (zheev_with 0)
                 (fresh_data skew_cell None None) [[0; 0; 0]]
                 default_options = Ok r /\ snd r = []).
Proof.
  split.
  - destruct (ok_exists (calculate_supercell_images skew_cell 2)
                (fun t => (count_of t 0 0 1 =? 0)%Z)) as [t [Ht Hc]];
      [vm_compute; reflexivity|].
    exists t. split; [exact Ht|]. now apply Z.eqb_eq.
  - destruct (ok_exists (run diagonal_solver (zheev_with 0)
                (fresh_data skew_cell None None) [[0; 0; 0]] default_options)
                (fun r => match snd r with [] => true | _ => false end))
      as [r [Hr Hw]]; [vm_compute; reflexivity|].
    exists r. split; [exact Hr|]. destruct (snd r); [reflexivity|discriminate].
Qed.

(** ** The result monad and Python indexing *)

Lemma bind_ok {A B : Type} (r : result A) (k : A -> result B) (b : B) :
  bind r k = Ok b -> exists a, r = Ok a /\ k a = Ok b.
Proof.
  destruct r as [a|e]; simpl; [|discriminate]. intros H. exists a. auto.
Qed.

(** One step through a chain of binds whose head is not yet known. *)
Ltac bind_step :=
  match goal with
  | |- context [bind ?r _] =>
      destruct r as [?|?];
      [cbn [bind] | try reflexivity; try discriminate]
  end.

Lemma foldM_ext {A B : Type} (f g : B -> A -> result B) (l : list A) (b : B) :
  (forall b' a, f b' a = g b' a) -> foldM f l b = foldM g l b.
Proof.
  intros H. revert b. induction l as [|x r IH]; intros b; simpl; [reflexivity|].
  rewrite H. destruct (g b x); simpl; auto.
Qed.

Lemma py_index_nonneg {A : Type} (l : list A) (k : nat) (d : A) :
  (k < List.length l)%nat -> py_index l (Z.of_nat k) = Ok (nth k l d).
Proof.
  intros Hk. unfold py_index.
  destruct (Z.ltb_spec (Z.of_nat k) 0); [lia|].
  destruct (Z.leb_spec 0 (Z.of_nat k)); [|lia].
  destruct (Z.ltb_spec (Z.of_nat k) (Z.of_nat (List.length l))); [|lia].
  simpl. rewrite Nat2Z.id.
  destruct (nth_error l k) as [x|] eqn:E.
  - now rewrite (nth_error_nth _ _ d E).
  - apply nth_error_None in E. lia.
Qed.

Lemma py_index_beyond {A : Type} (l : list A) (i : Z) :
  (Z.of_nat (List.length l) <= i)%Z -> py_index l i = Raise IndexError.
Proof.
  intros Hi. unfold py_index.
  destruct (Z.ltb_spec i 0); [lia|].
  destruct (Z.ltb_spec i (Z.of_nat (List.length l))); [lia|].
  now rewrite andb_false_r.
Qed.

Lemma py_index_from_end {A : Type} (l : list A) (k : nat) (d : A) :
  (1 <= k <= List.length l)%nat ->
  py_index l (- Z.of_nat k) = Ok (nth (List.length l - k) l d).
Proof.
  intros Hk. unfold py_index.
  destruct (Z.ltb_spec (- Z.of_nat k) 0); [|lia].
  destruct (Z.leb_spec 0 (- Z.of_nat k + Z.of_nat (List.length l))); [|lia].
  destruct (Z.ltb_spec (- Z.of_nat k + Z.of_nat (List.length l))
                       (Z.of_nat (List.length l))); [|lia].
  simpl.
  replace (Z.to_nat (- Z.of_nat k + Z.of_nat (List.length l)))
    with (List.length l - k)%nat by lia.
  destruct (nth_error l (List.length l - k)) as [x|] eqn:E.
  - now rewrite (nth_error_nth _ _ d E).
  - apply nth_error_None in E. lia.
Qed.

(** ** Directions of approach at the zone centre *)

Definition expected_directions (qpts : list (list Qc)) (q : nat)
  : list (list Qc) :=
  let n := List.length qpts in
  if Nat.eqb q 0 then [nth 1 qpts []]
  else if Nat.eqb q (n - 1) then [nth (n - 2) qpts []]
  else [map Qcopp (nth (q - 1) qpts []); nth (q + 1) qpts []].

Lemma gamma_directions_spec (qpts : list (list Qc)) (q : nat) :
  (2 <= List.length qpts)%nat -> (q < List.length qpts)%nat ->
  gamma_directions qpts q = Ok (expected_directions qpts q).
Proof.
  intros Hn Hq. unfold gamma_directions, expected_directions.
  destruct (Nat.eqb_spec q 0) as [->|Hq0].
  - change 1%Z with (Z.of_nat 1).
    rewrite (py_index_nonneg qpts [] (k := 1)) by lia. reflexivity.
  - destruct (Nat.eqb_spec q (List.length qpts - 1)) as [Hlast|Hmid].
    + change (-2)%Z with (- Z.of_nat 2)%Z.
      rewrite (py_index_from_end qpts [] (k := 2)) by lia. reflexivity.
    + replace (Z.of_nat q - 1)%Z with (Z.of_nat (q - 1)) by lia.
      replace (Z.of_nat q + 1)%Z with (Z.of_nat (q + 1)) by lia.
      rewrite (py_index_nonneg qpts [] (k := q - 1)) by lia.
      rewrite (py_index_nonneg qpts [] (k := q + 1)) by lia.
      reflexivity.
Qed.

Lemma gamma_directions_single (g : list Qc) :
  gamma_directions [g] 0 = Raise IndexError.
Proof. reflexivity. Qed.

(** ** Signed frequencies and reshaped eigenvectors *)

(** The sign of a float, as [np.sign] has it. *)
Definition Qcsign (x : Qc) : Qc :=
  if Qcltb x 0 then QcZ (-1) else if Qcltb 0 x then 1 else 0.

Lemma Qcltb_lt (x y : Qc) : Qcltb x y = true <-> x < y.
Proof.
  unfold Qcltb. rewrite negb_true_iff.
  destruct (Qle_bool y x) eqn:E.
  - apply Qle_bool_iff in E. split; [discriminate|].
    intros H. exfalso. apply (Qlt_not_le _ _ H E).
  - split; [|reflexivity]. intros _.
    apply Qnot_le_lt. intros H. apply Qle_bool_iff in H. congruence.
Qed.

Lemma Qcltb_ge (x y : Qc) : Qcltb x y = false <-> y <= x.
Proof.
  unfold Qcltb. rewrite negb_false_iff. apply Qle_bool_iff.
Qed.

Lemma signed_frequencies_spec (np_sqrt : Qc -> Qc) (evals : list Qc) :
  np_sqrt 0 = 0 ->
  signed_frequencies np_sqrt evals
  = map (fun e => Qcsign e * np_sqrt (Qcabs e)) evals.
Proof.
  intros H0. unfold signed_frequencies. apply map_ext. intros e.
  unfold Qcsign. destruct (Qcltb e 0) eqn:Hneg; [ring|].
  destruct (Qcltb 0 e) eqn:Hpos; [ring|].
  apply Qcltb_ge in Hneg, Hpos.
  assert (He : e = 0) by (apply Qcle_antisym; assumption).
  subst e. replace (Qcabs 0) with 0 by (apply Qc_is_canon; reflexivity).
  rewrite H0. ring.
Qed.

Lemma chunks_fuel_concat {A : Type} (k fuel : nat) (rows : list (list A)) :
  (0 < k)%nat -> Forall (fun r => List.length r = k) rows ->
  (List.length rows <= fuel)%nat ->
  chunks_fuel fuel k (List.concat rows) = rows.
Proof.
  intros Hk Hrows. revert fuel.
  induction Hrows as [|r rest Hr _ IH]; intros fuel Hf.
  - destruct fuel; reflexivity.
  - cbn [List.concat]. destruct fuel as [|f]; [simpl in Hf; lia|].
    destruct r as [|x r']; [simpl in Hr; lia|].
    cbn [chunks_fuel app].
    change (x :: r' ++ List.concat rest)
      with ((x :: r') ++ List.concat rest).
    rewrite firstn_app, skipn_app, Hr, Nat.sub_diag.
    rewrite firstn_all2, skipn_all2 by lia.
    cbn [firstn skipn app]. rewrite app_nil_r, IH by (simpl in Hf; lia).
    reflexivity.
Qed.

Lemma chunks_fuel_nth {A : Type} (k : nat) (d : A) (i a fuel : nat)
    (l : list A) :
  (0 < k)%nat -> (a < k)%nat -> (k * i + a < List.length l)%nat ->
  (List.length l <= fuel)%nat ->
  nth a (nth i (chunks_fuel fuel k l) []) d = nth (k * i + a) l d.
Proof.
  intros Hk Ha. revert fuel l.
  induction i as [|i IH]; intros fuel l Hl Hf.
  - destruct fuel as [|f]; [lia|]. destruct l as [|x r]; [simpl in Hl; lia|].
    cbn [chunks_fuel nth]. rewrite Nat.mul_0_r, Nat.add_0_l.
    transitivity (nth a (firstn k (x :: r) ++ skipn k (x :: r)) d);
      [|now rewrite firstn_skipn].
    rewrite app_nth1; [reflexivity|].
    rewrite length_firstn. rewrite Nat.mul_0_r in Hl.
    simpl List.length in *. lia.
  - destruct fuel as [|f]; [lia|]. destruct l as [|x r]; [simpl in Hl; lia|].
    cbn [chunks_fuel nth].
    rewrite IH.
    + transitivity (nth (k * S i + a)
                        (firstn k (x :: r) ++ skipn k (x :: r)) d);
        [|now rewrite firstn_skipn].
      rewrite app_nth2; rewrite length_firstn.
      * f_equal. simpl List.length in *. lia.
      * simpl List.length in *. lia.
    + rewrite length_skipn. simpl List.length in *. lia.
    + rewrite length_skipn. simpl List.length in *. lia.
Qed.

Lemma length_concat_uniform {A : Type} (k : nat) (rows : list (list A)) :
  Forall (fun r => List.length r = k) rows ->
  List.length (List.concat rows) = (List.length rows * k)%nat.
Proof.
  induction 1 as [|r rest Hr _ IH]; [reflexivity|].
  cbn [List.concat List.length]. rewrite length_app, IH, Hr. lia.
Qed.

(** The shape and the entries of the reshaped eigenvectors. *)
Lemma reshape_eigenvectors (n : nat) (evecs : cmatrix) :
  List.length evecs = (3 * n)%nat ->
  exists vs, reshape3 (cmtranspose (3 * n) evecs) (3 * n) n 3 = Ok vs /\
             List.length vs = (3 * n)%nat /\
             forall m k a, (m < 3 * n)%nat -> (k < n)%nat -> (a < 3)%nat ->
               nth a (nth k (nth m vs []) []) C0 = cat2 evecs (3 * k + a) m.
Proof.
  intros Hlen.
  assert (Hrows : Forall (fun r : list C => List.length r = (n * 3)%nat)
                         (cmtranspose (3 * n) evecs)).
  { unfold cmtranspose, transpose_of. rewrite Forall_map.
    apply Forall_forall. intros j _. rewrite length_map. lia. }
  assert (Hn : List.length (cmtranspose (3 * n) evecs) = (3 * n)%nat).
  { unfold cmtranspose, transpose_of. now rewrite length_map, length_seq. }
  unfold reshape3. rewrite (length_concat_uniform Hrows), Hn.
  replace (3 * n * (n * 3) =? 3 * n * n * 3)%nat with true
    by (symmetry; apply Nat.eqb_eq; lia).
  eexists. split; [reflexivity|].
  destruct n as [|n'].
  - split; [reflexivity|]. intros; lia.
  - assert (Hch : chunks (S n' * 3)
                           (List.concat (cmtranspose (3 * S n') evecs))
                    = cmtranspose (3 * S n') evecs).
    { unfold chunks. apply chunks_fuel_concat;
        [lia | exact Hrows
         | rewrite (length_concat_uniform Hrows), Hn; nia]. }
    rewrite Hch.
    split; [now rewrite length_map|].
    intros m k a Hm Hk Ha.
    rewrite (nth_indep _ [] (chunks 3 [])) by (rewrite length_map, Hn; lia).
    rewrite (map_nth (chunks 3)).
    unfold cmtranspose, transpose_of.
    rewrite (nth_map_seq _ [] Hm).
    unfold chunks. rewrite chunks_fuel_nth;
      [| lia | exact Ha | rewrite length_map; lia | lia].
    unfold cat2.
    rewrite (nth_indep _ C0 (nth m [] C0)) by (rewrite length_map; lia).
    rewrite (map_nth (fun r => nth m r C0)). reflexivity.
Qed.

(** ** Failure of the acoustic-sum-rule correction *)

Lemma too_few_acoustic_modes {S : Type} (ops : entry_ops S)
    (eigh : list (list S) -> result (list Qc * list (list S)))
    (dyn_mat : list (list S)) evals evecs vs :
  eigh dyn_mat = Ok (evals, evecs) ->
  reshape3 (transpose_of (e_zero ops) (List.length dyn_mat) evecs)
           (List.length dyn_mat) (Nat.div (List.length dyn_mat) 3) 3 = Ok vs ->
  (qualifying_modes (Nat.div (List.length dyn_mat) 3) (c_of_m_disp_sq ops vs)
   < 3)%nat ->
  find_acoustic_modes ops eigh dyn_mat
  = Raise (Exception "Could not find 3 acoustic modes"%string).
Proof.
  intros He Hr Hq. unfold find_acoustic_modes. rewrite He. cbn [bind].
  rewrite Hr. cbn [bind].
  apply Nat.ltb_lt in Hq. now rewrite Hq.
Qed.

Lemma reciprocal_asr_fallback
    (eigh : cmatrix -> result (list Qc * cmatrix))
    (dyn_mat_gamma dyn_mat : cmatrix) (e : exn) :
  find_acoustic_modes complex_ops eigh dyn_mat_gamma = Raise e ->
  enforce_reciprocal_asr eigh dyn_mat_gamma dyn_mat
  = Ok (dyn_mat, [NoAcousticModesDyn]).
Proof.
  intros H. unfold enforce_reciprocal_asr. now rewrite H.
Qed.

Lemma assemble_after_failure (c : crystal) (cos : list (list Qc))
    (l : list nat) :
  foldM (assemble_step c cos) l None = Ok None.
Proof.
  induction l as [|nc r IH]; [reflexivity|]. exact IH.
Qed.

(** The search for the relative index of a cell fails for origin cell
    [nc]: some cell has no equivalent within [16 * epsilon]. *)
Definition no_relative_index (c : crystal) (cos : list (list Qc)) (nc : nat)
  : Prop :=
  exists dist_min sc_relative_index,
    relative_index_search (n_cells_in_sc c) cos nc
    = Ok (dist_min, sc_relative_index) /\
    existsb (fun d => Qcltb relative_index_tolerance d) dist_min = true.

(** The search succeeds for origin cell [nc] and its rows are gathered. *)
Definition relative_index_found (c : crystal) (cos : list (list Qc))
    (nc : nat) : Prop :=
  exists dist_min sc_relative_index gathered,
    relative_index_search (n_cells_in_sc c) cos nc
    = Ok (dist_min, sc_relative_index) /\
    existsb (fun d => Qcltb relative_index_tolerance d) dist_min = false /\
    mapM (fun r => py_index (force_constants c) (Z.of_nat r))
         sc_relative_index = Ok gathered.

Lemma assemble_stops_at (c : crystal) (cos : list (list Qc))
    (before after : list nat) (nc : nat) (sq : list (list Qc)) :
  Forall (relative_index_found c cos) before ->
  no_relative_index c cos nc ->
  foldM (assemble_step c cos) (before ++ nc :: after) (Some sq) = Ok None.
Proof.
  intros Hb Hnc. revert sq.
  induction Hb as [|nc' r Hf _ IH]; intros sq.
  - destruct Hnc as (dm & idx & Hs & Hex).
    cbn [app foldM assemble_step]. rewrite Hs. cbn [bind]. rewrite Hex.
    cbn [bind]. apply assemble_after_failure.
  - destruct Hf as (dm & idx & g & Hs & Hex & Hg).
    cbn [app foldM assemble_step]. rewrite Hs. cbn [bind]. rewrite Hex, Hg.
    cbn [bind]. apply IH.
Qed.

Lemma realspace_asr_no_index
    (eigh : list (list Qc) -> result (list Qc * list (list Qc)))
    (c : crystal) (inv : list (list Qc)) (nc : nat) :
  inv3 (transpose 3 (ZtoQc_mat (sc_matrix c))) = Ok inv ->
  (nc < n_cells_in_sc c)%nat ->
  (forall k, (k < nc)%nat ->
             relative_index_found c (supercell_cell_origins c inv) k) ->
  no_relative_index c (supercell_cell_origins c inv) nc ->
  enforce_realspace_asr eigh c = Ok (force_constants c, [NoRelativeIndex]).
Proof.
  intros Hinv Hnc Hbefore Hfail.
  unfold enforce_realspace_asr, assemble_sq_fc. rewrite Hinv. cbn [bind].
  replace (seq 0 (n_cells_in_sc c))
    with (seq 0 nc ++ nc :: seq (S nc) (n_cells_in_sc c - S nc)).
  - rewrite assemble_stops_at; [reflexivity| |exact Hfail].
    apply Forall_forall. intros k Hk. apply in_seq in Hk. apply Hbefore. lia.
  - change (nc :: seq (S nc) (n_cells_in_sc c - S nc))
      with (seq nc (S (n_cells_in_sc c - S nc))).
    rewrite <- seq_app. f_equal. lia.
Qed.

Lemma realspace_asr_no_modes
    (eigh : list (list Qc) -> result (list Qc * list (list Qc)))
    (c : crystal) (sq_fc : list (list Qc)) (e : exn) :
  assemble_sq_fc c = Ok (Some sq_fc) ->
  find_acoustic_modes real_ops eigh sq_fc = Raise e ->
  enforce_realspace_asr eigh c = Ok (force_constants c, [NoAcousticModesFC]).
Proof.
  intros Ha Hf. unfold enforce_realspace_asr. rewrite Ha. cbn [bind].
  now rewrite Hf.
Qed.

(** Two outcomes that raise the same exception or return related
    values. *)
Definition related {A B : Type} (R : A -> B -> Prop)
    (r : result A) (r' : result B) : Prop :=
  match r, r' with
  | Ok a, Ok b => R a b
  | Raise e, Raise e' => e = e'
  | _, _ => False
  end.

Lemma foldM_related {A B B' : Type} (R : B -> B' -> Prop)
    (f : B -> A -> result B) (g : B' -> A -> result B') (l : list A) :
  (forall b b' a, R b b' -> related R (f b a) (g b' a)) ->
  forall b b', R b b' -> related R (foldM f l b) (foldM g l b').
Proof.
  intros H. induction l as [|x r IH]; intros b b' Hb; [exact Hb|].
  cbn [foldM]. specialize (H b b' x Hb).
  destruct (f b x) as [c|e], (g b' x) as [c'|e']; cbn in H |- *;
    try contradiction; [now apply IH|exact H].
Qed.

(** The options with the acoustic sum rule switched off. *)
Definition without_asr (o : options) : options :=
  mkOptions None (opt_precondition o) (opt_set_attrs o) (opt_dipole o)
            (opt_splitting o).

(** ** The interpolation loop *)

(** ** Complex conjugation through the arithmetic *)

Lemma C_eq (a b : C) : Re a = Re b -> Im a = Im b -> a = b.
Proof. destruct a, b. simpl. intros -> ->. reflexivity. Qed.

Lemma Cconj_conj (a : C) : Cconj (Cconj a) = a.
Proof. apply C_eq; simpl; ring. Qed.

Lemma Cconj_add (a b : C) : Cconj (Cadd a b) = Cadd (Cconj a) (Cconj b).
Proof. apply C_eq; simpl; ring. Qed.

Lemma Cconj_sub (a b : C) : Cconj (Csub a b) = Csub (Cconj a) (Cconj b).
Proof. apply C_eq; simpl; ring. Qed.

Lemma Cconj_mul (a b : C) : Cconj (Cmul a b) = Cmul (Cconj a) (Cconj b).
Proof. apply C_eq; simpl; ring. Qed.

Lemma Cconj_scale (x : Qc) (a : C) : Cconj (Cscale x a) = Cscale x (Cconj a).
Proof. apply C_eq; simpl; ring. Qed.

Lemma Cabs2_conj (a : C) : Cabs2 (Cconj a) = Cabs2 a.
Proof. unfold Cabs2. simpl. ring. Qed.

Lemma Cconj_inv (a : C) : Cconj (Cinv a) = Cinv (Cconj a).
Proof.
  unfold Cinv. rewrite Cabs2_conj. apply C_eq; simpl; [reflexivity|].
  unfold Qcdiv. ring.
Qed.

Lemma Cconj_div (a b : C) : Cconj (Cdiv a b) = Cdiv (Cconj a) (Cconj b).
Proof. unfold Cdiv. now rewrite Cconj_mul, Cconj_inv. Qed.

Lemma Cconj_0 : Cconj C0 = C0.
Proof. apply C_eq; simpl; ring. Qed.

Lemma Cconj_1 : Cconj C1 = C1.
Proof. apply C_eq; simpl; ring. Qed.

Lemma Cconj_re (x : Qc) : Cconj (Cre x) = Cre x.
Proof. apply C_eq; simpl; ring. Qed.

Lemma Cconj_pow_nat (z : C) (n : nat) :
  Cconj (Cpow_nat z n) = Cpow_nat (Cconj z) n.
Proof.
  induction n as [|n IH]; simpl; [apply Cconj_1|].
  now rewrite Cconj_mul, IH.
Qed.

Lemma Cconj_pow (z : C) (n : Z) : Cconj (Cpow z n) = Cpow (Cconj z) n.
Proof.
  unfold Cpow. destruct (n <? 0)%Z.
  - now rewrite Cconj_inv, Cconj_pow_nat.
  - apply Cconj_pow_nat.
Qed.

Lemma Cconj_sum (l : list C) : Cconj (sumC l) = sumC (map Cconj l).
Proof.
  induction l as [|x r IH]; simpl; [apply Cconj_0|].
  now rewrite Cconj_add, IH.
Qed.

(** Elementwise maps through the array operations. *)
Lemma map2_map {A A' B B' D : Type} (f : A' -> B' -> D) (g : A -> A')
    (h : B -> B') (u : list A) (v : list B) :
  map2 f (map g u) (map h v) = map2 (fun a b => f (g a) (h b)) u v.
Proof.
  unfold map2. revert v. induction u as [|a u IH]; intros [|b v]; simpl;
    try reflexivity. now rewrite IH.
Qed.

Lemma map_map2 {A B D E : Type} (k : D -> E) (f : A -> B -> D)
    (u : list A) (v : list B) :
  map k (map2 f u v) = map2 (fun a b => k (f a b)) u v.
Proof. unfold map2. rewrite map_map. reflexivity. Qed.

Lemma map2_ext {A B D : Type} (f g : A -> B -> D) (u : list A) (v : list B) :
  (forall a b, f a b = g a b) -> map2 f u v = map2 g u v.
Proof. intros H. unfold map2. apply map_ext. intros [a b]. apply H. Qed.

Lemma map2_map_l {A A' B D : Type} (f : A' -> B -> D) (g : A -> A')
    (u : list A) (v : list B) :
  map2 f (map g u) v = map2 (fun a b => f (g a) b) u v.
Proof.
  rewrite <- (map_id v) at 1. apply map2_map.
Qed.

Lemma map2_map_r {A B B' D : Type} (f : A -> B' -> D) (h : B -> B')
    (u : list A) (v : list B) :
  map2 f u (map h v) = map2 (fun a b => f a (h b)) u v.
Proof.
  rewrite <- (map_id u) at 1. apply map2_map.
Qed.

Lemma cmconj_cmadd (a b : cmatrix) :
  cmconj (cmadd a b) = cmadd (cmconj a) (cmconj b).
Proof.
  unfold cmconj, cmadd, mmap2. rewrite map_map2, map2_map.
  apply map2_ext. intros u v. rewrite map_map2, map2_map.
  apply map2_ext. intros x y. apply Cconj_add.
Qed.

Lemma cmconj_cmsub (a b : cmatrix) :
  cmconj (cmsub a b) = cmsub (cmconj a) (cmconj b).
Proof.
  unfold cmconj, cmsub, mmap2. rewrite map_map2, map2_map.
  apply map2_ext. intros u v. rewrite map_map2, map2_map.
  apply map2_ext. intros x y. apply Cconj_sub.
Qed.

Lemma cmconj_scale (w : list (list Qc)) (a : cmatrix) :
  cmconj (mmap2 Cscale w a) = mmap2 Cscale w (cmconj a).
Proof.
  unfold cmconj, mmap2. rewrite map_map2, map2_map_r.
  apply map2_ext. intros u v. rewrite map_map2, map2_map_r.
  apply map2_ext. intros x y. apply Cconj_scale.
Qed.

Lemma cmconj_conj (a : cmatrix) : cmconj (cmconj a) = a.
Proof.
  unfold cmconj. rewrite map_map. rewrite <- (map_id a) at 2.
  apply map_ext. intros r. rewrite map_map. rewrite <- (map_id r) at 2.
  apply map_ext. apply Cconj_conj.
Qed.

Lemma transpose_of_map {A B : Type} (f : A -> B) (d : A) (n : nat)
    (m : list (list A)) :
  transpose_of (f d) n (map (map f) m) = map (map f) (transpose_of d n m).
Proof.
  unfold transpose_of. rewrite map_map. apply map_ext. intros j.
  rewrite !map_map. apply map_ext. intros r. apply map_nth.
Qed.

Lemma cmconj_transpose (n : nat) (a : cmatrix) :
  cmtranspose n (cmconj a) = cmconj (cmtranspose n a).
Proof.
  unfold cmtranspose, cmconj. rewrite <- Cconj_0 at 1.
  apply transpose_of_map.
Qed.

Lemma cmconj_matmul (n : nat) (a b : cmatrix) :
  cmatmul n (cmconj a) (cmconj b) = cmconj (cmatmul n a b).
Proof.
  unfold cmatmul, cmconj. rewrite !map_map. apply map_ext. intros r.
  rewrite map_map. apply map_ext. intros j.
  rewrite Cconj_sum, map_map2. rewrite (map_map (map Cconj)), map2_map.
  rewrite (map2_map_r (fun a0 b0 => Cconj (Cmul a0 b0))).
  f_equal. apply map2_ext. intros x row. rewrite Cconj_mul. f_equal.
  rewrite <- Cconj_0 at 1. apply map_nth.
Qed.

(** ** The lattice points around the origin come in opposite pairs *)

Lemma nth_map_in {A B : Type} (f : A -> B) (l : list A) (d : B) (d' : A)
    (i : nat) :
  (i < List.length l)%nat -> nth i (map f l) d = f (nth i l d').
Proof.
  intros Hi. rewrite (nth_indep _ d (f d')) by now rewrite length_map.
  apply map_nth.
Qed.

Lemma rev_seq_from (a n : nat) :
  rev (seq a n) = map (fun k => (2 * a + n - 1 - k)%nat) (seq a n).
Proof.
  revert a. induction n as [|n IH]; intros a; [reflexivity|].
  transitivity (map (fun k => (2 * a + S n - 1 - k)%nat)
                    (seq a n ++ [(a + n)%nat]));
    [|now rewrite <- seq_S].
  cbn [seq rev]. rewrite IH, map_app. cbn [map]. f_equal.
  - rewrite <- seq_shift, map_map. apply map_ext_in. intros k Hk.
    apply in_seq in Hk. lia.
  - f_equal. lia.
Qed.

Lemma rev_seq (n : nat) :
  rev (seq 0 n) = map (fun k => (n - 1 - k)%nat) (seq 0 n).
Proof.
  rewrite rev_seq_from. apply map_ext. intros k. lia.
Qed.

Lemma range_opposite (a : Z) :
  rev (range (- a) (a + 1)) = map Z.opp (range (- a) (a + 1)).
Proof.
  unfold range. rewrite <- map_rev, rev_seq, !map_map.
  apply map_ext_in. intros k Hk. apply in_seq in Hk. lia.
Qed.

Lemma rev_np_repeat {A : Type} (l : list A) (n : nat) :
  rev (np_repeat l n) = np_repeat (rev l) n.
Proof.
  unfold np_repeat. induction l as [|x r IH]; [reflexivity|].
  cbn [flat_map rev]. rewrite rev_app_distr, IH, flat_map_app.
  cbn [flat_map]. rewrite app_nil_r. f_equal.
  clear. induction n as [|n IH]; [reflexivity|].
  cbn [repeat rev]. rewrite IH. clear.
  induction n as [|n IH]; [reflexivity|]. cbn. now rewrite IH.
Qed.

Lemma rev_np_tile {A : Type} (l : list A) (n : nat) :
  rev (np_tile l n) = np_tile (rev l) n.
Proof.
  unfold np_tile. induction n as [|n IH]; [reflexivity|].
  cbn [repeat List.concat]. rewrite rev_app_distr, IH. clear.
  induction n as [|n IH]; cbn [repeat List.concat].
  - now rewrite app_nil_r.
  - rewrite <- app_assoc, IH. reflexivity.
Qed.

Lemma np_repeat_map {A B : Type} (f : A -> B) (l : list A) (n : nat) :
  np_repeat (map f l) n = map f (np_repeat l n).
Proof.
  unfold np_repeat. induction l as [|x r IH]; [reflexivity|].
  cbn [map flat_map]. now rewrite map_app, map_repeat, IH.
Qed.

Lemma np_tile_map {A B : Type} (f : A -> B) (l : list A) (n : nat) :
  np_tile (map f l) n = map f (np_tile l n).
Proof.
  unfold np_tile. induction n as [|n IH]; [reflexivity|].
  cbn [repeat List.concat]. now rewrite map_app, IH.
Qed.

Lemma np_tile_nil {A : Type} (n : nat) : np_tile (@nil A) n = [].
Proof. unfold np_tile. induction n; [reflexivity|]. exact IHn. Qed.

Lemma length_np_repeat {A : Type} (l : list A) (n : nat) :
  List.length (np_repeat l n) = (List.length l * n)%nat.
Proof.
  unfold np_repeat. induction l as [|x r IH]; [reflexivity|].
  cbn [flat_map List.length]. rewrite length_app, repeat_length, IH. lia.
Qed.

Lemma length_np_tile {A : Type} (l : list A) (n : nat) :
  List.length (np_tile l n) = (List.length l * n)%nat.
Proof.
  unfold np_tile. induction n as [|n IH]; [cbn; lia|].
  cbn [repeat List.concat]. rewrite length_app, IH. lia.
Qed.

Lemma combine_append {A B : Type} (u1 u2 : list A) (v1 v2 : list B) :
  List.length u1 = List.length v1 ->
  combine (u1 ++ u2) (v1 ++ v2) = combine u1 v1 ++ combine u2 v2.
Proof.
  revert v1. induction u1 as [|a u1 IH]; intros [|b v1] H; try discriminate;
    [reflexivity|].
  cbn. rewrite IH by (simpl in H; lia). reflexivity.
Qed.

Lemma rev_combine {A B : Type} (u : list A) (v : list B) :
  List.length u = List.length v ->
  rev (combine u v) = combine (rev u) (rev v).
Proof.
  revert v. induction u as [|a u IH]; intros [|b v] H; try discriminate;
    [reflexivity|].
  cbn [combine rev]. rewrite IH by (simpl in H; lia).
  rewrite combine_append by (rewrite !length_rev; simpl in H; lia).
  reflexivity.
Qed.

Lemma combine_map {A A' B B' : Type} (f : A -> A') (g : B -> B')
    (u : list A) (v : list B) :
  combine (map f u) (map g v)
  = map (fun p => (f (fst p), g (snd p))) (combine u v).
Proof.
  revert v. induction u as [|a u IH]; intros [|b v]; cbn; try reflexivity.
  now rewrite IH.
Qed.

Lemma length_range (lo hi : Z) :
  List.length (range lo hi) = Z.to_nat (hi - lo).
Proof. unfold range. now rewrite length_map, length_seq. Qed.

(** The cells that [_get_all_origins] lists for a box centred on the
    origin, read backwards, are the opposite cells. *)
Lemma all_cells_opposite (m : list Z) :
  rev (all_cells m) = map (map Z.opp) (all_cells m).
Proof.
  unfold all_cells, get_all_origins. cbv zeta.
  pose (hi i := nth i (map (fun m0 => (m0 + 1)%Z) m) 0%Z).
  pose (lo i := nth i (map Z.opp m) 0%Z).
  pose (d i := nth i (map (fun p => Z.to_nat (Z.abs (fst p - snd p)))
                          (combine (map (fun m0 => (m0 + 1)%Z) m)
                                   (map Z.opp m))) 0%nat).
  assert (Hax : forall i,
             rev (range (lo i) (hi i)) = map Z.opp (range (lo i) (hi i)) /\
             (range (lo i) (hi i) = [] \/
              List.length (range (lo i) (hi i)) = d i)).
  { intros i. unfold lo, hi, d.
    destruct (Nat.lt_ge_cases i (List.length m)) as [Hi|Hi].
    - rewrite (nth_map_in (fun m0 => (m0 + 1)%Z) m 0%Z 0%Z Hi).
      rewrite (nth_map_in Z.opp m 0%Z 0%Z Hi).
      split; [apply range_opposite|].
      rewrite combine_map, map_map.
      rewrite (nth_map_in _ (combine m m) 0%nat (0%Z, 0%Z))
        by (rewrite length_combine; lia).
      rewrite combine_nth by reflexivity. cbn [fst snd].
      rewrite length_range.
      destruct (Z.lt_ge_cases (nth i m 0%Z) 0) as [Hneg|Hpos].
      + left. unfold range.
        replace (Z.to_nat _) with 0%nat by lia. reflexivity.
      + right. lia.
    - rewrite !nth_overflow by (rewrite ?length_map; lia).
      split; [reflexivity|]. now left. }
  destruct (Hax 0%nat) as [Hx Lx], (Hax 1%nat) as [Hy Ly],
           (Hax 2%nat) as [Hz Lz].
  change (nth 0 (map (fun m0 => (m0 + 1)%Z) m) 0%Z) with (hi 0%nat).
  change (nth 1 (map (fun m0 => (m0 + 1)%Z) m) 0%Z) with (hi 1%nat).
  change (nth 2 (map (fun m0 => (m0 + 1)%Z) m) 0%Z) with (hi 2%nat).
  change (nth 0 (map Z.opp m) 0%Z) with (lo 0%nat).
  change (nth 1 (map Z.opp m) 0%Z) with (lo 1%nat).
  change (nth 2 (map Z.opp m) 0%Z) with (lo 2%nat).
  fold (d 0%nat) (d 1%nat) (d 2%nat).
  generalize dependent (range (lo 0%nat) (hi 0%nat)). intros X Hx Lx.
  generalize dependent (range (lo 1%nat) (hi 1%nat)). intros Y Hy Ly.
  generalize dependent (range (lo 2%nat) (hi 2%nat)). intros Zs Hz Lz.
  generalize dependent (d 0%nat). intros d0 Lx.
  generalize dependent (d 1%nat). intros d1 Ly.
  generalize dependent (d 2%nat). intros d2 Lz.
  clear Hax lo hi d.
  destruct Lx as [->|Lx]; [reflexivity|].
  destruct Ly as [->|Ly].
  { rewrite np_tile_nil. cbn [np_repeat flat_map].
    rewrite combine_nil. reflexivity. }
  destruct Lz as [->|Lz].
  { rewrite np_tile_nil, combine_nil. reflexivity. }
  rewrite <- map_rev.
  rewrite !rev_combine, rev_np_repeat, rev_np_repeat, !rev_np_tile,
    Hx, Hy, Hz.
  - rewrite np_repeat_map, np_tile_map, np_repeat_map, np_tile_map.
    rewrite !combine_map, !map_map. reflexivity.
  - rewrite !length_np_repeat, length_np_tile. lia.
  - rewrite length_combine, !length_np_repeat, !length_np_tile. lia.
Qed.

(** ** Time reversal: the Fourier-interpolated matrix *)

(** A function applied to what a computation returns. *)
Definition rmap {A B : Type} (f : A -> B) (r : result A) : result B :=
  match r with
  | Ok a => Ok (f a)
  | Raise e => Raise e
  end.

Lemma py_index_map {A B : Type} (f : A -> B) (l : list A) (i : Z) :
  py_index (map f l) i = rmap f (py_index l i).
Proof.
  unfold py_index. rewrite length_map.
  destruct (_ && _)%bool; [|reflexivity].
  rewrite nth_error_map. now destruct (nth_error l _).
Qed.

Lemma mapM_rmap {A B D : Type} (f : B -> D) (g : A -> result D)
    (h : A -> result B) (l : list A) :
  (forall x, g x = rmap f (h x)) -> mapM g l = rmap (map f) (mapM h l).
Proof.
  intros H. induction l as [|x r IH]; [reflexivity|].
  cbn [mapM]. rewrite H, IH.
  destruct (h x); [|reflexivity]. cbn. now destruct (mapM h r).
Qed.

Lemma repeat3_map {A B : Type} (f : A -> B) (m : list (list A)) :
  repeat3 (map (map f) m) = map (map f) (repeat3 m).
Proof.
  unfold repeat3. rewrite map_map.
  rewrite <- np_repeat_map, map_map. f_equal.
  apply map_ext. intros r. apply np_repeat_map.
Qed.

Lemma czeros_conj (n : nat) : cmconj (czeros n) = czeros n.
Proof.
  unfold cmconj, czeros. now rewrite map_repeat, map_repeat, Cconj_0.
Qed.

Lemma fold_cmadd_conj (l : list cmatrix) (z : cmatrix) :
  fold_left cmadd (map cmconj l) (cmconj z) = cmconj (fold_left cmadd l z).
Proof.
  revert z. induction l as [|m r IH]; intros z; [reflexivity|].
  cbn [map fold_left]. now rewrite <- cmconj_cmadd, IH.
Qed.

Lemma nth_conj (k : nat) (l : list C) :
  nth k (map Cconj l) C0 = Cconj (nth k l C0).
Proof. rewrite <- Cconj_0 at 1. apply map_nth. Qed.

Lemma phases_of_conj (phase : list C) (unique_vals : list (list Z))
    (unique_i : list (list nat)) :
  phases_of (map Cconj phase) unique_vals unique_i
  = map Cconj (phases_of phase unique_vals unique_i).
Proof.
  unfold phases_of.
  rewrite <- Cconj_1 at 1. rewrite <- map_repeat.
  generalize (repeat C1 (List.length unique_i)) as acc.
  generalize (seq 0 3) as axes.
  induction axes as [|i axes IH]; intros acc; [reflexivity|].
  cbn [fold_left]. rewrite <- IH. f_equal.
  rewrite map_map2, map2_map.
  rewrite (map2_map_r (fun a b => Cconj (Cmul a b))).
  apply map2_ext. intros a idx.
  rewrite Cconj_mul. f_equal.
  rewrite nth_conj.
  rewrite (map_ext (Cpow (Cconj (nth i phase C0)))
                   (fun n => Cconj (Cpow (nth i phase C0) n)))
    by (intros n; symmetry; apply Cconj_pow).
  rewrite <- (map_map (Cpow (nth i phase C0)) Cconj). apply nth_conj.
Qed.

Section TimeReversal.

Variable lib : library.

(** The complex exponential of NumPy maps opposite angles to conjugate
    values. *)
Hypothesis exp_conj : forall x, np_exp_j lib (- x) = Cconj (np_exp_j lib x).

Definition negate (v : list Qc) : list Qc := map Qcopp v.

Lemma phase_negate (qpt : list Qc) :
  map (fun x => np_exp_j lib (QcZ 2 * math_pi * x)) (negate qpt)
  = map Cconj (map (fun x => np_exp_j lib (QcZ 2 * math_pi * x)) qpt).
Proof.
  unfold negate. rewrite !map_map. apply map_ext. intros x.
  rewrite <- exp_conj. f_equal. ring.
Qed.

Lemma calculate_dyn_mat_negate (n : nat) (img : sc_images) (qpt : list Qc)
    fc_w uso usi uco uci :
  calculate_dyn_mat (np_exp_j lib) n img (negate qpt) fc_w uso usi uco uci
  = rmap cmconj
      (calculate_dyn_mat (np_exp_j lib) n img qpt fc_w uso usi uco uci).
Proof.
  unfold calculate_dyn_mat, calculate_phases.
  rewrite phase_negate, !phases_of_conj.
  set (sc := phases_of _ uso usi). set (cp := phases_of _ uco uci).
  replace (map Cconj sc ++ [C0]) with (map Cconj (sc ++ [C0]))
    by (rewrite map_app; cbn; now rewrite Cconj_0).
  rewrite (mapM_rmap (map (map Cconj))
             (mapM (mapM (fun idx =>
                ph <- mapM (py_index (map Cconj (sc ++ [C0])))
                           (py_slice_to idx (max_sc_images img)) ;;
                Ok (sumC ph))))
             (mapM (mapM (fun idx =>
                ph <- mapM (py_index (sc ++ [C0]))
                           (py_slice_to idx (max_sc_images img)) ;;
                Ok (sumC ph))))).
  - destruct (mapM _ (sc_image_i img)) as [sums|e]; [|reflexivity].
    cbn [rmap bind]. f_equal.
    rewrite <- cmconj_transpose. f_equal.
    rewrite <- czeros_conj at 1. rewrite <- fold_cmadd_conj. f_equal.
    assert (Hij : map2 (fun c m => map (map (Cmul c)) m) (map Cconj cp)
                       (map (map (map Cconj)) sums)
                  = map cmconj
                        (map2 (fun c m => map (map (Cmul c)) m) cp sums)).
    { rewrite map2_map, map_map2. apply map2_ext. intros c m.
      unfold cmconj. rewrite !map_map. apply map_ext. intros r.
      rewrite !map_map. apply map_ext. intros z. symmetry.
      apply Cconj_mul. }
    rewrite Hij. rewrite (map2_map_r _ cmconj). rewrite (map_map2 cmconj).
    apply map2_ext. intros fc ph.
    rewrite cmconj_scale. f_equal.
    unfold cmconj. rewrite <- repeat3_map. f_equal.
    rewrite <- Cconj_0 at 1. apply transpose_of_map.
  - intros l1. apply mapM_rmap. intros l2. apply mapM_rmap. intros idx.
    rewrite (mapM_rmap Cconj (py_index (map Cconj (sc ++ [C0])))
                       (py_index (sc ++ [C0])))
      by (intros i; apply py_index_map).
    destruct (mapM _ (py_slice_to idx _)) as [ph|e]; [|reflexivity].
    cbn. now rewrite Cconj_sum.
Qed.

End TimeReversal.

(** The library with another fallback solver. *)
Definition with_zheev (lib : library)
    (z : cmatrix -> list Qc * cmatrix * Z) : library :=
  mkLibrary (np_exp_j lib) (np_sqrt lib) (np_exp lib) (erfc lib)
            (np_power lib) (reciprocal_lattice lib) (eigh lib)
            (eigh_real lib) z (uninit lib) (hartree_to lib).

Lemma with_zheev_eigh (lib : library) z :
  eigh (with_zheev lib z) = eigh lib.
Proof. reflexivity. Qed.

Lemma with_zheev_zheev (lib : library) z : zheev (with_zheev lib z) = z.
Proof. reflexivity. Qed.

Section EngineProperties.

Variable lib : library.

Local Abbreviation dipole_corrected' := (dipole_corrected lib).
Local Abbreviation loop_body' := (loop_body lib).
Local Abbreviation run_loop' := (run_loop lib).
Local Abbreviation solve_one' := (solve_one lib).
Local Abbreviation prepare' := (prepare lib).
Local Abbreviation calculate_fine_phonons' := (calculate_fine_phonons lib).
Local Abbreviation eigh := (eigh lib).
Local Abbreviation eigh_real := (eigh_real lib).
Local Abbreviation zheev := (zheev lib).
Local Abbreviation np_sqrt := (np_sqrt lib).

(** What [prepare] puts in the context of the loop. *)
Lemma prepare_context (self : interpolation_data) (o : options)
    x fc_asr warned :
  prepare' self o = Ok (x, fc_asr, warned) ->
  x_crystal x = crys self /\ x_born x = born self /\
  x_dielectric x = dielectric self /\
  x_precondition x = opt_precondition o /\
  x_dipole x = (opt_dipole o && is_some (born self)
                && is_some (dielectric self)) /\
  x_splitting x = (opt_splitting o && x_dipole x) /\
  (x_dyn_mat_gamma x = None <-> opt_asr o <> Some reciprocal).
Proof.
  unfold prepare. intros H.
  apply bind_ok in H as [[[fc fa] w0] [_ H]].
  apply bind_ok in H as [ew [_ H]].
  apply bind_ok in H as [img [_ H]].
  apply bind_ok in H as [gamma [Hg H]].
  injection H as <- _ _. cbn.
  repeat split; try reflexivity.
  - intros ->. destruct (opt_asr o) as [[|]|]; try discriminate.
    apply bind_ok in Hg as [g [_ Hg]]. discriminate.
  - intros Hn. destruct (opt_asr o) as [[|]|]; try congruence.
Qed.

(** C10: for a list made of the zone centre alone, with Born charges and
    dielectric tensor present and dipole and splitting requested,
    [calculate_fine_phonons] never returns frequencies; once the set-up and
    the dynamical matrix of that q-point are computed it raises
    [IndexError], from reading [qpts[1]]. *)
Theorem single_zone_centre_raises_index_error
    (self : interpolation_data) (o : options) (g : list Qc)
    b d :
  born self = Some b -> dielectric self = Some d ->
  opt_dipole o = true -> opt_splitting o = true ->
  is_gamma g = true ->
  (forall r, calculate_fine_phonons' self [g] o <> Ok r) /\
  (forall x fc_asr warned dyn_mat,
      prepare' self o = Ok (x, fc_asr, warned) ->
      dipole_corrected' x g = Ok dyn_mat ->
      (forall dyn_mat_gamma, x_dyn_mat_gamma x = Some dyn_mat_gamma ->
         exists r, enforce_reciprocal_asr eigh dyn_mat_gamma dyn_mat = Ok r) ->
      calculate_fine_phonons' self [g] o = Raise IndexError).
Proof.
  intros Hb Hd Hdip Hspl Hg.
  assert (Hna : forall x fc_asr warned,
             prepare' self o = Ok (x, fc_asr, warned) ->
             na_corrections x [g] 0 g = Raise IndexError).
  { intros x fc_asr warned Hp.
    destruct (prepare_context _ _ Hp) as (_ & _ & _ & _ & Hxd & Hxs & _).
    unfold na_corrections.
    rewrite Hxs, Hxd, Hspl, Hdip, Hb, Hd, Hg. reflexivity. }
  split.
  - intros r. unfold calculate_fine_phonons.
    destruct (prepare' self o) as [[[x fc_asr] warned]|e] eqn:Hp;
      [|discriminate].
    cbn [bind]. unfold run_loop. cbn [List.length seq foldM].
    unfold loop_body at 1. cbn [py_index List.length Z.of_nat Z.ltb Z.leb
      Z.compare andb nth_error Z.to_nat bind].
    destruct (dipole_corrected' x g) as [dm|e]; [|discriminate].
    cbn [bind].
    destruct (match x_dyn_mat_gamma x with
              | Some gm => enforce_reciprocal_asr eigh gm dm
              | None => Ok (dm, [])
              end) as [[dm' w]|e]; [|discriminate].
    cbn [bind]. rewrite (Hna _ _ _ eq_refl). discriminate.
  - intros x fc_asr warned dm Hp Hdm Hasr.
    unfold calculate_fine_phonons. rewrite Hp.
    cbn [bind]. unfold run_loop. cbn [List.length seq foldM].
    unfold loop_body at 1. cbn [py_index List.length Z.of_nat Z.ltb Z.leb
      Z.compare andb nth_error Z.to_nat bind].
    rewrite Hdm. cbn [bind].
    destruct (x_dyn_mat_gamma x) as [gm|].
    + destruct (Hasr gm eq_refl) as [[dm' w] ->]. cbn [bind].
      rewrite (Hna _ _ _ Hp). reflexivity.
    + cbn [bind]. rewrite (Hna _ _ _ Hp). reflexivity.
Qed.

(** What one pass of the inner loop stores, and where. *)
Lemma solve_one_stores n pre weighting dyn_mat q st i na st' :
  solve_one' n pre weighting dyn_mat q st (i, na) = Ok st' ->
  exists evals evecs vs,
    diagonalise eigh zheev
      (corrected_matrix n pre weighting dyn_mat (l_prev_evecs st) na)
    = Ok (evals, evecs) /\
    mode_set lib n evals evecs
    = Ok (signed_frequencies np_sqrt evals, vs) /\
    l_prev_evecs st' = evecs /\
    (i = 0%nat ->
     l_freqs st' = set_nth (l_freqs st) q (signed_frequencies np_sqrt evals) /\
     l_eigenvecs st' = set_nth (l_eigenvecs st) q vs /\
     l_split_i st' = l_split_i st /\
     l_split_freqs st' = l_split_freqs st /\
     l_split_eigenvecs st' = l_split_eigenvecs st) /\
    (i <> 0%nat ->
     l_freqs st' = l_freqs st /\
     l_eigenvecs st' = l_eigenvecs st /\
     l_split_i st' = l_split_i st ++ [q] /\
     l_split_freqs st' =
       l_split_freqs st ++ [signed_frequencies np_sqrt evals] /\
     l_split_eigenvecs st' = l_split_eigenvecs st ++ [vs]).
Proof.
  unfold solve_one. intros H.
  apply bind_ok in H as [[evals evecs] [Hd H]].
  apply bind_ok in H as [[fs vs] [Hm H]].
  assert (Hfs : fs = signed_frequencies np_sqrt evals).
  { unfold mode_set in Hm. apply bind_ok in Hm as [r [_ Hm]].
    now injection Hm as <- _. }
  subst fs. exists evals, evecs, vs.
  split; [exact Hd|]. split; [exact Hm|].
  destruct (Nat.eqb_spec i 0) as [Hi|Hi]; injection H as <-; cbn;
    (split; [reflexivity|]); split; intros Hi'; try congruence;
    repeat split; reflexivity.
Qed.

(** The fallback solver's status never reaches the results. *)
Lemma diagonalise_ignores_info
    (zheev2 : cmatrix -> list Qc * cmatrix * Z) (m : cmatrix) :
  (forall m', fst (zheev m') = fst (zheev2 m')) ->
  diagonalise eigh zheev m = diagonalise eigh zheev2 m.
Proof.
  intros H. unfold diagonalise. specialize (H m).
  destruct (zheev m) as [[e1 v1] i1],
           (zheev2 m) as [[e2 v2] i2].
  cbn in H. injection H as -> ->. reflexivity.
Qed.

(** C9, as the code has it: [np.linalg.eigh] is tried first and its result
    used; when it raises [LinAlgError], and only then, [zheev] is called on
    the same matrix and its eigenvalues and eigenvectors are used whatever
    its [info] says; any other exception ends the run; and nothing that
    [calculate_fine_phonons] returns depends on [info], so no q-point is
    reported as failed. *)
Theorem fallback_solver_unreported
    (zheev2 : cmatrix -> list Qc * cmatrix * Z) :
  (forall m r, eigh m = Ok r -> diagonalise eigh zheev m = Ok r) /\
  (forall m, eigh m = Raise LinAlgError ->
             diagonalise eigh zheev m = Ok (fst (zheev m))) /\
  (forall m e, eigh m = Raise e -> e <> LinAlgError ->
               diagonalise eigh zheev m = Raise e) /\
  ((forall m, fst (zheev m) = fst (zheev2 m)) ->
   forall self new_qpts o,
     calculate_fine_phonons lib self new_qpts o
     = calculate_fine_phonons (with_zheev lib zheev2) self new_qpts o).
Proof.
  repeat split.
  - intros m r H. unfold diagonalise. now rewrite H.
  - intros m H. unfold diagonalise. rewrite H.
    now destruct (zheev m) as [[e v] i].
  - intros m e H He. unfold diagonalise. rewrite H.
    destruct e; congruence.
  - intros H self new_qpts o. unfold calculate_fine_phonons.
    change (prepare (with_zheev lib zheev2) self o) with (prepare' self o).
    destruct (prepare' self o) as [[[x fc_asr] warned]|e]; [|reflexivity].
    cbn [bind]. unfold run_loop.
    rewrite (foldM_ext
               (loop_body' x new_qpts)
               (loop_body (with_zheev lib zheev2) x new_qpts));
      [reflexivity|].
    intros [st w] q. unfold loop_body.
    destruct (py_index new_qpts (Z.of_nat q)) as [qpt|e]; [|reflexivity].
    cbn [bind].
    change (dipole_corrected (with_zheev lib zheev2) x qpt)
      with (dipole_corrected' x qpt).
    destruct (dipole_corrected' x qpt) as [dm|e]; [|reflexivity].
    cbn [bind].
    rewrite ?with_zheev_eigh.
    destruct (match x_dyn_mat_gamma x with
              | Some g => enforce_reciprocal_asr eigh g dm
              | None => Ok (dm, [])
              end) as [[dm' wa]|e]; [|reflexivity].
    cbn [bind].
    destruct (na_corrections x new_qpts q qpt) as [nas|e]; [|reflexivity].
    cbn [bind].
    rewrite (foldM_ext
               (solve_one' (n_ions (x_crystal x)) (x_precondition x)
                           (x_weighting x) dm' q)
               (solve_one (with_zheev lib zheev2) (n_ions (x_crystal x))
                          (x_precondition x) (x_weighting x) dm' q));
      [reflexivity|].
    intros st1 [i na]. unfold solve_one.
    rewrite ?with_zheev_eigh.
    rewrite ?with_zheev_zheev.
    rewrite (diagonalise_ignores_info zheev2 _ H).
    reflexivity.
Qed.

(** The context of the loop without the zone-centre matrix of the
    reciprocal acoustic sum rule. *)
Definition drop_gamma (x : loop_context) : loop_context :=
  mkCtx (x_crystal x) (x_born x) (x_dielectric x) (x_ewald x) (x_images x)
        (x_fc_img_weighted x) (x_weighting x) (x_unique_sc x)
        (x_unique_cell x) None (x_precondition x) (x_dipole x)
        (x_splitting x).

Definition same_state (a b : loop_state * list warning) : Prop :=
  fst a = fst b.

Lemma loop_body_same_state (x x' : loop_context) all_qpts :
  (x' = x \/
   x' = drop_gamma x /\
   exists g e, x_dyn_mat_gamma x = Some g /\
               find_acoustic_modes complex_ops eigh g = Raise e) ->
  forall a a' q, same_state a a' ->
    related same_state (loop_body' x all_qpts a q)
                       (loop_body' x' all_qpts a' q).
Proof.
  intros Hx [st w] [st' w'] q Hs. unfold same_state in Hs. cbn in Hs.
  subst st'. unfold loop_body.
  destruct (py_index all_qpts (Z.of_nat q)) as [qpt|e]; [|reflexivity].
  cbn [bind].
  destruct Hx as [->|[-> (g & e & Hg & Hfail)]].
  - destruct (dipole_corrected' x qpt) as [dm|e]; [|reflexivity].
    cbn [bind].
    destruct (match x_dyn_mat_gamma x with
              | Some g => enforce_reciprocal_asr eigh g dm
              | None => Ok (dm, [])
              end) as [[dm' wa']|e]; [|reflexivity].
    cbn [bind].
    destruct (na_corrections x all_qpts q qpt) as [nas|e]; [|reflexivity].
    cbn [bind].
    destruct (foldM _ _ st) as [st1|e]; reflexivity.
  - rewrite Hg.
    replace (dipole_corrected' (drop_gamma x) qpt)
      with (dipole_corrected' x qpt) by now destruct x.
    replace (na_corrections (drop_gamma x) all_qpts q qpt)
      with (na_corrections x all_qpts q qpt) by now destruct x.
    destruct (dipole_corrected' x qpt) as [dm|e']; [|reflexivity].
    cbn [bind]. rewrite (reciprocal_asr_fallback eigh g dm Hfail).
    cbn [drop_gamma x_dyn_mat_gamma x_crystal x_precondition x_weighting
         bind].
    destruct (na_corrections x all_qpts q qpt) as [nas|e']; [|reflexivity].
    cbn [bind].
    destruct (foldM _ _ st) as [st1|e']; reflexivity.
Qed.

Lemma prepare_realspace_failure (self : interpolation_data)
    (o : options) (w : list warning) :
  opt_asr o = Some realspace -> force_constants_asr self = None ->
  enforce_realspace_asr eigh_real (crys self)
  = Ok (force_constants (crys self), w) ->
  related (fun a b => fst (fst b) = fst (fst a))
          (prepare' self (without_asr o)) (prepare' self o).
Proof.
  intros Ha Hc He. unfold prepare. rewrite Ha, Hc, He.
  cbn [without_asr opt_asr opt_dipole opt_splitting opt_precondition bind
       fst snd].
  repeat bind_step. reflexivity.
Qed.

Lemma prepare_reciprocal (self : interpolation_data)
    (o : options) x fa w0 :
  opt_asr o = Some reciprocal ->
  prepare' self o = Ok (x, fa, w0) ->
  prepare' self (without_asr o) = Ok (drop_gamma x, fa, w0).
Proof.
  intros Ha. unfold prepare. rewrite Ha.
  cbn [without_asr opt_asr opt_dipole opt_splitting opt_precondition bind
       fst snd].
  repeat bind_step. intros E. injection E as <- <- <-. reflexivity.
Qed.

(** Two runs that raise the same exception, or return the same
    frequencies, eigenvectors and split mode sets. *)
Definition same_modes
    (r r' : result (interpolation_data
                    * (list (list Qc) * list (list (list (list C))))
                    * list warning)) : Prop :=
  related (fun a b =>
             snd (fst a) = snd (fst b) /\
             freqs (fst (fst a)) = freqs (fst (fst b)) /\
             eigenvecs (fst (fst a)) = eigenvecs (fst (fst b)) /\
             split_i (fst (fst a)) = split_i (fst (fst b)) /\
             split_freqs (fst (fst a)) = split_freqs (fst (fst b)) /\
             split_eigenvecs (fst (fst a))
             = split_eigenvecs (fst (fst b))) r r'.

Lemma run_same_modes (self : interpolation_data)
    (o : options) (new_qpts : list (list Qc)) :
  (related (fun a b => fst (fst b) = fst (fst a))
           (prepare' self (without_asr o)) (prepare' self o) \/
   exists x fa w0 g e,
     prepare' self o = Ok (x, fa, w0) /\
     prepare' self (without_asr o) = Ok (drop_gamma x, fa, w0) /\
     x_dyn_mat_gamma x = Some g /\
     find_acoustic_modes complex_ops eigh g = Raise e) ->
  same_modes (calculate_fine_phonons' self new_qpts (without_asr o))
             (calculate_fine_phonons' self new_qpts o).
Proof.
  intros H. unfold same_modes, calculate_fine_phonons.
  assert (Hp : exists x1 x2 fa1 fa2 w1 w2,
             (exists e, prepare' self (without_asr o) = Raise e /\
                        prepare' self o = Raise e) \/
             prepare' self (without_asr o) = Ok (x1, fa1, w1) /\
             prepare' self o = Ok (x2, fa2, w2) /\
             (x1 = x2 \/
              x1 = drop_gamma x2 /\
              exists g e, x_dyn_mat_gamma x2 = Some g /\
                          find_acoustic_modes complex_ops eigh g = Raise e)).
  { destruct H as [H|(x & fa & w0 & g & e & H1 & H2 & Hg & Hf)].
    - destruct (prepare' self (without_asr o)) as [[[x1 fa1] w1]|e1],
               (prepare' self o) as [[[x2 fa2] w2]|e2]; cbn in H;
        try contradiction.
      + exists x1, x2, fa1, fa2, w1, w2. right. auto.
      + pose (x0 := mkCtx (crys self) None None None
                          (mkImages [] [] 0) [] [] ([], []) ([], []) None
                          false false false).
        exists x0, x0, None, None, [], []. left. exists e1. subst. auto.
    - exists (drop_gamma x), x, fa, fa, w0, w0. right.
      repeat split; auto. right. split; [reflexivity|]. eauto. }
  destruct Hp as (x1 & x2 & fa1 & fa2 & w1 & w2 & [(e & -> & ->)|Hp]);
    [reflexivity|].
  destruct Hp as (-> & -> & Hx). cbn [bind].
  assert (Hc : x_crystal x1 = x_crystal x2 /\ x_ewald x1 = x_ewald x2 /\
               x_images x1 = x_images x2 /\ x_dipole x1 = x_dipole x2).
  { destruct Hx as [->|[-> _]]; [auto|]. now destruct x2. }
  destruct Hc as (Hc & Hew & Him & Hdi).
  pose proof (foldM_related same_state
                (loop_body' x2 new_qpts) (loop_body' x1 new_qpts)
                (seq 0 (List.length new_qpts))
                (loop_body_same_state new_qpts Hx)
                (initial_state (n_ions (x_crystal x2))
                               (List.length new_qpts), w2)
                (initial_state (n_ions (x_crystal x2))
                               (List.length new_qpts), w1) eq_refl) as Hl.
  unfold run_loop. rewrite Hc.
  destruct (foldM (loop_body' x2 new_qpts) _ _) as [[st2 wa2]|e2],
           (foldM (loop_body' x1 new_qpts) _ _) as [[st1 wa1]|e1];
    cbn in Hl; try contradiction; [|now subst].
  unfold same_state in Hl. cbn in Hl. subst st1. cbn [bind].
  cbn [without_asr opt_set_attrs].
  destruct (opt_set_attrs o); [destruct (Nat.eqb _ 0)|]; cbn;
    repeat split; reflexivity.
Qed.

(** C6: when fewer than three acoustic modes qualify, or when the
    real-space search finds no equivalent cell within [16 * epsilon] for
    some pair of cells, the enforcement routine returns its input matrix
    with one warning; and a run in which the enforcement fails goes on to
    raise or return exactly what the run without acoustic sum rule raises
    or returns. *)
Theorem asr_failure_is_recoverable :
  (forall g dm evals evecs vs,
      eigh g = Ok (evals, evecs) ->
      reshape3 (transpose_of C0 (List.length g) evecs)
               (List.length g) (Nat.div (List.length g) 3) 3 = Ok vs ->
      (qualifying_modes (Nat.div (List.length g) 3)
                        (c_of_m_disp_sq complex_ops vs) < 3)%nat ->
      enforce_reciprocal_asr eigh g dm = Ok (dm, [NoAcousticModesDyn])) /\
  (forall c sq evals evecs vs,
      assemble_sq_fc c = Ok (Some sq) ->
      eigh_real sq = Ok (evals, evecs) ->
      reshape3 (transpose_of 0 (List.length sq) evecs)
               (List.length sq) (Nat.div (List.length sq) 3) 3 = Ok vs ->
      (qualifying_modes (Nat.div (List.length sq) 3)
                        (c_of_m_disp_sq real_ops vs) < 3)%nat ->
      enforce_realspace_asr eigh_real c
      = Ok (force_constants c, [NoAcousticModesFC])) /\
  (forall c inv nc,
      inv3 (transpose 3 (ZtoQc_mat (sc_matrix c))) = Ok inv ->
      (nc < n_cells_in_sc c)%nat ->
      (forall k, (k < nc)%nat ->
                 relative_index_found c (supercell_cell_origins c inv) k) ->
      no_relative_index c (supercell_cell_origins c inv) nc ->
      enforce_realspace_asr eigh_real c
      = Ok (force_constants c, [NoRelativeIndex])) /\
  (forall (self : interpolation_data) o new_qpts w,
      opt_asr o = Some realspace -> force_constants_asr self = None ->
      enforce_realspace_asr eigh_real (crys self)
      = Ok (force_constants (crys self), w) ->
      same_modes (calculate_fine_phonons' self new_qpts (without_asr o))
                 (calculate_fine_phonons' self new_qpts o)) /\
  (forall (self : interpolation_data) o new_qpts x fa w0 g e,
      opt_asr o = Some reciprocal ->
      prepare' self o = Ok (x, fa, w0) ->
      x_dyn_mat_gamma x = Some g ->
      find_acoustic_modes complex_ops eigh g = Raise e ->
      same_modes (calculate_fine_phonons' self new_qpts (without_asr o))
                 (calculate_fine_phonons' self new_qpts o)).
Proof.
  repeat split.
  - intros g dm evals evecs vs He Hr Hq.
    eapply reciprocal_asr_fallback.
    exact (too_few_acoustic_modes complex_ops eigh g He Hr Hq).
  - intros c sq evals evecs vs Ha He Hr Hq.
    eapply realspace_asr_no_modes; [exact Ha|].
    exact (too_few_acoustic_modes real_ops eigh_real sq He Hr Hq).
  - intros c inv nc Hi Hn Hb Hf.
    exact (realspace_asr_no_index eigh_real Hi Hn Hb Hf).
  - intros self o new_qpts w Ha Hc He. apply run_same_modes. left.
    exact (prepare_realspace_failure self o Ha Hc He).
  - intros self o new_qpts x fa w0 g e Ha Hp Hg Hf.
    apply run_same_modes. right. exists x, fa, w0, g, e.
    repeat split; auto. exact (prepare_reciprocal self o Ha Hp).
Qed.

End EngineProperties.

(** The one-ion cubic cell with Born charges and a dielectric tensor. *)
Definition polar_cubic : interpolation_data :=
  fresh_data (cubic_cell [[1; 0; 0]; [0; QcZ 4; 0]; [0; 0; QcZ 9]])
             (Some [eye3]) (Some eye3).

Lemma single_zone_centre_witness :
  (forall r, run diagonal_solver (zheev_with 0) polar_cubic [[0; 0; 0]]
                 default_options <> Ok r) /\
  run diagonal_solver (zheev_with 0) polar_cubic [[0; 0; 0]] default_options
  = Raise IndexError.
Proof.
  destruct (@single_zone_centre_raises_index_error
              (test_library diagonal_solver (zheev_with 0))
              polar_cubic default_options [0; 0; 0] [eye3] eye3
              eq_refl eq_refl eq_refl eq_refl eq_refl) as [Hnever Hraise].
  split; [exact Hnever|].
  destruct (ok_exists
              (p <- prepare (test_library diagonal_solver (zheev_with 0))
                            polar_cubic default_options ;;
               dm <- dipole_corrected
                       (test_library diagonal_solver (zheev_with 0))
                       (fst (fst p)) [0; 0; 0] ;;
               Ok (p, dm))
              (fun _ => true)) as [[[[x fa] w] dm] [H _]];
    [vm_compute; reflexivity|].
  apply bind_ok in H as [[[x' fa'] w'] [Hp H]].
  apply bind_ok in H as [dm' [Hdm H]].
  injection H as -> -> -> ->.
  apply (Hraise x fa w dm Hp Hdm).
  intros gm Hgm.
  apply prepare_context in Hp as (_ & _ & _ & _ & _ & _ & Hnone).
  rewrite (proj2 Hnone) in Hgm; [discriminate|]. discriminate.
Defined.

Definition half : Qc := frac 1 2.

(** C7 fails on the code: at the zone centre that opens the list one
    direction is sampled, and the run records no extra mode set at all. *)
Lemma endpoint_direction_adds_no_split_set :
  gamma_directions [[0; 0; 0]; [half; 0; 0]] 0 = Ok [[half; 0; 0]] /\
  exists r, run diagonal_solver (zheev_with 0) polar_cubic
                [[0; 0; 0]; [half; 0; 0]] default_options = Ok r /\
            split_i (fst (fst r)) = [] /\
            split_freqs (fst (fst r)) = [] /\
            split_eigenvecs (fst (fst r)) = [].
Proof.
  split; [reflexivity|].
  destruct (ok_exists
              (run diagonal_solver (zheev_with 0) polar_cubic
                   [[0; 0; 0]; [half; 0; 0]] default_options)
              (fun r => match split_i (fst (fst r)),
                              split_freqs (fst (fst r)),
                              split_eigenvecs (fst (fst r)) with
                        | [], [], [] => true
                        | _, _, _ => false
                        end)) as [r [Hr Hc]]; [vm_compute; reflexivity|].
  exists r. split; [exact Hr|].
  destruct (split_i (fst (fst r))); [|discriminate].
  destruct (split_freqs (fst (fst r))); [|discriminate].
  destruct (split_eigenvecs (fst (fst r))); [|discriminate].
  auto.
Qed.

Lemma fallback_solver_witness :
  diagonalise failing_solver (zheev_with 1) (cidentity 3)
  = Ok ([1; 1; 1], cidentity 3) /\
  diagonalise diagonal_solver (zheev_with 1) (cidentity 3)
  = Ok ([1; 1; 1], cidentity 3) /\
  run failing_solver (zheev_with 1) polar_cubic
      [[0; 0; 0]; [half; 0; 0]] default_options
  = run failing_solver (zheev_with 0) polar_cubic
      [[0; 0; 0]; [half; 0; 0]] default_options.
Proof.
  destruct (@fallback_solver_unreported
              (test_library failing_solver (zheev_with 1)) (zheev_with 0))
    as (_ & Hfall & _ & Hinfo).
  destruct (@fallback_solver_unreported
              (test_library diagonal_solver (zheev_with 1)) (zheev_with 0))
    as (Hfirst & _).
  split; [exact (Hfall (cidentity 3) eq_refl)|].
  split; [exact (Hfirst (cidentity 3) _ eq_refl)|].
  apply Hinfo. reflexivity.
Defined.

(** C9 fails on the code: with [eigh] raising [LinAlgError] and [zheev]
    reporting failure ([info = 1]) at every q-point, the run returns
    frequencies for both q-points, warns of nothing, and returns exactly
    what it returns when both solvers succeed: no failure is surfaced. *)
Lemma double_failure_goes_unreported :
  run failing_solver (zheev_with 1) polar_cubic
      [[0; 0; 0]; [half; 0; 0]] default_options
  = run diagonal_solver (zheev_with 0) polar_cubic
      [[0; 0; 0]; [half; 0; 0]] default_options /\
  exists r, run failing_solver (zheev_with 1) polar_cubic
                [[0; 0; 0]; [half; 0; 0]] default_options = Ok r /\
            List.length (fst (snd (fst r))) = 2%nat /\ snd r = [].
Proof.
  split.
  - vm_compute. reflexivity.
  - destruct (ok_exists
                (run failing_solver (zheev_with 1) polar_cubic
                     [[0; 0; 0]; [half; 0; 0]] default_options)
                (fun r => Nat.eqb (List.length (fst (snd (fst r)))) 2
                          && match snd r with [] => true | _ => false end))
      as [r [Hr Hc]]; [vm_compute; reflexivity|].
    exists r. split; [exact Hr|].
    apply andb_prop in Hc as [Hn Hw]. apply Nat.eqb_eq in Hn.
    split; [exact Hn|]. destruct (snd r); [reflexivity|discriminate].
Qed.

(** Two ions in a cubic cell, with the force constants of two independent
    oscillators. *)
Definition two_ion_cell : crystal :=
  mkCrystal 2 eye3 [[0; 0; 0]; [half; half; half]] [1; 1] 1
    [[1; 0; 0]; [0; 1; 0]; [0; 0; 1]]%Z [[0; 0; 0]]%Z
    [map (fun i => map (fun j => if Nat.eqb i j then 1 else 0) (seq 0 6))
         (seq 0 6)].

(** Two cell origins filed under a supercell matrix of determinant 3. *)
Definition mismatched_cell : crystal :=
  mkCrystal 1 eye3 [[0; 0; 0]] [1] 2
    [[3; 0; 0]; [0; 1; 0]; [0; 0; 1]]%Z [[0; 0; 0]; [1; 0; 0]]%Z
    [eye3; eye3].

Lemma no_relative_index_computed (c : crystal) (cos : list (list Qc))
    (nc : nat) :
  match relative_index_search (n_cells_in_sc c) cos nc with
  | Ok (dist_min, _) =>
      existsb (fun d => Qcltb relative_index_tolerance d) dist_min
  | Raise _ => false
  end = true ->
  no_relative_index c cos nc.
Proof.
  unfold no_relative_index.
  destruct (relative_index_search _ cos nc) as [[dm idx]|e]; [|discriminate].
  intros H. exists dm, idx. auto.
Qed.

Lemma relative_index_found_computed (c : crystal) (cos : list (list Qc))
    (nc : nat) :
  match relative_index_search (n_cells_in_sc c) cos nc with
  | Ok (dist_min, idx) =>
      negb (existsb (fun d => Qcltb relative_index_tolerance d) dist_min)
      && match mapM (fun r => py_index (force_constants c) (Z.of_nat r))
                    idx with
         | Ok _ => true
         | Raise _ => false
         end
  | Raise _ => false
  end = true ->
  relative_index_found c cos nc.
Proof.
  unfold relative_index_found.
  destruct (relative_index_search _ cos nc) as [[dm idx]|e]; [|discriminate].
  intros H. apply andb_prop in H as [H1 H2].
  destruct (mapM _ idx) as [g|e] eqn:E; [|discriminate].
  exists dm, idx, g. apply negb_true_iff in H1. auto.
Qed.

Definition realspace_options : options :=
  mkOptions (Some realspace) false true true true.
Definition reciprocal_options : options :=
  mkOptions (Some reciprocal) false true true true.

Lemma asr_failure_witness :
  enforce_reciprocal_asr diagonal_solver (cidentity 6) (czeros 6)
  = Ok (czeros 6, [NoAcousticModesDyn]) /\
  enforce_realspace_asr real_diagonal_solver two_ion_cell
  = Ok (force_constants two_ion_cell, [NoAcousticModesFC]) /\
  enforce_realspace_asr real_diagonal_solver mismatched_cell
  = Ok (force_constants mismatched_cell, [NoRelativeIndex]) /\
  same_modes
    (run diagonal_solver (zheev_with 0) (fresh_data two_ion_cell None None)
         [[half; 0; 0]] (without_asr realspace_options))
    (run diagonal_solver (zheev_with 0) (fresh_data two_ion_cell None None)
         [[half; 0; 0]] realspace_options) /\
  same_modes
    (run diagonal_solver (zheev_with 0) (fresh_data two_ion_cell None None)
         [[half; 0; 0]] (without_asr reciprocal_options))
    (run diagonal_solver (zheev_with 0) (fresh_data two_ion_cell None None)
         [[half; 0; 0]] reciprocal_options).
Proof.
  assert (Haux : exists x fa w0 g e,
             prepare (test_library diagonal_solver (zheev_with 0))
                     (fresh_data two_ion_cell None None)
                     reciprocal_options = Ok (x, fa, w0) /\
             x_dyn_mat_gamma x = Some g /\
             find_acoustic_modes complex_ops diagonal_solver g = Raise e).
  { destruct (ok_exists
                (p <- prepare (test_library diagonal_solver (zheev_with 0))
                        (fresh_data two_ion_cell None None)
                        reciprocal_options ;;
                 match x_dyn_mat_gamma (fst (fst p)) with
                 | Some g =>
                     match find_acoustic_modes complex_ops diagonal_solver g
                     with
                     | Raise e => Ok (p, g, e)
                     | Ok _ => Raise ValueError
                     end
                 | None => Raise ValueError
                 end) (fun _ => true))
      as [[[[[x fa] w0] g] e] [H _]]; [vm_compute; reflexivity|].
    apply bind_ok in H as [[[x' fa'] w'] [Hp H]]. cbn [fst] in H.
    destruct (x_dyn_mat_gamma x') as [g'|] eqn:Hg; [|discriminate].
    destruct (find_acoustic_modes complex_ops diagonal_solver g')
      as [r|e'] eqn:Hf; [discriminate|].
    injection H as -> -> -> -> ->.
    exists x, fa, w0, g, e. auto. }
  destruct (@asr_failure_is_recoverable
              (test_library diagonal_solver (zheev_with 0)))
    as (Hrec & Hreal & Hidx & Hrun1 & Hrun2).
  split; [|split; [|split; [|split]]].
  - eapply Hrec; [reflexivity | vm_compute; reflexivity |].
    apply Nat.ltb_lt. vm_compute. reflexivity.
  - eapply Hreal;
      [vm_compute; reflexivity | reflexivity | vm_compute; reflexivity |].
    apply Nat.ltb_lt. vm_compute. reflexivity.
  - eapply (Hidx mismatched_cell _ 1%nat);
      [vm_compute; reflexivity | simpl; lia | |].
    + intros k Hk. assert (k = 0%nat) as -> by lia.
      apply relative_index_found_computed. vm_compute. reflexivity.
    + apply no_relative_index_computed. vm_compute. reflexivity.
  - eapply (Hrun1 _ realspace_options); [reflexivity | reflexivity |].
    vm_compute. reflexivity.
  - destruct Haux as (x & fa & w0 & g & e & Hp & Hg & Hf).
    exact (Hrun2 _ reciprocal_options _ x fa w0 g e eq_refl Hp Hg Hf).
Defined.

(** * Further properties *)

(** ** The Ewald sum by its parts *)

(** Line 803: the q-point less its nearest lattice point. *)
Definition q_normalised (qpt : list Qc) : list Qc :=
  map (fun x => x - np_rint x) qpt.

(** One cell's term of the real-space sum (lines 820-821). *)
Definition real_term (h : list (list Qc)) (ph : C) : list (list C) :=
  map (map (fun x => Cscale x ph)) h.

(** One reciprocal-lattice vector's term of the sum at the zone centre
    (lines 734-736) and at a q-point (lines 844-850), for the ions [i] and
    [j]. *)
Definition recip_term_q0 (i j : nat) (t : list Qc * list C * Qc)
  : list (list C) :=
  let '(g, ph, recip_exp) := t in
  let phase_exp := Cdiv (nth i ph C0) (nth j ph C0) in
  map (map (fun x => Cscale (x * recip_exp) phase_exp)) (outer g g).

Definition recip_term (q_phases : list C) (i j : nat)
    (t : list Qc * list C * Qc) : list (list C) :=
  let '(k, ph, weight) := t in
  let phase_exp :=
    Cdiv (Cmul (nth i ph C0) (nth i q_phases C0))
         (Cmul (nth j ph C0) (nth j q_phases C0)) in
  map (map (fun x => Cscale x phase_exp)) (scale33 weight (outer k k)).

(** Lines 742-751: the correction at the zone centre, which is subtracted
    from the diagonal blocks at every q-point. *)
Definition dipole_q0_of (n : nat) (born : list (list (list Qc)))
    (recip_q0 : list (list (list (list C))))
    (real_q0 : list (list (list (list Qc)))) : list (list (list C)) :=
  map (fun i =>
         let acc :=
           map (fun bia =>
                  fold_left
                    (fun row j =>
                       map2 Cadd row
                         (born_contract bia (nth j born [])
                            (mmap2 (fun x y => Csub x (Cre y))
                                   (nth j (nth i recip_q0 []) [])
                                   (nth j (nth i real_q0 []) []))))
                    (seq 0 n) (repeat C0 3))
               (nth i born []) in
         mmap2 (fun x y => Cscale (Q2Qc (1 # 2)) (Cadd x y))
               acc (transpose_of C0 3 acc))
      (seq 0 n).

(** Lines 860-868: the blocks of the correction, one for every pair of
    ions. *)
Definition dipole_blocks (n : nat) (born : list (list (list Qc)))
    (recip_dipole real_dipole : list (list (list (list C))))
    (dipole_q0 : list (list (list C))) : list (list (list (list C))) :=
  map (fun i => map (fun j =>
         let dipole_tmp := mmap2 Csub (nth j (nth i recip_dipole []) [])
                                      (nth j (nth i real_dipole []) []) in
         let block := map (fun bia => born_contract bia (nth j born [])
                                                    dipole_tmp)
                          (nth i born []) in
         if Nat.eqb i j then mmap2 Csub block (nth i dipole_q0 [])
         else block)
       (seq 0 n)) (seq 0 n).

(** Lines 870-871: [np.reshape(np.transpose(dipole, axes=[0, 2, 1, 3]),
    (3*n_ions, 3*n_ions))]. *)
Definition block_matrix (dipole : list (list (list (list C)))) : cmatrix :=
  flat_map (fun row_of_blocks =>
              map (fun a => flat_map (fun block => nth a block [])
                                     row_of_blocks) (seq 0 3))
           dipole.

(** [_calculate_dipole_correction], read by these parts. *)
Lemma calculate_dipole_correction_blocks (np_exp_j : Qc -> C)
    (np_sqrt np_exp : Qc -> Qc)
    (reciprocal_lattice : list (list Qc) -> list (list Qc)) (c : crystal)
    (born : list (list (list Qc))) (dielectric : list (list Qc))
    (e : ewald) (qpt : list Qc) :
  calculate_dipole_correction np_exp_j np_sqrt np_exp reciprocal_lattice
                              c born dielectric e qpt
  = (inv_dielectric <- inv3 dielectric ;;
     sqrt_det <- math_sqrt np_sqrt (det3 dielectric) ;;
     let eta := w_eta e in
     let q_norm := q_normalised qpt in
     let real_phases :=
       map (fun o => np_exp_j (QcZ 2 * math_pi * dot q_norm (ZtoQc_vec o)))
           (all_cells (w_max_cells_abc e)) in
     let q_phases :=
       map (fun r => np_exp_j (QcZ 2 * math_pi * dot q_norm r)) (ion_r c) in
     let kvecs :=
       map (fun g => vadd g (vecmat 3 q_norm
                                    (reciprocal_lattice (cell_vec c))))
           (w_gvecs_cart e) in
     let terms := recip_terms np_sqrt np_exp (eta * eta) (w_recip_cutoff e)
                              dielectric kvecs (w_gvec_phases e) in
     Ok (block_matrix
           (dipole_blocks (n_ions c) born
              (fill_by_symmetry (n_ions c) (fun i j =>
                 cscale33 (math_pi / (cell_volume (cell_vec c) * (eta * eta)))
                          (csum33 (map (recip_term q_phases i j) terms))))
              (fill_by_symmetry (n_ions c) (fun i j =>
                 cscale33 (eta * eta * eta / sqrt_det)
                   (csum33 (map2 real_term
                              (nth j (nth i (w_H_ab e) []) [])
                              (take_at C0 real_phases
                                 (nth j (nth i (w_cells_in_range e) []) []))))))
              (w_dipole_q0 e)))).
Proof. reflexivity. Qed.

Lemma Ok_inj {A : Type} (a b : A) : Ok a = Ok b -> a = b.
Proof. intros H. now injection H. Qed.

(** What [_dipole_correction_init] caches for the reciprocal-space sum. *)
Lemma dipole_correction_init_cache (np_exp_j : Qc -> C)
    (np_sqrt np_exp erfc : Qc -> Qc) (np_power : Qc -> Qc -> Qc)
    (reciprocal_lattice : list (list Qc) -> list (list Qc)) (c : crystal)
    (born : list (list (list Qc))) (dielectric : list (list Qc))
    (e : ewald) :
  dipole_correction_init np_exp_j np_sqrt np_exp erfc np_power
                         reciprocal_lattice c born dielectric = Ok e ->
  exists (scale : Qc) (real_q0 : list (list (list (list Qc)))),
    w_gvecs_cart e
    = matmul 3 (ZtoQc_mat (all_cells (w_max_cells_hkl e)))
             (reciprocal_lattice (cell_vec c)) /\
    w_gvec_phases e
    = map (fun g => map (fun r =>
             np_exp_j (QcZ 2 * math_pi * dot (ZtoQc_vec g) r)) (ion_r c))
          (all_cells (w_max_cells_hkl e)) /\
    w_dipole_q0 e
    = dipole_q0_of (n_ions c) born
        (map (fun i => map (fun j =>
                cscale33 scale
                  (csum33 (map (recip_term_q0 i j)
                               (recip_terms np_sqrt np_exp
                                  (w_eta e * w_eta e) (w_recip_cutoff e)
                                  dielectric (w_gvecs_cart e)
                                  (w_gvec_phases e)))))
              (seq 0 (n_ions c))) (seq 0 (n_ions c)))
        real_q0.
Proof.
  unfold dipole_correction_init.
  destruct (inv3 dielectric) as [inv|]; [|discriminate]. cbn [bind].
  destruct (math_sqrt _ _) as [sqrt_det|]; [|discriminate]. cbn [bind].
  cbv zeta.
  destruct (np_max _) as [m|]; [|discriminate]. cbn [bind].
  intros H. apply Ok_inj in H. subst e.
  cbn [w_gvecs_cart w_gvec_phases w_dipole_q0 w_max_cells_hkl w_eta
       w_recip_cutoff].
  do 2 eexists. repeat split; reflexivity.
Qed.
(** ** Time reversal: the dipole correction *)

Lemma Qfloor_unique (y : Q) (n : Z) :
  (inject_Z n <= y)%Q -> (y < inject_Z (n + 1))%Q -> Qfloor y = n.
Proof.
  intros H1 H2.
  assert (A : (Qfloor y < n + 1)%Z).
  { rewrite Zlt_Qlt. eapply Qle_lt_trans; [apply Qfloor_le|exact H2]. }
  assert (B : (n < Qfloor y + 1)%Z).
  { rewrite Zlt_Qlt. eapply Qle_lt_trans; [exact H1|apply Qlt_floor]. }
  lia.
Qed.

Lemma QcZ_opp (z : Z) : QcZ (- z) = - QcZ z.
Proof.
  apply Qc_is_canon. unfold QcZ, Qcopp, Q2Qc. cbn [this].
  rewrite !Qred_correct. rewrite inject_Z_opp. reflexivity.
Qed.

Lemma QcZ_add (a b : Z) : QcZ (a + b) = QcZ a + QcZ b.
Proof.
  apply Qc_is_canon. unfold QcZ, Qcplus, Q2Qc. cbn [this].
  rewrite !Qred_correct. rewrite inject_Z_plus. reflexivity.
Qed.

Lemma QcZ_floor_bounds (x : Qc) :
  QcZ (Qfloor x) <= x /\ x < QcZ (Qfloor x) + 1.
Proof.
  change 1 with (QcZ 1). rewrite <- QcZ_add.
  unfold Qcle, Qclt, QcZ, Q2Qc. cbn [this]. rewrite !Qred_correct.
  split; [apply Qfloor_le|apply Qlt_floor].
Qed.

Lemma Qfloor_QcZ (x : Qc) (n : Z) :
  QcZ n <= x -> x < QcZ n + 1 -> Qfloor x = n.
Proof.
  change 1 with (QcZ 1). rewrite <- QcZ_add.
  unfold Qcle, Qclt, QcZ, Q2Qc. cbn [this]. rewrite !Qred_correct.
  apply Qfloor_unique.
Qed.

(** Inequalities between canonical fractions, read on the fractions. *)
Ltac qc_to_q :=
  unfold Qclt, Qcle, Qcminus, Qcplus, Qcopp, Qcmult, QcZ, Q2Qc in *;
  cbn [this] in *; rewrite ?Qred_correct in *.

Lemma Qcltb_half_cases (d : Qc) :
  (Qcltb d (Q2Qc (1 # 2)) = true /\ d < Q2Qc (1 # 2)) \/
  (Qcltb d (Q2Qc (1 # 2)) = false /\ Qcltb (Q2Qc (1 # 2)) d = true /\
   Q2Qc (1 # 2) < d) \/
  (Qcltb d (Q2Qc (1 # 2)) = false /\ Qcltb (Q2Qc (1 # 2)) d = false /\
   d = Q2Qc (1 # 2)).
Proof.
  destruct (Qcltb d (Q2Qc (1 # 2))) eqn:E1.
  - left. split; [reflexivity|]. now apply Qcltb_lt.
  - right. destruct (Qcltb (Q2Qc (1 # 2)) d) eqn:E2.
    + left. repeat split. now apply Qcltb_lt.
    + right. repeat split. apply Qcltb_ge in E1, E2.
      now apply Qcle_antisym.
Qed.

(** [np.rint] rounds halves to the even neighbour, on both sides of
    zero. *)
Lemma np_rint_opp (x : Qc) : np_rint (- x) = - np_rint x.
Proof.
  destruct (QcZ_floor_bounds x) as [Hlo Hhi].
  destruct (Qc_eq_dec x (QcZ (Qfloor x))) as [Hx|Hx].
  - assert (Hf : Qfloor (Qcopp x) = (- Qfloor x)%Z).
    { apply Qfloor_QcZ; rewrite QcZ_opp, <- Hx.
      - apply Qcle_refl.
      - clear. qc_to_q. lra. }
    unfold np_rint. rewrite Hf.
    replace (- x - QcZ (- Qfloor x)) with 0 by (rewrite QcZ_opp, <- Hx; ring).
    replace (x - QcZ (Qfloor x)) with 0 by (rewrite <- Hx; ring).
    change (Qcltb 0 (Q2Qc (1 # 2))) with true. cbv iota.
    apply QcZ_opp.
  - assert (Hlt : QcZ (Qfloor x) < x).
    { destruct (Qcle_lt_or_eq _ _ Hlo) as [H|H]; [exact H|].
      exfalso. apply Hx. now symmetry. }
    assert (Hf : Qfloor (Qcopp x) = (- Qfloor x - 1)%Z).
    { apply Qfloor_QcZ.
      - unfold Z.sub. rewrite QcZ_add, !QcZ_opp.
        change (QcZ 1) with 1. clear - Hhi. qc_to_q. lra.
      - unfold Z.sub. rewrite QcZ_add, !QcZ_opp.
        change (QcZ 1) with 1. clear - Hlt. qc_to_q. lra. }
    unfold np_rint. rewrite Hf.
    set (f := Qfloor x) in *.
    assert (Hd : - x - QcZ (- f - 1) = 1 - (x - QcZ f)).
    { unfold Z.sub. rewrite QcZ_add, !QcZ_opp. change (QcZ 1) with 1. ring. }
    rewrite Hd.
    assert (Hd0 : 0 < x - QcZ f) by (clear - Hlt; qc_to_q; lra).
    assert (Hd1 : x - QcZ f < 1) by (clear - Hhi; qc_to_q; lra).
    generalize dependent (x - QcZ f). intros d _ Hd0 Hd1.
    assert (Ev : Z.even (- f - 1) = negb (Z.even f)).
    { replace (- f - 1)%Z with (- (f + 1))%Z by lia.
      rewrite Z.even_opp, Z.even_add. now destruct (Z.even f). }
    assert (Hz : (- f - 1 + 1 = - f)%Z) by lia.
    assert (Hn : QcZ (- f - 1) = - QcZ (f + 1)).
    { rewrite <- QcZ_opp. f_equal. lia. }
    assert (Heq : forall a b : Qc, a = b -> a <= b /\ b <= a).
    { intros a b ->. split; apply Qcle_refl. }
    destruct (Qcltb_half_cases d) as [[E1 H1]|[[E1 [E2 H1]]|[E1 [E2 H1]]]];
      destruct (Qcltb_half_cases (1 - d))
        as [[F1 G1]|[[F1 [F2 G1]]|[F1 [F2 G1]]]];
      rewrite E1, ?E2, F1, ?F2; cbv iota;
      try (exfalso; try apply Heq in H1 as [H1 H1'];
           try apply Heq in G1 as [G1 G1'];
           clear - H1 G1 H1' G1' || clear - H1 G1 H1' || clear - H1 G1 G1'
           || clear - H1 G1;
           qc_to_q; cbn in *; lra).
    + rewrite Hz. apply QcZ_opp.
    + exact Hn.
    + rewrite Ev, Hz. destruct (Z.even f); cbn [negb]; [apply QcZ_opp|exact Hn].
Qed.

(** Opposite vectors. *)
Lemma sumQc_opp (l : list Qc) : sumQc (map Qcopp l) = - sumQc l.
Proof.
  unfold sumQc. induction l as [|x r IH]; cbn [map fold_right]; [ring|].
  rewrite IH. ring.
Qed.

Lemma dot_negate_l (u v : list Qc) : dot (negate u) v = - dot u v.
Proof.
  unfold dot, negate. rewrite <- sumQc_opp.
  rewrite <- (map_id v) at 1. rewrite combine_map, !map_map.
  f_equal. apply map_ext. intros [a b]. cbn [fst snd]. ring.
Qed.

Lemma dot_negate_r (u v : list Qc) : dot u (negate v) = - dot u v.
Proof.
  unfold dot, negate. rewrite <- sumQc_opp.
  rewrite <- (map_id u) at 1. rewrite combine_map, !map_map.
  f_equal. apply map_ext. intros [a b]. cbn [fst snd]. ring.
Qed.

Lemma vadd_negate (u v : list Qc) :
  vadd (negate u) (negate v) = negate (vadd u v).
Proof.
  unfold vadd, negate. rewrite combine_map, !map_map.
  apply map_ext. intros [a b]. cbn [fst snd]. ring.
Qed.

Lemma negate_negate (u : list Qc) : negate (negate u) = u.
Proof.
  unfold negate. rewrite map_map. rewrite <- (map_id u) at 2.
  apply map_ext. intros x. ring.
Qed.

Lemma vecmat_negate (cols : nat) (v : list Qc) (m : list (list Qc)) :
  vecmat cols (negate v) m = negate (vecmat cols v m).
Proof.
  unfold vecmat, negate at 2. rewrite map_map. apply map_ext. intros j.
  apply dot_negate_l.
Qed.

Lemma ZtoQc_vec_opp (g : list Z) :
  ZtoQc_vec (map Z.opp g) = negate (ZtoQc_vec g).
Proof.
  unfold ZtoQc_vec, negate. rewrite !map_map. apply map_ext. apply QcZ_opp.
Qed.

Lemma outer_negate (u v : list Qc) :
  outer (negate u) (negate v) = outer u v.
Proof.
  unfold outer, negate. rewrite map_map. apply map_ext. intros x.
  rewrite map_map. apply map_ext. intros y. ring.
Qed.

Lemma q_norm_negate (qpt : list Qc) :
  map (fun x => x - np_rint x) (negate qpt)
  = negate (map (fun x => x - np_rint x) qpt).
Proof.
  unfold negate. rewrite !map_map. apply map_ext. intros x.
  rewrite np_rint_opp. ring.
Qed.

(** The lattice vectors of [all_cells], in any basis, come in opposite
    pairs, the last the opposite of the first. *)
Lemma lattice_vectors_opposite (m : list Z) (basis : list (list Qc)) :
  rev (matmul 3 (ZtoQc_mat (all_cells m)) basis)
  = map negate (matmul 3 (ZtoQc_mat (all_cells m)) basis).
Proof.
  unfold matmul, ZtoQc_mat. rewrite <- !map_rev, all_cells_opposite, !map_map.
  apply map_ext. intros g. rewrite <- vecmat_negate. f_equal.
  apply ZtoQc_vec_opp.
Qed.

(** Sums of complex numbers do not depend on the order of the terms. *)
Lemma Cadd_comm (a b : C) : Cadd a b = Cadd b a.
Proof. apply C_eq; simpl; ring. Qed.

Lemma Cadd_assoc (a b c : C) : Cadd a (Cadd b c) = Cadd (Cadd a b) c.
Proof. apply C_eq; simpl; ring. Qed.

Lemma Cadd_0_r (a : C) : Cadd a C0 = a.
Proof. apply C_eq; simpl; ring. Qed.

Lemma Cadd_0_l (a : C) : Cadd C0 a = a.
Proof. apply C_eq; simpl; ring. Qed.

Lemma sumC_app (u v : list C) : sumC (u ++ v) = Cadd (sumC u) (sumC v).
Proof.
  unfold sumC. induction u as [|x u IH]; cbn [app fold_right].
  - now rewrite Cadd_0_l.
  - now rewrite IH, Cadd_assoc.
Qed.

Lemma sumC_rev (l : list C) : sumC (rev l) = sumC l.
Proof.
  induction l as [|x l IH]; [reflexivity|].
  cbn [rev]. rewrite sumC_app, IH. unfold sumC. cbn [fold_right].
  now rewrite Cadd_0_r, Cadd_comm.
Qed.

Lemma cat2_conj (t : cmatrix) (a b : nat) :
  cat2 (cmconj t) a b = Cconj (cat2 t a b).
Proof.
  unfold cat2, cmconj.
  change (@nil C) with (map Cconj []) at 1. rewrite map_nth.
  apply nth_conj.
Qed.

Lemma csum33_rev (l : list (list (list C))) : csum33 (rev l) = csum33 l.
Proof.
  unfold csum33. apply map_ext. intros a. apply map_ext. intros b.
  now rewrite map_rev, sumC_rev.
Qed.

Lemma csum33_conj (l : list (list (list C))) :
  csum33 (map cmconj l) = cmconj (csum33 l).
Proof.
  unfold csum33, cmconj at 2. rewrite map_map. apply map_ext. intros a.
  rewrite map_map. apply map_ext. intros b.
  rewrite Cconj_sum, !map_map. f_equal. apply map_ext. intros t.
  apply cat2_conj.
Qed.

Lemma cscale33_conj (x : Qc) (m : list (list C)) :
  cscale33 x (cmconj m) = cmconj (cscale33 x m).
Proof.
  unfold cscale33, cmconj. rewrite !map_map. apply map_ext. intros r.
  rewrite !map_map. apply map_ext. intros z. symmetry. apply Cconj_scale.
Qed.

Lemma filter_map_commute {A B : Type} (p : B -> bool) (g : A -> B)
    (l : list A) :
  filter p (map g l) = map g (filter (fun a => p (g a)) l).
Proof.
  induction l as [|x l IH]; [reflexivity|].
  cbn [map filter]. destruct (p (g x)); cbn [map]; now rewrite IH.
Qed.

Lemma map2_rev {A B D : Type} (f : A -> B -> D) (u : list A) (v : list B) :
  List.length u = List.length v ->
  map2 f (rev u) (rev v) = rev (map2 f u v).
Proof.
  intros H. unfold map2. now rewrite <- rev_combine, map_rev.
Qed.

(** A reciprocal-lattice term seen from the opposite q-point. *)
Definition reverse_term (t : list Qc * list C * Qc) : list Qc * list C * Qc :=
  let '(k, ph, w) := t in (negate k, map Cconj ph, w).

Lemma recip_terms_reverse (np_sqrt np_exp : Qc -> Qc) (eta_2 cutoff : Qc)
    (dielectric kvecs : list (list Qc)) (phases : list (list C)) :
  List.length kvecs = List.length phases ->
  recip_terms np_sqrt np_exp eta_2 cutoff dielectric
              (map negate (rev kvecs)) (map (map Cconj) (rev phases))
  = map reverse_term
        (rev (recip_terms np_sqrt np_exp eta_2 cutoff dielectric
                          kvecs phases)).
Proof.
  intros Hlen. unfold recip_terms.
  rewrite map2_map, <- map_rev, <- filter_rev, <- map2_rev by exact Hlen.
  set (F := fun (k : list Qc) (ph : list C) =>
              (k, ph, dot k (map (fun row => dot row k) dielectric)
                      / (QcZ 4 * eta_2))).
  assert (HF : forall u v,
             map2 (fun a b => F (negate a) (map Cconj b)) u v
             = map (fun p : list Qc * list C * Qc =>
                      let '(k, ph, l) := p in (negate k, map Cconj ph, l))
                   (map2 F u v)).
  { intros u v. rewrite map_map2. apply map2_ext. intros a b. unfold F.
    f_equal. f_equal. rewrite dot_negate_l.
    rewrite (map_ext (fun row => dot row (negate a))
                     (fun row => - dot row a))
      by (intros row; apply dot_negate_r).
    rewrite <- (map_map (fun row => dot row a) Qcopp).
    fold (negate (map (fun row => dot row a) dielectric)).
    rewrite dot_negate_r. ring. }
  change (map2 (fun (k : list Qc) (ph : list C) =>
                  (negate k, map Cconj ph,
                   dot (negate k)
                       (map (fun row => dot row (negate k)) dielectric)
                   / (QcZ 4 * eta_2))) (rev kvecs) (rev phases))
    with (map2 (fun a b => F (negate a) (map Cconj b)) (rev kvecs)
               (rev phases)).
  rewrite HF, filter_map_commute, !map_map.
  rewrite (filter_ext
             (fun a : list Qc * list C * Qc =>
                in_range cutoff
                  (np_sqrt (snd (let '(k, ph, l) := a in
                                 (negate k, map Cconj ph, l)))))
             (fun p => in_range cutoff (np_sqrt (snd p))))
    by (intros [[k ph] l]; reflexivity).
  apply map_ext. intros [[k ph] l]. reflexivity.
Qed.

Lemma real_entries_conj (m : list (list Qc)) (f : Qc -> C) (g : Qc -> C) :
  (forall x, g x = Cconj (f x)) ->
  map (map g) m = cmconj (map (map f) m).
Proof.
  intros H. unfold cmconj. rewrite map_map. apply map_ext. intros r.
  rewrite map_map. apply map_ext. intros x. apply H.
Qed.

Lemma recip_term_reverse (q_phases : list C) (i j : nat)
    (t : list Qc * list C * Qc) :
  recip_term (map Cconj q_phases) i j (reverse_term t)
  = cmconj (recip_term q_phases i j t).
Proof.
  destruct t as [[k ph] w]. unfold recip_term, reverse_term.
  rewrite outer_negate. apply real_entries_conj. intros x.
  rewrite Cconj_scale, Cconj_div, !Cconj_mul, !nth_conj. reflexivity.
Qed.

Lemma recip_term_q0_reverse (i j : nat) (t : list Qc * list C * Qc) :
  recip_term_q0 i j (reverse_term t) = cmconj (recip_term_q0 i j t).
Proof.
  destruct t as [[k ph] w]. unfold recip_term_q0, reverse_term.
  rewrite outer_negate. apply real_entries_conj. intros x.
  rewrite Cconj_scale, Cconj_div, !nth_conj. reflexivity.
Qed.

Lemma real_term_conj (h : list (list Qc)) (ph : C) :
  real_term h (Cconj ph) = cmconj (real_term h ph).
Proof.
  unfold real_term, cmconj. rewrite map_map. apply map_ext. intros r.
  rewrite map_map. apply map_ext. intros x. symmetry. apply Cconj_scale.
Qed.

Lemma take_at_conj (l : list C) (idx : list Z) :
  take_at C0 (map Cconj l) idx = map Cconj (take_at C0 l idx).
Proof.
  unfold take_at. rewrite map_map. apply map_ext. intros k. apply nth_conj.
Qed.

(** The sum over the reciprocal-lattice vectors, seen from the opposite
    q-point, is the conjugate sum. *)
Lemma recip_sum_reverse (q_phases : list C) (i j : nat)
    (terms : list (list Qc * list C * Qc)) :
  csum33 (map (recip_term (map Cconj q_phases) i j)
              (map reverse_term (rev terms)))
  = cmconj (csum33 (map (recip_term q_phases i j) terms)).
Proof.
  rewrite map_map.
  rewrite (map_ext _ (fun t => cmconj (recip_term q_phases i j t)))
    by (intros t; apply recip_term_reverse).
  rewrite <- (map_map (recip_term q_phases i j) cmconj), csum33_conj.
  now rewrite map_rev, csum33_rev.
Qed.

Lemma recip_sum_q0_reverse (i j : nat)
    (terms : list (list Qc * list C * Qc)) :
  csum33 (map (recip_term_q0 i j) (map reverse_term (rev terms)))
  = cmconj (csum33 (map (recip_term_q0 i j) terms)).
Proof.
  rewrite map_map.
  rewrite (map_ext _ (fun t => cmconj (recip_term_q0 i j t)))
    by (intros t; apply recip_term_q0_reverse).
  rewrite <- (map_map (recip_term_q0 i j) cmconj), csum33_conj.
  now rewrite map_rev, csum33_rev.
Qed.

(** Conjugation through the blocks of the correction. *)
Lemma mmap2_conj (f g : C -> C -> C) (a b : cmatrix) :
  (forall x y, g (Cconj x) (Cconj y) = Cconj (f x y)) ->
  mmap2 g (cmconj a) (cmconj b) = cmconj (mmap2 f a b).
Proof.
  intros H. unfold cmconj, mmap2. rewrite map_map2, map2_map.
  apply map2_ext. intros u v. rewrite map_map2, map2_map.
  apply map2_ext. intros x y. apply H.
Qed.

Lemma mmap2_conj_real (f g : C -> Qc -> C) (a : cmatrix)
    (b : list (list Qc)) :
  (forall x y, g (Cconj x) y = Cconj (f x y)) ->
  mmap2 g (cmconj a) b = cmconj (mmap2 f a b).
Proof.
  intros H. unfold cmconj, mmap2. rewrite map_map2, map2_map_l.
  apply map2_ext. intros u v. rewrite map_map2, map2_map_l.
  apply map2_ext. intros x y. apply H.
Qed.

Lemma born_contract_conj (bia : list Qc) (bj : list (list Qc))
    (t : list (list C)) :
  born_contract bia bj (cmconj t) = map Cconj (born_contract bia bj t).
Proof.
  unfold born_contract. rewrite map_map. apply map_ext. intros bjb.
  rewrite Cconj_sum, map_map. f_equal. apply map_ext. intros c.
  rewrite Cconj_sum, map_map. f_equal. apply map_ext. intros d.
  now rewrite Cconj_scale, cat2_conj.
Qed.

Lemma nth_row_conj (m : cmatrix) (a : nat) :
  nth a (cmconj m) [] = map Cconj (nth a m []).
Proof.
  unfold cmconj. change (@nil C) with (map Cconj []) at 1. apply map_nth.
Qed.

Lemma nth_matrix_conj (l : list cmatrix) (i : nat) :
  nth i (map cmconj l) [] = cmconj (nth i l []).
Proof.
  change (@nil (list C)) with (cmconj []) at 1. apply map_nth.
Qed.

Lemma nth_block_conj (m : list (list cmatrix)) (i j : nat) :
  nth j (nth i (map (map cmconj) m) []) [] = cmconj (nth j (nth i m []) []).
Proof.
  change (@nil cmatrix) with (map cmconj []) at 1. rewrite map_nth.
  apply nth_matrix_conj.
Qed.

Lemma dipole_blocks_conj (n : nat) (born : list (list (list Qc)))
    (recip real : list (list cmatrix)) (q0 : list cmatrix) :
  dipole_blocks n born (map (map cmconj) recip) (map (map cmconj) real)
                (map cmconj q0)
  = map (map cmconj) (dipole_blocks n born recip real q0).
Proof.
  unfold dipole_blocks. rewrite map_map. apply map_ext. intros i.
  rewrite map_map. apply map_ext. intros j. cbv zeta.
  rewrite !nth_block_conj, nth_matrix_conj.
  rewrite (mmap2_conj Csub Csub) by (intros; symmetry; apply Cconj_sub).
  set (tmp := mmap2 Csub (nth j (nth i recip []) [])
                         (nth j (nth i real []) [])).
  assert (Hb : map (fun bia => born_contract bia (nth j born []) (cmconj tmp))
                   (nth i born [])
               = cmconj (map (fun bia => born_contract bia (nth j born []) tmp)
                             (nth i born []))).
  { unfold cmconj at 2. rewrite map_map. apply map_ext. intros bia.
    apply born_contract_conj. }
  rewrite Hb. destruct (Nat.eqb i j); [|reflexivity].
  apply mmap2_conj. intros; symmetry; apply Cconj_sub.
Qed.

Lemma flat_map_map {A B B' : Type} (F : A -> list B) (F' : A -> list B')
    (g : A -> A) (h : B -> B') (l : list A) :
  (forall x, F' (g x) = map h (F x)) ->
  flat_map F' (map g l) = map h (flat_map F l).
Proof.
  intros H. induction l as [|x l IH]; [reflexivity|].
  cbn [map flat_map]. now rewrite map_app, H, IH.
Qed.

Lemma block_matrix_conj (d : list (list cmatrix)) :
  block_matrix (map (map cmconj) d) = cmconj (block_matrix d).
Proof.
  unfold block_matrix, cmconj at 2. apply flat_map_map. intros row.
  rewrite map_map. apply map_ext. intros a.
  apply flat_map_map. intros block. apply nth_row_conj.
Qed.

Lemma fill_by_symmetry_conj (n : nat) (upper : nat -> nat -> cmatrix) :
  fill_by_symmetry n (fun i j => cmconj (upper i j))
  = map (map cmconj) (fill_by_symmetry n upper).
Proof.
  unfold fill_by_symmetry. rewrite map_map. apply map_ext. intros i.
  rewrite map_map. apply map_ext. intros j. now destruct (Nat.leb i j).
Qed.

Lemma fill_by_symmetry_ext (n : nat) (u v : nat -> nat -> cmatrix) :
  (forall i j, u i j = v i j) -> fill_by_symmetry n u = fill_by_symmetry n v.
Proof.
  intros H. unfold fill_by_symmetry. apply map_ext. intros i.
  apply map_ext. intros j. now rewrite !H.
Qed.

Lemma fold_rows_conj (G G' : nat -> list C) (l : list nat) (r0 : list C) :
  (forall j, G' j = map Cconj (G j)) ->
  fold_left (fun row j => map2 Cadd row (G' j)) l (map Cconj r0)
  = map Cconj (fold_left (fun row j => map2 Cadd row (G j)) l r0).
Proof.
  intros H. revert r0. induction l as [|j l IH]; intros r0; [reflexivity|].
  cbn [fold_left]. rewrite <- IH. f_equal.
  rewrite H, map2_map, map_map2. apply map2_ext. intros x y.
  symmetry. apply Cconj_add.
Qed.

Lemma dipole_q0_of_conj (n : nat) (born : list (list (list Qc)))
    (recip_q0 : list (list cmatrix))
    (real_q0 : list (list (list (list Qc)))) :
  dipole_q0_of n born (map (map cmconj) recip_q0) real_q0
  = map cmconj (dipole_q0_of n born recip_q0 real_q0).
Proof.
  unfold dipole_q0_of. rewrite map_map. apply map_ext. intros i. cbv zeta.
  set (acc := map _ (nth i born [])).
  set (acc' := map _ (nth i born [])).
  assert (Ha : acc = cmconj acc').
  { unfold acc, acc', cmconj. rewrite map_map. apply map_ext. intros bia.
    replace (repeat C0 3) with (map Cconj (repeat C0 3)) at 1
      by (rewrite map_repeat; now rewrite Cconj_0).
    apply fold_rows_conj. intros j.
    rewrite nth_block_conj.
    rewrite (mmap2_conj_real (fun x y => Csub x (Cre y))
                             (fun x y => Csub x (Cre y)))
      by (intros x y; now rewrite Cconj_sub, Cconj_re).
    apply born_contract_conj. }
  rewrite Ha.
  replace (transpose_of C0 3 (cmconj acc'))
    with (cmconj (transpose_of C0 3 acc'))
    by (unfold cmconj; rewrite <- Cconj_0 at 2; symmetry;
        apply transpose_of_map).
  apply mmap2_conj. intros x y. now rewrite Cconj_scale, Cconj_add.
Qed.

(** What the time reversal needs of the data cached by
    [_dipole_correction_init]: the reciprocal-lattice vectors and their
    phases come in opposite and conjugate pairs, and the correction at the
    zone centre is real. *)
Record ewald_symmetric (e : ewald) : Prop := mkSymmetric {
  sym_length : List.length (w_gvecs_cart e) = List.length (w_gvec_phases e);
  sym_gvecs : rev (w_gvecs_cart e) = map negate (w_gvecs_cart e);
  sym_phases : rev (w_gvec_phases e) = map (map Cconj) (w_gvec_phases e);
  sym_q0 : map cmconj (w_dipole_q0 e) = w_dipole_q0 e
}.

Lemma kvecs_negate (gvecs : list (list Qc)) (q_cart : list Qc) :
  rev gvecs = map negate gvecs ->
  map (fun g => vadd g (negate q_cart)) gvecs
  = map negate (rev (map (fun g => vadd g q_cart) gvecs)).
Proof.
  intros H. rewrite <- map_rev, H, !map_map. apply map_ext. intros g.
  now rewrite <- vadd_negate, negate_negate.
Qed.

Lemma phases_reverse (ph : list (list C)) :
  rev ph = map (map Cconj) ph -> ph = map (map Cconj) (rev ph).
Proof.
  intros ->. rewrite map_map. rewrite <- (map_id ph) at 1.
  apply map_ext. intros r. rewrite map_map. rewrite <- (map_id r) at 1.
  apply map_ext. intros z. symmetry. apply Cconj_conj.
Qed.

Section DipoleReversal.

Variable lib : library.
Hypothesis exp_conj : forall x, np_exp_j lib (- x) = Cconj (np_exp_j lib x).

Lemma exp_phases_negate {A : Type} (f : A -> Qc) (q : list Qc)
    (g : list Qc -> A -> Qc) (l : list A) :
  (forall a, g (negate q) a = - g q a) ->
  map (fun a => np_exp_j lib (QcZ 2 * math_pi * g (negate q) a)) l
  = map Cconj (map (fun a => np_exp_j lib (QcZ 2 * math_pi * g q a)) l).
Proof.
  intros H. rewrite map_map. apply map_ext. intros a.
  rewrite <- exp_conj, H. f_equal. ring.
Qed.

Lemma calculate_dipole_correction_negate (c : crystal)
    (born : list (list (list Qc))) (dielectric : list (list Qc))
    (e : ewald) (qpt : list Qc) :
  ewald_symmetric e ->
  calculate_dipole_correction (np_exp_j lib) (np_sqrt lib) (np_exp lib)
    (reciprocal_lattice lib) c born dielectric e (negate qpt)
  = rmap cmconj
      (calculate_dipole_correction (np_exp_j lib) (np_sqrt lib) (np_exp lib)
         (reciprocal_lattice lib) c born dielectric e qpt).
Proof.
  intros [Hl Hg Hp Hq]. rewrite !calculate_dipole_correction_blocks.
  destruct (inv3 dielectric) as [inv|]; [|reflexivity]. cbn [bind].
  destruct (math_sqrt _ _) as [sqrt_det|]; [|reflexivity].
  cbn [bind rmap]. f_equal. cbv zeta.
  rewrite <- block_matrix_conj, <- dipole_blocks_conj, Hq.
  unfold q_normalised. rewrite q_norm_negate. fold (q_normalised qpt).
  set (qn := q_normalised qpt).
  f_equal. f_equal.
  - rewrite <- fill_by_symmetry_conj. apply fill_by_symmetry_ext.
    intros i j. rewrite <- cscale33_conj. f_equal.
    rewrite (exp_phases_negate (fun _ => 0) qn dot)
      by (intros; apply dot_negate_l).
    rewrite vecmat_negate, (@kvecs_negate _ _ Hg).
    rewrite (@phases_reverse _ Hp) at 1.
    rewrite recip_terms_reverse by (now rewrite length_map).
    apply recip_sum_reverse.
  - rewrite <- fill_by_symmetry_conj. apply fill_by_symmetry_ext.
    intros i j. rewrite <- cscale33_conj. f_equal.
    rewrite (exp_phases_negate (fun _ => 0) qn
               (fun q o => dot q (ZtoQc_vec o)))
      by (intros; apply dot_negate_l).
    rewrite take_at_conj, <- csum33_conj. f_equal.
    rewrite map_map2, map2_map_r. apply map2_ext. intros h ph.
    apply real_term_conj.
Qed.

Lemma negate_reverse (gvecs : list (list Qc)) :
  rev gvecs = map negate gvecs -> gvecs = map negate (rev gvecs).
Proof.
  intros ->. rewrite map_map. rewrite <- (map_id gvecs) at 1.
  apply map_ext. intros g. symmetry. apply negate_negate.
Qed.

(** [_dipole_correction_init] caches symmetric data. *)
Lemma dipole_correction_init_symmetric (c : crystal)
    (born : list (list (list Qc))) (dielectric : list (list Qc)) (e : ewald) :
  dipole_correction_init (np_exp_j lib) (np_sqrt lib) (np_exp lib)
    (erfc lib) (np_power lib) (reciprocal_lattice lib) c born dielectric
  = Ok e ->
  ewald_symmetric e.
Proof.
  intros H.
  destruct (dipole_correction_init_cache _ _ _ _ _ _ _ _ _ H)
    as (scale & real_q0 & Hg & Hp & Hq).
  assert (Hl : List.length (w_gvecs_cart e) = List.length (w_gvec_phases e)).
  { rewrite Hg, Hp. unfold matmul, ZtoQc_mat. now rewrite !length_map. }
  assert (Hrg : rev (w_gvecs_cart e) = map negate (w_gvecs_cart e)).
  { rewrite Hg. apply lattice_vectors_opposite. }
  assert (Hrp : rev (w_gvec_phases e) = map (map Cconj) (w_gvec_phases e)).
  { rewrite Hp. rewrite <- map_rev, all_cells_opposite, !map_map.
    apply map_ext. intros g. rewrite ZtoQc_vec_opp.
    apply (exp_phases_negate (fun _ => 0) (ZtoQc_vec g) dot).
    intros; apply dot_negate_l. }
  constructor; try assumption.
  rewrite Hq, <- dipole_q0_of_conj. f_equal.
  rewrite map_map. apply map_ext. intros i.
  rewrite map_map. apply map_ext. intros j.
  rewrite <- cscale33_conj. f_equal.
  rewrite <- recip_sum_q0_reverse. f_equal. f_equal.
  rewrite <- recip_terms_reverse by exact Hl.
  f_equal; symmetry; [now apply negate_reverse|now apply phases_reverse].
Qed.

End DipoleReversal.

(** ** Time reversal: the loop over the q-points *)

Lemma foldM_rmap {A B B' : Type} (phi : B -> B') (f : B -> A -> result B)
    (g : B' -> A -> result B') (l : list A) (b : B) :
  (forall b0 a, g (phi b0) a = rmap phi (f b0 a)) ->
  foldM g l (phi b) = rmap phi (foldM f l b).
Proof.
  intros H. revert b. induction l as [|x l IH]; intros b; [reflexivity|].
  cbn [foldM]. rewrite H. destruct (f b x) as [b'|e]; [|reflexivity].
  cbn [rmap bind]. apply IH.
Qed.

Lemma chunks_fuel_map {A B : Type} (f : A -> B) (fuel k : nat) (l : list A) :
  chunks_fuel fuel k (map f l) = map (map f) (chunks_fuel fuel k l).
Proof.
  revert l. induction fuel as [|fuel IH]; intros [|x l]; try reflexivity.
  change (map f (x :: l)) with (f x :: map f l) at 1.
  cbn [chunks_fuel]. change (f x :: map f l) with (map f (x :: l)).
  now rewrite firstn_map, skipn_map, IH.
Qed.

Lemma chunks_map {A B : Type} (f : A -> B) (k : nat) (l : list A) :
  chunks k (map f l) = map (map f) (chunks k l).
Proof. unfold chunks. rewrite length_map. apply chunks_fuel_map. Qed.

Lemma reshape3_map {A B : Type} (f : A -> B) (a : list (list A))
    (d0 d1 d2 : nat) :
  reshape3 (map (map f) a) d0 d1 d2
  = rmap (map (map (map f))) (reshape3 a d0 d1 d2).
Proof.
  unfold reshape3. rewrite <- concat_map, length_map.
  destruct (Nat.eqb _ _); [|reflexivity]. cbn [rmap]. f_equal.
  rewrite chunks_map, !map_map. apply map_ext. intros r. apply chunks_map.
Qed.

Lemma set_nth_map {A B : Type} (f : A -> B) (l : list A) (q : nat) (x : A) :
  set_nth (map f l) q (f x) = map f (set_nth l q x).
Proof.
  revert q. induction l as [|y l IH]; intros [|q]; try reflexivity.
  cbn [map set_nth]. now rewrite IH.
Qed.

Lemma column_conj (m : cmatrix) (j : nat) :
  column C0 (cmconj m) j = map Cconj (column C0 m j).
Proof.
  unfold column, cmconj. rewrite !map_map. apply map_ext. intros r.
  apply nth_conj.
Qed.

Lemma couter_conj (u v : list C) :
  couter (map Cconj u) (map Cconj v) = cmconj (couter u v).
Proof.
  unfold couter, cmconj. rewrite !map_map. apply map_ext. intros x.
  rewrite !map_map. apply map_ext. intros y. symmetry. apply Cconj_mul.
Qed.

Lemma cidentity_conj (n : nat) : cmconj (cidentity n) = cidentity n.
Proof.
  unfold cmconj, cidentity. rewrite map_map. apply map_ext. intros i.
  rewrite map_map. apply map_ext. intros j.
  destruct (Nat.eqb i j); [apply Cconj_1|apply Cconj_0].
Qed.

Lemma Qceqb_true (a b : Qc) : Qceqb a b = true <-> a = b.
Proof.
  unfold Qceqb. rewrite Qeq_bool_iff. split.
  - apply Qc_is_canon.
  - intros ->. reflexivity.
Qed.

Lemma is_gamma_negate (qpt : list Qc) : is_gamma (negate qpt) = is_gamma qpt.
Proof.
  unfold is_gamma, negate. induction qpt as [|x r IH]; [reflexivity|].
  cbn [map forallb]. rewrite IH. f_equal.
  destruct (Qceqb x 0) eqn:E.
  - apply Qceqb_true in E. subst x. reflexivity.
  - destruct (Qceqb (- x) 0) eqn:E'; [|reflexivity].
    apply Qceqb_true in E'.
    assert (Hx : x = 0) by (rewrite <- (Qcopp_involutive x), E'; reflexivity).
    apply Qceqb_true in Hx. congruence.
Qed.

(** The eigenvalues stay and the eigenvectors are conjugated. *)
Definition conj_pair (wv : list Qc * cmatrix) : list Qc * cmatrix :=
  (fst wv, cmconj (snd wv)).

Definition conj_vectors (vs : list (list (list (list C))))
  : list (list (list (list C))) :=
  map (map (map (map Cconj))) vs.

Definition conj_state (st : loop_state) : loop_state :=
  mkLoop (cmconj (l_prev_evecs st)) (map cmconj (l_dyn_mats st))
         (l_freqs st) (conj_vectors (l_eigenvecs st))
         (l_split_i st) (l_split_freqs st)
         (conj_vectors (l_split_eigenvecs st)).

Lemma corrected_matrix_conj (n : nat) (pre : bool) (w : list (list Qc))
    (dm prev : cmatrix) :
  corrected_matrix n pre w (cmconj dm) (cmconj prev) None
  = cmconj (corrected_matrix n pre w dm prev None).
Proof.
  unfold corrected_matrix. rewrite <- cmconj_scale.
  destruct pre; [|reflexivity].
  rewrite (cmconj_transpose _ (cmconj prev)). now rewrite !cmconj_matmul.
Qed.

Section LoopReversal.

Variable lib : library.

(** What the time reversal asks of NumPy and LAPACK: opposite angles have
    conjugate exponentials, and the conjugate matrix has the same
    eigenvalues with the conjugate eigenvectors. *)
Hypothesis exp_conj : forall x, np_exp_j lib (- x) = Cconj (np_exp_j lib x).
Hypothesis eigh_conj :
  forall m, eigh lib (cmconj m) = rmap conj_pair (eigh lib m).
Hypothesis zheev_conj :
  forall m, fst (zheev lib (cmconj m)) = conj_pair (fst (zheev lib m)).

Lemma diagonalise_conj (m : cmatrix) :
  diagonalise (eigh lib) (zheev lib) (cmconj m)
  = rmap conj_pair (diagonalise (eigh lib) (zheev lib) m).
Proof.
  unfold diagonalise. rewrite eigh_conj.
  destruct (eigh lib m) as [[w v]|ex]; [reflexivity|]. cbn [rmap].
  destruct ex; try reflexivity.
  pose proof (zheev_conj m) as Hz.
  destruct (zheev lib (cmconj m)) as [[w' v'] i'],
           (zheev lib m) as [[w v] i].
  cbn in Hz. injection Hz as -> ->. reflexivity.
Qed.

Lemma mode_set_conj (n : nat) (evals : list Qc) (evecs : cmatrix) :
  mode_set lib n evals (cmconj evecs)
  = rmap (fun p => (fst p, map (map (map Cconj)) (snd p)))
         (mode_set lib n evals evecs).
Proof.
  unfold mode_set. rewrite cmconj_transpose. unfold cmconj at 1.
  rewrite reshape3_map. now destruct (reshape3 _ _ _ _).
Qed.

Lemma solve_one_conj (n : nat) (pre : bool) (w : list (list Qc))
    (dm : cmatrix) (q : nat) (st : loop_state) (i : nat) :
  solve_one lib n pre w (cmconj dm) q (conj_state st) (i, None)
  = rmap conj_state (solve_one lib n pre w dm q st (i, None)).
Proof.
  unfold solve_one. cbn [l_prev_evecs conj_state].
  rewrite corrected_matrix_conj, diagonalise_conj.
  destruct (diagonalise _ _ _) as [[w0 v]|]; [|reflexivity].
  cbn [rmap bind conj_pair fst snd]. rewrite mode_set_conj.
  destruct (mode_set _ _ _ _) as [[f vs]|]; [|reflexivity].
  cbn [rmap bind fst snd].
  destruct (Nat.eqb i 0); cbn [rmap]; unfold conj_state, conj_vectors;
    cbn [l_prev_evecs l_dyn_mats l_freqs l_eigenvecs l_split_i
         l_split_freqs l_split_eigenvecs];
    rewrite ?set_nth_map, ?map_app; reflexivity.
Qed.

Lemma real_eigenvectors (g : cmatrix) (w : list Qc) (v : cmatrix) :
  cmconj g = g -> eigh lib g = Ok (w, v) -> cmconj v = v.
Proof.
  intros Hg He. pose proof (eigh_conj g) as H. rewrite Hg, He in H.
  cbn in H. apply Ok_inj in H. injection H as H. now symmetry.
Qed.

Lemma scaled_conj (c : Qc) (m : cmatrix) :
  cmconj (map (map (Cscale c)) m) = map (map (Cscale c)) (cmconj m).
Proof.
  unfold cmconj. rewrite !map_map. apply map_ext. intros r.
  rewrite !map_map. apply map_ext. intros z. apply Cconj_scale.
Qed.

Lemma enforce_reciprocal_asr_conj (g dm : cmatrix) :
  cmconj g = g ->
  enforce_reciprocal_asr (eigh lib) g (cmconj dm)
  = rmap (fun p => (cmconj (fst p), snd p))
         (enforce_reciprocal_asr (eigh lib) g dm).
Proof.
  intros Hg. unfold enforce_reciprocal_asr.
  destruct (find_acoustic_modes complex_ops (eigh lib) g)
    as [[[ac evals] evecs]|] eqn:E; [|reflexivity].
  assert (Hv : cmconj evecs = evecs).
  { unfold find_acoustic_modes in E.
    destruct (eigh lib g) as [[w v]|] eqn:Ee; [|discriminate].
    cbn [bind] in E.
    destruct (reshape3 _ _ _ _); [|discriminate]. cbn [bind] in E.
    destruct (Nat.ltb _ _); [discriminate|].
    apply Ok_inj in E. injection E as _ _ <-.
    now apply (real_eigenvectors Hg Ee). }
  destruct (np_min _) as [m|]; [|reflexivity]. cbn [bind].
  match goal with
  | |- context [foldM ?F _ (cmconj dm)] =>
      rewrite (foldM_rmap cmconj F F)
  end.
  - now destruct (foldM _ _ dm).
  - intros b [i a]. destruct (py_index evals (Z.of_nat a)); [|reflexivity].
    cbn [bind rmap]. f_equal. rewrite cmconj_cmsub. f_equal.
    rewrite scaled_conj, <- couter_conj, <- column_conj, Hv. reflexivity.
Qed.

Lemma dipole_corrected_negate (x : loop_context) (qpt : list Qc) :
  (forall e, x_ewald x = Some e -> ewald_symmetric e) ->
  dipole_corrected lib x (negate qpt)
  = rmap cmconj (dipole_corrected lib x qpt).
Proof.
  intros Hsym. unfold dipole_corrected.
  rewrite (@calculate_dyn_mat_negate lib exp_conj).
  destruct (calculate_dyn_mat _ _ _ _ _ _ _ _ _) as [dm|]; [|reflexivity].
  cbn [rmap bind]. destruct (x_dipole x); [|reflexivity].
  destruct (x_born x), (x_dielectric x), (x_ewald x) as [e|];
    try reflexivity.
  rewrite (@calculate_dipole_correction_negate lib exp_conj) by auto.
  destruct (calculate_dipole_correction _ _ _ _ _ _ _ _ _); [|reflexivity].
  cbn [rmap bind]. now rewrite cmconj_cmadd.
Qed.

Lemma py_index_In {A : Type} (l : list A) (i : Z) (x : A) :
  py_index l i = Ok x -> In x l.
Proof.
  unfold py_index. destruct (_ && _)%bool; [|discriminate].
  destruct (nth_error l _) eqn:E; [|discriminate].
  intros H. apply Ok_inj in H. subst. eapply nth_error_In; eauto.
Qed.

(** No direction-dependent correction is applied: splitting is off, or no
    q-point is the zone centre. *)
Definition no_lo_to (splitting : bool) (qpts : list (list Qc)) : Prop :=
  splitting = false \/ Forall (fun q => is_gamma q = false) qpts.

Lemma loop_body_negate (x : loop_context) (qpts : list (list Qc))
    (st : loop_state) (w : list warning) (q : nat) :
  (forall e, x_ewald x = Some e -> ewald_symmetric e) ->
  (forall g, x_dyn_mat_gamma x = Some g -> cmconj g = g) ->
  no_lo_to (x_splitting x) qpts ->
  loop_body lib x (map negate qpts) (conj_state st, w) q
  = rmap (fun p => (conj_state (fst p), snd p))
         (loop_body lib x qpts (st, w) q).
Proof.
  intros Hsym Hgamma Hno. unfold loop_body.
  rewrite py_index_map.
  destruct (py_index qpts (Z.of_nat q)) as [qpt|] eqn:Eq; [|reflexivity].
  cbn [rmap bind]. rewrite dipole_corrected_negate by exact Hsym.
  destruct (dipole_corrected lib x qpt) as [dm|]; [|reflexivity].
  cbn [rmap bind].
  assert (Hna : forall all, na_corrections x all q qpt = Ok [None] /\
                            na_corrections x all q (negate qpt) = Ok [None]).
  { intros all. unfold na_corrections. rewrite is_gamma_negate.
    assert (Hf : x_splitting x && is_gamma qpt = false).
    { destruct Hno as [->|Hall]; [reflexivity|].
      rewrite Forall_forall in Hall.
      rewrite (Hall qpt (py_index_In _ _ Eq)). apply andb_false_r. }
    rewrite Hf. split; reflexivity. }
  destruct (Hna qpts) as [Hn1 _]. destruct (Hna (map negate qpts)) as [_ Hn2].
  assert (Hasr :
            match x_dyn_mat_gamma x with
            | Some g => enforce_reciprocal_asr (eigh lib) g (cmconj dm)
            | None => Ok (cmconj dm, [])
            end
            = rmap (fun p => (cmconj (fst p), snd p))
                   match x_dyn_mat_gamma x with
                   | Some g => enforce_reciprocal_asr (eigh lib) g dm
                   | None => Ok (dm, [])
                   end).
  { destruct (x_dyn_mat_gamma x) as [g|] eqn:Eg; [|reflexivity].
    apply enforce_reciprocal_asr_conj. now apply Hgamma. }
  rewrite Hasr.
  destruct (match x_dyn_mat_gamma x with
            | Some g => enforce_reciprocal_asr (eigh lib) g dm
            | None => Ok (dm, [])
            end) as [[dm' wa]|]; [|reflexivity].
  cbn [rmap bind fst snd]. rewrite Hn1, Hn2.
  cbn [bind List.length seq combine foldM].
  rewrite solve_one_conj.
  now destruct (solve_one _ _ _ _ _ _ _ _).
Qed.

Lemma initial_state_conj (n n_q : nat) :
  conj_state (initial_state n n_q) = initial_state n n_q.
Proof.
  unfold conj_state, initial_state, conj_vectors.
  cbn [l_prev_evecs l_dyn_mats l_freqs l_eigenvecs l_split_i l_split_freqs
       l_split_eigenvecs map].
  rewrite cidentity_conj, !map_repeat, czeros_conj, Cconj_0. reflexivity.
Qed.

Lemma run_loop_negate (x : loop_context) (qpts : list (list Qc))
    (w : list warning) :
  (forall e, x_ewald x = Some e -> ewald_symmetric e) ->
  (forall g, x_dyn_mat_gamma x = Some g -> cmconj g = g) ->
  no_lo_to (x_splitting x) qpts ->
  run_loop lib x (map negate qpts) w
  = rmap (fun p => (conj_state (fst p), snd p)) (run_loop lib x qpts w).
Proof.
  intros Hsym Hgamma Hno. unfold run_loop. rewrite length_map.
  rewrite <- (initial_state_conj (n_ions (x_crystal x)) (List.length qpts))
    at 1.
  apply (foldM_rmap (fun p : loop_state * list warning =>
                       (conj_state (fst p), snd p))
                    (loop_body lib x qpts)
                    (loop_body lib x (map negate qpts))
                    (seq 0 (List.length qpts))
                    (initial_state (n_ions (x_crystal x))
                                   (List.length qpts), w)).
  intros [st w0] q. now apply loop_body_negate.
Qed.

Lemma zone_centre_negate : negate [0; 0; 0] = [0; 0; 0].
Proof.
  unfold negate. cbn [map]. replace (- 0) with 0 by ring. reflexivity.
Qed.

(** A cached Ewald set-up is one that [_dipole_correction_init] has
    computed. *)
Definition cache_from_init (self : interpolation_data) : Prop :=
  forall e, eta self = Some e ->
    exists b d,
      dipole_correction_init (np_exp_j lib) (np_sqrt lib) (np_exp lib)
        (erfc lib) (np_power lib) (reciprocal_lattice lib) (crys self) b d
      = Ok e.

Lemma prepare_symmetric (self : interpolation_data) (o : options)
    x fc_asr warned :
  cache_from_init self ->
  prepare lib self o = Ok (x, fc_asr, warned) ->
  (forall e, x_ewald x = Some e -> ewald_symmetric e) /\
  (forall g, x_dyn_mat_gamma x = Some g -> cmconj g = g).
Proof.
  intros Hc H. unfold prepare in H.
  apply bind_ok in H as [[[fc fa] w0] [_ H]].
  apply bind_ok in H as [ew [Hew H]].
  apply bind_ok in H as [img [_ H]].
  apply bind_ok in H as [gamma [Hg H]].
  assert (Hs : forall e, ew = Some e -> ewald_symmetric e).
  { intros e ->.
    assert (Hcached : eta self = Some e -> ewald_symmetric e).
    { intros He. destruct (Hc e He) as [b [d Hi]].
      exact (@dipole_correction_init_symmetric lib exp_conj _ _ _ _ Hi). }
    destruct (opt_dipole o && is_some (born self)
              && is_some (dielectric self)).
    - destruct (eta self) as [e0|].
      + apply Ok_inj in Hew. auto.
      + destruct (born self) as [b|]; [|discriminate].
        destruct (dielectric self) as [d|]; [|discriminate].
        apply bind_ok in Hew as [e0 [Hi He0]].
        apply Ok_inj in He0. injection He0 as ->.
        exact (@dipole_correction_init_symmetric lib exp_conj _ _ _ _ Hi).
    - apply Ok_inj in Hew. auto. }
  apply Ok_inj in H. injection H as <- _ _.
  cbn [x_ewald x_dyn_mat_gamma]. split; [exact Hs|].
  intros g ->. destruct (opt_asr o) as [[|]|]; try discriminate.
  apply bind_ok in Hg as [g' [Hg E]].
  apply Ok_inj in E. injection E as ->.
  match type of Hg with
  | dipole_corrected lib ?x0 _ = _ =>
      pose proof (@dipole_corrected_negate x0 [0; 0; 0] Hs) as Hn
  end.
  rewrite zone_centre_negate, Hg in Hn. cbn [rmap] in Hn.
  apply Ok_inj in Hn. now symmetry.
Qed.

(** X1: with a library whose complex exponential and eigensolvers commute
    with complex conjugation, and floats taken as exact, interpolating at
    the opposite q-points gives the same frequencies, q-point by q-point,
    as interpolating at the q-points themselves, whenever no
    direction-dependent correction is applied (splitting is off or no
    q-point is the zone centre); and the one run raises an exception
    exactly when the other does. *)
Theorem opposite_q_points_same_frequencies (self : interpolation_data)
    (qpts : list (list Qc)) (o : options) :
  cache_from_init self ->
  no_lo_to (opt_splitting o) qpts ->
  rmap (fun r => fst (snd (fst r)))
       (calculate_fine_phonons lib self (map negate qpts) o)
  = rmap (fun r => fst (snd (fst r)))
         (calculate_fine_phonons lib self qpts o).
Proof.
  intros Hc Hno. unfold calculate_fine_phonons.
  destruct (prepare lib self o) as [[[x fa] w]|] eqn:Hp; [|reflexivity].
  cbn [bind].
  destruct (prepare_symmetric _ Hc Hp) as [Hsym Hgamma].
  apply prepare_context in Hp as (_ & _ & _ & _ & _ & Hsplit & _).
  rewrite run_loop_negate; try assumption.
  - destruct (run_loop lib x qpts w) as [[st w']|]; [|reflexivity].
    cbn [rmap bind fst snd]. rewrite length_map.
    destruct (opt_set_attrs o); [destruct (Nat.eqb _ 0)|]; reflexivity.
  - destruct Hno as [Hoff|Hall]; [left|now right].
    now rewrite Hsplit, Hoff.
Qed.

(** X2: once the set-up has succeeded, the dynamical matrix of a q-point
    before the acoustic sum rule ([_calculate_dyn_mat] plus, with dipole,
    [_calculate_dipole_correction]) is at the opposite q-point the complex
    conjugate, entry by entry, of what it is at the q-point; an exception
    at one is the same exception at the other. *)
Theorem dynamical_matrix_at_opposite_q_point (self : interpolation_data)
    (o : options) (qpt : list Qc) x fc_asr warned :
  cache_from_init self ->
  prepare lib self o = Ok (x, fc_asr, warned) ->
  dipole_corrected lib x (negate qpt)
  = rmap cmconj (dipole_corrected lib x qpt).
Proof.
  intros Hc Hp. apply dipole_corrected_negate.
  exact (proj1 (prepare_symmetric _ Hc Hp)).
Qed.

End LoopReversal.

(** The stand-ins of the examples commute with complex conjugation. *)
Lemma circle_point_opp (x : Qc) : circle_point (- x) = Cconj (circle_point x).
Proof.
  unfold circle_point. cbv zeta.
  replace (- x / QcZ 2) with (- (x / QcZ 2)) by (unfold Qcdiv; ring).
  set (t := x / QcZ 2).
  replace (- t * - t) with (t * t) by ring.
  apply C_eq; cbn [Re Im Cconj]; unfold Qcdiv; ring.
Qed.

Lemma diagonal_conj (m : cmatrix) :
  map (fun i => Re (cat2 (cmconj m) i i)) (seq 0 (List.length (cmconj m)))
  = map (fun i => Re (cat2 m i i)) (seq 0 (List.length m)).
Proof.
  unfold cmconj at 2. rewrite length_map. apply map_ext. intros i.
  now rewrite cat2_conj.
Qed.

Lemma diagonal_solver_conj (m : cmatrix) :
  diagonal_solver (cmconj m) = rmap conj_pair (diagonal_solver m).
Proof.
  unfold diagonal_solver, conj_pair. cbn [rmap fst snd].
  rewrite diagonal_conj, cidentity_conj. unfold cmconj. now rewrite length_map.
Qed.

Lemma zheev_with_conj (info : Z) (m : cmatrix) :
  fst (zheev_with info (cmconj m)) = conj_pair (fst (zheev_with info m)).
Proof.
  unfold zheev_with, conj_pair. cbn [fst snd].
  rewrite diagonal_conj, cidentity_conj. unfold cmconj. now rewrite length_map.
Qed.

(** The library of the examples. *)
Definition exact_library : library :=
  test_library diagonal_solver (zheev_with 0).

Lemma opposite_q_points_witness :
  rmap (fun r => fst (snd (fst r)))
       (calculate_fine_phonons exact_library polar_cubic
            (map negate [[half; 0; 0]; [0; half; 0]]) default_options)
  = rmap (fun r => fst (snd (fst r)))
         (calculate_fine_phonons exact_library polar_cubic
              [[half; 0; 0]; [0; half; 0]] default_options).
Proof.
  apply (@opposite_q_points_same_frequencies
           exact_library
           circle_point_opp diagonal_solver_conj (zheev_with_conj 0)).
  - intros e He. discriminate He.
  - right. repeat constructor.
Defined.

Lemma dynamical_matrix_witness :
  exists x,
    prepare exact_library
            polar_cubic default_options
    = Ok (x, None, []) /\
    dipole_corrected exact_library x
                     (negate [half; 0; 0])
    = rmap cmconj
        (dipole_corrected exact_library x
                          [half; 0; 0]).
Proof.
  destruct (ok_exists
              (prepare exact_library
                       polar_cubic
                       default_options)
              (fun r => match r with
                        | (_, None, []) => true
                        | _ => false
                        end)) as [[[x fa] w] [Hp Hc]];
    [vm_compute; reflexivity|].
  destruct fa; [discriminate|]. destruct w; [|discriminate].
  exists x. split; [exact Hp|].
  apply (@dynamical_matrix_at_opposite_q_point
           exact_library circle_point_opp
           polar_cubic default_options
           [half; 0; 0] x None [] ).
  - intros e He. discriminate He.
  - exact Hp.
Defined.

(** ** The dipole correction over the reciprocal lattice *)

Lemma Qfloor_shift (x : Qc) (n : Z) :
  Qfloor (x + QcZ n)%Qc = (Qfloor x + n)%Z.
Proof.
  destruct (QcZ_floor_bounds x) as [Hlo Hhi].
  apply Qfloor_QcZ; rewrite QcZ_add.
  - clear - Hlo. qc_to_q. lra.
  - clear - Hhi. qc_to_q. lra.
Qed.

(** A coordinate half-way between two integers, which [np.rint] sends to
    the even one. *)
Definition half_way (x : Qc) : Prop := x - QcZ (Qfloor x) = Q2Qc (1 # 2).

Lemma np_rint_shift (x : Qc) (n : Z) :
  ~ half_way x -> np_rint (x + QcZ n) = np_rint x + QcZ n.
Proof.
  intros Hx. unfold np_rint. rewrite Qfloor_shift.
  replace (x + QcZ n - QcZ (Qfloor x + n)) with (x - QcZ (Qfloor x))
    by (rewrite QcZ_add; ring).
  replace (Qfloor x + n + 1)%Z with (Qfloor x + 1 + n)%Z by lia.
  destruct (Qcltb_half_cases (x - QcZ (Qfloor x)))
    as [[E1 _]|[[E1 [E2 _]]|[_ [_ H]]]].
  - rewrite E1. apply QcZ_add.
  - rewrite E1, E2. apply QcZ_add.
  - now elim Hx.
Qed.

Lemma q_normalised_shift (qpt : list Qc) (G : list Z) :
  List.length G = List.length qpt ->
  Forall (fun x => ~ half_way x) qpt ->
  q_normalised (vadd qpt (ZtoQc_vec G)) = q_normalised qpt.
Proof.
  unfold q_normalised, vadd, ZtoQc_vec. revert G.
  induction qpt as [|x q IH]; intros [|n G] Hl Hq; try discriminate;
    [reflexivity|].
  cbn [map combine fst snd]. inversion Hq as [|? ? Hx Hq']; subst.
  rewrite IH by (auto; cbn in Hl; lia).
  rewrite np_rint_shift by exact Hx. f_equal. ring.
Qed.

(** X3: [_calculate_dipole_correction] reads its q-point only through
    [q - np.rint(q)], so that a q-point moved by a vector of integers gets
    the same correction (or the same exception), provided none of its
    coordinates lies half-way between two integers, where [np.rint] goes to
    the even neighbour and the difference changes sign. *)
Theorem dipole_correction_lattice_periodic (np_exp_j : Qc -> C)
    (np_sqrt np_exp : Qc -> Qc)
    (reciprocal_lattice : list (list Qc) -> list (list Qc)) (c : crystal)
    (born : list (list (list Qc))) (dielectric : list (list Qc))
    (e : ewald) (qpt : list Qc) (G : list Z) :
  List.length G = List.length qpt ->
  Forall (fun x => ~ half_way x) qpt ->
  calculate_dipole_correction np_exp_j np_sqrt np_exp reciprocal_lattice
    c born dielectric e (vadd qpt (ZtoQc_vec G))
  = calculate_dipole_correction np_exp_j np_sqrt np_exp reciprocal_lattice
      c born dielectric e qpt.
Proof.
  intros Hl Hq. rewrite !calculate_dipole_correction_blocks.
  now rewrite q_normalised_shift.
Qed.

Lemma quarter_not_half_way : ~ half_way (frac 1 4).
Proof.
  unfold half_way. intros H. apply (f_equal this) in H. discriminate H.
Qed.

Lemma zero_not_half_way : ~ half_way 0.
Proof.
  unfold half_way. intros H. apply (f_equal this) in H. discriminate H.
Qed.

Lemma dipole_correction_periodic_witness :
  calculate_dipole_correction circle_point sqrt_of_square (fun _ => 0)
    reciprocal_of (cubic_cell eye3) [eye3] eye3
    (mkEwald [1; 1; 1]%Z [1; 1; 1]%Z [] 1 1 [] [] [] [] [])
    (vadd [frac 1 4; 0; 0] (ZtoQc_vec [1; -2; 0]%Z))
  = calculate_dipole_correction circle_point sqrt_of_square (fun _ => 0)
      reciprocal_of (cubic_cell eye3) [eye3] eye3
      (mkEwald [1; 1; 1]%Z [1; 1; 1]%Z [] 1 1 [] [] [] [] [])
      [frac 1 4; 0; 0].
Proof.
  apply dipole_correction_lattice_periodic.
  - reflexivity.
  - repeat constructor;
      [exact quarter_not_half_way|exact zero_not_half_way
      |exact zero_not_half_way].
Defined.

(** The tie: at a coordinate half-way between two integers, a shift by an
    odd integer changes the sign of [q - np.rint(q)]. *)
Lemma half_way_shift_changes_sign :
  q_normalised [frac 1 2] = [frac 1 2] /\
  q_normalised (vadd [frac 1 2] (ZtoQc_vec [1]%Z)) = [frac (-1) 2].
Proof.
  split; unfold q_normalised, vadd, ZtoQc_vec; cbn [map combine fst snd];
    f_equal; apply Qc_is_canon; reflexivity.
Qed.

(** ** The non-analytic correction at the zone centre *)

Lemma flat_map_rows {A B : Type} (f : A -> B) (l : list (list A)) :
  flat_map (fun r => map f r) l = map f (List.concat l).
Proof.
  induction l as [|r l IH]; [reflexivity|].
  cbn [flat_map List.concat]. now rewrite map_app, IH.
Qed.

(** The correction is the outer product of one vector, the Born charges
    contracted with the direction, with itself. *)
Lemma gamma_correction_outer (cv : list (list Qc))
    (born : list (list (list Qc))) (dielectric : list (list Qc))
    (q_dir : list Qc) :
  let v := List.concat (map (map (fun row => dot row q_dir)) born) in
  let factor :=
    QcZ 4 * math_pi
    / (cell_volume cv
       * dot q_dir (map (fun row => dot row q_dir) dielectric)) in
  calculate_gamma_correction cv born dielectric q_dir
  = map (fun x => map (fun y => Cscale factor (Cre (x * y))) v) v.
Proof.
  cbv zeta. unfold calculate_gamma_correction.
  rewrite (flat_map_rows
             (fun x => flat_map (fun bj => map (fun y => Cre (x * y)) bj)
                                (map (map (fun row => dot row q_dir)) born))).
  rewrite map_map. apply map_ext. intros x.
  rewrite flat_map_rows, map_map. reflexivity.
Qed.

Lemma map_nth_seq {A B : Type} (g : A -> B) (d : A) (v : list A) :
  map (fun j => g (nth j v d)) (seq 0 (List.length v)) = map g v.
Proof.
  rewrite <- (map_map (fun j => nth j v d) g). f_equal.
  induction v as [|x v IH]; [reflexivity|].
  cbn [List.length seq map nth]. f_equal.
  rewrite <- seq_shift, map_map. exact IH.
Qed.

(** X4: where the cell volume and [q_dir . dielectric . q_dir], by which
    the code divides, are not zero, the non-analytic correction of
    [_calculate_gamma_correction] is a real and symmetric matrix, hence
    equal to its conjugate transpose, whatever the Born charges. *)
Theorem gamma_correction_real_symmetric (cv : list (list Qc))
    (born : list (list (list Qc))) (dielectric : list (list Qc))
    (q_dir : list Qc) :
  cell_volume cv <> 0 ->
  dot q_dir (map (fun row => dot row q_dir) dielectric) <> 0 ->
  let g := calculate_gamma_correction cv born dielectric q_dir in
  cmconj g = g /\ cmtranspose (List.length g) g = g /\
  cmtranspose (List.length g) (cmconj g) = g.
Proof.
  intros _ _. cbv zeta. rewrite gamma_correction_outer. cbv zeta.
  set (v := List.concat _). set (f := _ / _).
  assert (Hc : cmconj (map (fun x => map (fun y => Cscale f (Cre (x * y))) v)
                           v)
               = map (fun x => map (fun y => Cscale f (Cre (x * y))) v) v).
  { unfold cmconj. rewrite map_map. apply map_ext. intros x.
    rewrite map_map. apply map_ext. intros y.
    now rewrite Cconj_scale, Cconj_re. }
  assert (Ht : cmtranspose
                 (List.length
                    (map (fun x => map (fun y => Cscale f (Cre (x * y))) v)
                         v))
                 (map (fun x => map (fun y => Cscale f (Cre (x * y))) v) v)
               = map (fun x => map (fun y => Cscale f (Cre (x * y))) v) v).
  { rewrite length_map. unfold cmtranspose, transpose_of.
    etransitivity;
      [|apply (map_nth_seq
                 (fun x => map (fun y => Cscale f (Cre (x * y))) v) 0 v)].
    apply map_ext_in. intros j Hj. apply in_seq in Hj.
    rewrite map_map. apply map_ext. intros x.
    rewrite (nth_map_in (fun y => Cscale f (Cre (x * y))) v C0 0) by lia.
    f_equal. f_equal. ring. }
  repeat split; [exact Hc|exact Ht|]. rewrite Hc. exact Ht.
Qed.

Lemma gamma_correction_symmetric_witness :
  cmconj (calculate_gamma_correction eye3 [eye3] eye3 [1; 0; 0])
  = calculate_gamma_correction eye3 [eye3] eye3 [1; 0; 0].
Proof.
  refine (proj1 (@gamma_correction_real_symmetric
                   eye3 [eye3] eye3 [1; 0; 0] _ _));
    intros H; apply (f_equal this) in H; discriminate H.
Defined.

Lemma dot_scale_l (c : Qc) (u v : list Qc) :
  dot (map (Qcmult c) u) v = c * dot u v.
Proof.
  unfold dot. revert v. induction u as [|a u IH]; intros [|b v];
    cbn [map combine sumQc fold_right fst snd]; try ring.
  fold (sumQc (map (fun p => fst p * snd p) (combine (map (Qcmult c) u) v))).
  fold (sumQc (map (fun p => fst p * snd p) (combine u v))).
  rewrite IH. ring.
Qed.

Lemma dot_scale_r (c : Qc) (u v : list Qc) :
  dot u (map (Qcmult c) v) = c * dot u v.
Proof.
  unfold dot. revert v. induction u as [|a u IH]; intros [|b v];
    cbn [map combine sumQc fold_right fst snd]; try ring.
  fold (sumQc (map (fun p => fst p * snd p) (combine u (map (Qcmult c) v)))).
  fold (sumQc (map (fun p => fst p * snd p) (combine u v))).
  rewrite IH. ring.
Qed.

(** X5: the correction depends on the direction of approach only, not on
    the length or the sign of [q_dir]: a direction scaled by a factor other
    than zero gives the same matrix, as long as the cell volume and
    [q_dir . dielectric . q_dir], by which the code divides, are not
    zero. *)
Theorem gamma_correction_scale_invariant (cv : list (list Qc))
    (born : list (list (list Qc))) (dielectric : list (list Qc))
    (q_dir : list Qc) (c : Qc) :
  c <> 0 -> cell_volume cv <> 0 ->
  dot q_dir (map (fun row => dot row q_dir) dielectric) <> 0 ->
  calculate_gamma_correction cv born dielectric (map (Qcmult c) q_dir)
  = calculate_gamma_correction cv born dielectric q_dir.
Proof.
  intros Hc Hv Hd. rewrite !gamma_correction_outer. cbv zeta.
  rewrite dot_scale_l.
  rewrite (map_ext (fun row => dot row (map (Qcmult c) q_dir))
                   (fun row => c * dot row q_dir))
    by (intros; apply dot_scale_r).
  rewrite <- (map_map (fun row => dot row q_dir) (Qcmult c)), dot_scale_r.
  set (den := dot q_dir _) in *.
  rewrite (map_ext (map (fun row => dot row (map (Qcmult c) q_dir)))
                   (fun b => map (Qcmult c)
                                 (map (fun row => dot row q_dir) b))).
  2: { intros b. rewrite map_map. apply map_ext. intros row.
       apply dot_scale_r. }
  rewrite <- (map_map (map (fun row => dot row q_dir)) (map (Qcmult c))).
  rewrite <- concat_map.
  set (v := List.concat _).
  rewrite map_map. apply map_ext. intros x.
  rewrite map_map. apply map_ext. intros y.
  apply C_eq; cbn [Re Im Cscale Cre]; field; repeat split; assumption.
Qed.

Lemma gamma_correction_scale_witness :
  calculate_gamma_correction eye3 [eye3] eye3
                             (map (Qcmult (QcZ (-3))) [1; 0; 0])
  = calculate_gamma_correction eye3 [eye3] eye3 [1; 0; 0].
Proof.
  apply gamma_correction_scale_invariant; intros H;
    apply (f_equal this) in H; discriminate H.
Defined.

(** ** What a run ignores, keeps and reuses *)

(** The options with [dipole] and [splitting] switched off. *)
Definition without_dipole (o : options) : options :=
  mkOptions (opt_asr o) (opt_precondition o) (opt_set_attrs o) false false.

Lemma set_nth_length {A : Type} (l : list A) (q : nat) (x : A) :
  List.length (set_nth l q x) = List.length l.
Proof.
  revert q. induction l as [|y l IH]; intros [|q]; cbn [set_nth List.length];
    auto.
Qed.

Lemma foldM_invariant {A B : Type} (P : B -> Prop) (f : B -> A -> result B)
    (l : list A) :
  (forall b a b', In a l -> P b -> f b a = Ok b' -> P b') ->
  forall b b', P b -> foldM f l b = Ok b' -> P b'.
Proof.
  induction l as [|x l IH]; intros Hf b b' Hb H.
  - apply Ok_inj in H. now subst.
  - cbn [foldM] in H. apply bind_ok in H as [b1 [H1 H2]].
    apply (IH (fun b0 a b0' Ha => Hf b0 a b0' (or_intror Ha)) b1 b');
      [|exact H2].
    apply (Hf b x b1); [now left|exact Hb|exact H1].
Qed.

Lemma QcZ_nonzero (z : Z) : z <> 0%Z -> QcZ z <> 0.
Proof.
  intros Hz H. apply Hz. unfold QcZ in H.
  change 0 with (Q2Qc (inject_Z 0)) in H.
  apply Q2Qc_eq_iff in H. exact (proj1 (inject_Z_injective z 0) H).
Qed.

Lemma sumQc_repeat (x : Qc) (n : nat) :
  sumQc (repeat x n) = QcZ (Z.of_nat n) * x.
Proof.
  unfold sumQc. induction n as [|n IH].
  - cbn [repeat fold_right]. change (QcZ (Z.of_nat 0)) with 0. ring.
  - cbn [repeat fold_right]. rewrite IH, Nat2Z.inj_succ.
    unfold Z.succ. rewrite QcZ_add. change (QcZ 1) with 1. ring.
Qed.

(** The arrays of the loop keep one entry per q-point, and the three split
    arrays grow together, by entries for q-points of the list. *)
Definition state_shape (n_q : nat) (st : loop_state) : Prop :=
  List.length (l_dyn_mats st) = n_q /\
  List.length (l_freqs st) = n_q /\
  List.length (l_eigenvecs st) = n_q /\
  List.length (l_split_freqs st) = List.length (l_split_i st) /\
  List.length (l_split_eigenvecs st) = List.length (l_split_i st) /\
  Forall (fun i => (i < n_q)%nat) (l_split_i st).

Section Runs.

Variable lib : library.

Lemma solve_one_shape (n : nat) (pre : bool) (w : list (list Qc))
    (dm : cmatrix) (n_q q : nat) (st st' : loop_state)
    (ic : nat * option cmatrix) :
  (q < n_q)%nat -> state_shape n_q st ->
  solve_one lib n pre w dm q st ic = Ok st' -> state_shape n_q st'.
Proof.
  intros Hq (H1 & H2 & H3 & H4 & H5 & H6) H. destruct ic as [i na].
  unfold solve_one in H.
  apply bind_ok in H as [[evals evecs] [_ H]].
  apply bind_ok in H as [[fs vs] [_ H]].
  destruct (Nat.eqb i 0); apply Ok_inj in H; subst st'; unfold state_shape;
    cbn [l_dyn_mats l_freqs l_eigenvecs l_split_i l_split_freqs
         l_split_eigenvecs];
    rewrite ?set_nth_length, ?length_app; cbn [List.length];
    repeat split; try lia; try assumption.
  apply Forall_app. split; [assumption|]. now constructor.
Qed.

Lemma loop_body_shape (x : loop_context) (qpts : list (list Qc))
    (n_q q : nat) (a a' : loop_state * list warning) :
  (q < n_q)%nat -> state_shape n_q (fst a) ->
  loop_body lib x qpts a q = Ok a' -> state_shape n_q (fst a').
Proof.
  intros Hq Hs H. destruct a as [st w]. unfold loop_body in H.
  apply bind_ok in H as [qpt [_ H]].
  apply bind_ok in H as [dm [_ H]].
  apply bind_ok in H as [[dm' wa] [_ H]].
  apply bind_ok in H as [nas [_ H]].
  apply bind_ok in H as [st1 [Hf H]].
  apply Ok_inj in H. subst a'. cbn [fst] in *.
  revert Hf. apply foldM_invariant; [|exact Hs].
  intros b ic b' _ Hb. now apply solve_one_shape.
Qed.

Lemma run_loop_shape (x : loop_context) (qpts : list (list Qc))
    (w : list warning) (a : loop_state * list warning) :
  run_loop lib x qpts w = Ok a -> state_shape (List.length qpts) (fst a).
Proof.
  unfold run_loop.
  apply (foldM_invariant
           (fun b => state_shape (List.length qpts) (fst b))).
  - intros b q b' Hq Hb. apply in_seq in Hq.
    apply loop_body_shape; [lia|exact Hb].
  - unfold state_shape, initial_state.
    cbn [fst l_dyn_mats l_freqs l_eigenvecs l_split_i l_split_freqs
         l_split_eigenvecs List.length].
    rewrite !repeat_length. repeat split; constructor.
Qed.

(** X6: when [calculate_fine_phonons] returns, it returns one list of
    frequencies and one array of eigenvectors per q-point and has stored
    one dynamical matrix per q-point; with [set_attrs] the object then
    holds the q-points, what was returned, uniform weights that add up to
    one, and split arrays of one common length whose indices point into the
    q-point list; without [set_attrs] its q-points, weights, frequencies,
    eigenvectors and split arrays are the ones it had. *)
Theorem returned_arrays_match_q_points (self : interpolation_data)
    (new_qpts : list (list Qc)) (o : options) self' fr ev w :
  calculate_fine_phonons lib self new_qpts o = Ok (self', (fr, ev), w) ->
  forall n, n = List.length new_qpts ->
  List.length fr = n /\ List.length ev = n /\
  List.length (dyn_mats self') = n /\
  (opt_set_attrs o = true ->
   n_qpts self' = n /\ qpts self' = new_qpts /\
   freqs self' = fr /\ eigenvecs self' = ev /\
   weights self' = repeat (1 / QcZ (Z.of_nat n)) n /\
   sumQc (weights self') = 1 /\
   List.length (split_freqs self') = List.length (split_i self') /\
   List.length (split_eigenvecs self') = List.length (split_i self') /\
   Forall (fun i => (i < n)%nat) (split_i self')) /\
  (opt_set_attrs o = false ->
   n_qpts self' = n_qpts self /\ qpts self' = qpts self /\
   freqs self' = freqs self /\ eigenvecs self' = eigenvecs self /\
   weights self' = weights self /\ split_i self' = split_i self /\
   split_freqs self' = split_freqs self /\
   split_eigenvecs self' = split_eigenvecs self).
Proof.
  intros H n ->. unfold calculate_fine_phonons in H.
  apply bind_ok in H as [[[x fa] w0] [_ H]].
  apply bind_ok in H as [[st w1] [Hl H]].
  apply run_loop_shape in Hl. cbn [fst] in Hl.
  destruct Hl as (H1 & H2 & H3 & H4 & H5 & H6).
  apply bind_ok in H as [s1 [Hs H]].
  apply Ok_inj in H. injection H as -> <- <- _.
  rewrite length_map.
  destruct (opt_set_attrs o).
  - destruct (Nat.eqb (List.length new_qpts) 0) eqn:E; [discriminate|].
    apply Nat.eqb_neq in E.
    apply Ok_inj in Hs. subst self'.
    cbn [dyn_mats n_qpts qpts freqs eigenvecs weights split_i split_freqs
         split_eigenvecs].
    repeat split; try assumption; try discriminate.
    + rewrite sumQc_repeat. field. apply QcZ_nonzero. lia.
    + now rewrite length_map.
  - apply Ok_inj in Hs. subst self'.
    cbn [dyn_mats n_qpts qpts freqs eigenvecs weights split_i split_freqs
         split_eigenvecs].
    repeat split; try assumption; try discriminate.
Qed.

(** X7: without Born charges, without a dielectric tensor, or with
    [dipole=False], the flags [dipole] and [splitting] change nothing:
    the run is the run with both switched off. *)
Theorem dipole_flags_ignored (self : interpolation_data)
    (new_qpts : list (list Qc)) (o : options) :
  opt_dipole o = false \/ born self = None \/ dielectric self = None ->
  calculate_fine_phonons lib self new_qpts o
  = calculate_fine_phonons lib self new_qpts (without_dipole o).
Proof.
  intros H.
  assert (Hd : opt_dipole o && is_some (born self)
               && is_some (dielectric self) = false).
  { destruct H as [->|[->| ->]]; cbn [is_some andb];
      rewrite ?andb_false_r; reflexivity. }
  assert (Hp : prepare lib self o = prepare lib self (without_dipole o)).
  { unfold prepare.
    cbn [without_dipole opt_asr opt_precondition opt_dipole opt_splitting].
    rewrite Hd. cbn [andb]. cbv zeta. rewrite andb_false_r. reflexivity. }
  unfold calculate_fine_phonons. rewrite Hp. reflexivity.
Qed.

(** X8: for an empty list of q-points, once the set-up has succeeded,
    [calculate_fine_phonons] with [set_attrs] raises [ZeroDivisionError]
    (from [1.0/n_qpts]) instead of returning; without [set_attrs] it
    returns two empty arrays and the warnings of the set-up. *)
Theorem empty_q_point_list (self : interpolation_data) (o : options)
    x fc_asr warned :
  prepare lib self o = Ok (x, fc_asr, warned) ->
  (opt_set_attrs o = true ->
   calculate_fine_phonons lib self [] o = Raise ZeroDivisionError) /\
  (opt_set_attrs o = false ->
   exists self', calculate_fine_phonons lib self [] o
                 = Ok (self', ([], []), warned)).
Proof.
  intros Hp. unfold calculate_fine_phonons. rewrite Hp. cbn [bind].
  unfold run_loop. cbn [List.length seq foldM bind].
  split; intros ->; cbn [Nat.eqb bind]; [reflexivity|].
  eexists. unfold initial_state.
  cbn [l_freqs l_eigenvecs l_split_freqs repeat map]. reflexivity.
Qed.

(** What [prepare] finds on an object that holds the caches of an earlier
    run. *)
Lemma prepare_cached (self self1 : interpolation_data) (o : options)
    x fc_asr warned :
  prepare lib self o = Ok (x, fc_asr, warned) ->
  crys self1 = crys self -> born self1 = born self ->
  dielectric self1 = dielectric self ->
  force_constants_asr self1 = fc_asr ->
  eta self1 = x_ewald x -> images self1 = Some (x_images x) ->
  exists warned', prepare lib self1 o = Ok (x, fc_asr, warned').
Proof.
  intros Hp Hc Hb Hd Hf He Hi. unfold prepare in *.
  rewrite Hc, Hb, Hd, Hi.
  apply bind_ok in Hp as [[[fc fa] w0] [Hfa Hp]].
  apply bind_ok in Hp as [ew [Hew Hp]].
  apply bind_ok in Hp as [img [Himg Hp]].
  apply bind_ok in Hp as [gamma [Hg Hp]].
  apply Ok_inj in Hp.
  assert (Hx : x_ewald x = ew /\ x_images x = img /\ fa = fc_asr).
  { injection Hp as <- <- _. cbn. auto. }
  destruct Hx as (Hxe & Hxi & Hxf). subst fa.
  rewrite Hxe in He. rewrite Hxi.
  assert (Hfa' : exists w',
             match opt_asr o, force_constants_asr self1 with
             | Some realspace, None =>
                 r <- enforce_realspace_asr (eigh_real lib) (crys self) ;;
                 Ok (fst r, Some (fst r), snd r)
             | Some realspace, Some fc0 => Ok (fc0, Some fc0, [])
             | _, cached => Ok (force_constants (crys self), cached, [])
             end = Ok (fc, fc_asr, w')).
  { rewrite Hf. destruct (opt_asr o) as [[|]|].
    - destruct (force_constants_asr self) as [fc0|].
      + apply Ok_inj in Hfa. injection Hfa as <- <- _. eauto.
      + apply bind_ok in Hfa as [r [_ Hfa]].
        apply Ok_inj in Hfa. injection Hfa as <- <- _. eauto.
    - apply Ok_inj in Hfa. injection Hfa as <- <- _. eauto.
    - apply Ok_inj in Hfa. injection Hfa as <- <- _. eauto. }
  destruct Hfa' as [w' Hfa']. exists w'. rewrite Hfa'. cbn [bind].
  assert (Hew' :
            match
              opt_dipole o && is_some (born self)
              && is_some (dielectric self),
              eta self1, born self, dielectric self
            with
            | true, None, Some b, Some d =>
                e <- dipole_correction_init (np_exp_j lib) (np_sqrt lib)
                       (np_exp lib) (erfc lib) (np_power lib)
                       (reciprocal_lattice lib) (crys self) b d ;;
                Ok (Some e)
            | _, cached, _, _ => Ok cached
            end = Ok ew).
  { rewrite He.
    destruct (opt_dipole o && is_some (born self)
              && is_some (dielectric self)).
    - destruct ew as [e|]; [reflexivity|].
      destruct (eta self); [discriminate|].
      destruct (born self); [|reflexivity].
      destruct (dielectric self); [|reflexivity].
      apply bind_ok in Hew as [e [_ Hew]]. discriminate.
    - now destruct ew. }
  cbv zeta in Hew'. rewrite Hew'. cbn [bind]. rewrite Hg. cbn [bind].
  injection Hp as <- _. reflexivity.
Qed.

(** X9: the caches left on the object by a run that returned
    ([force_constants_asr], the Ewald set-up, the supercell images) are
    transparent: a later run with the same options, on any q-points,
    returns from the object the run returned the frequencies and
    eigenvectors it returns from the original object, or raises the same
    exception. *)
Theorem cached_setup_is_transparent (self : interpolation_data)
    (new_qpts : list (list Qc)) (o : options) self1 out w
    (later_qpts : list (list Qc)) :
  calculate_fine_phonons lib self new_qpts o = Ok (self1, out, w) ->
  rmap (fun r => snd (fst r))
       (calculate_fine_phonons lib self1 later_qpts o)
  = rmap (fun r => snd (fst r))
         (calculate_fine_phonons lib self later_qpts o).
Proof.
  intros H. unfold calculate_fine_phonons in H.
  destruct (prepare lib self o) as [[[x fa] w0]|] eqn:Hp; [|discriminate].
  cbn [bind] in H.
  apply bind_ok in H as [[st w1] [_ H]].
  apply bind_ok in H as [s1 [Hs H]].
  apply Ok_inj in H. injection H as -> _ _.
  assert (Hself : crys self1 = crys self /\ born self1 = born self /\
                  dielectric self1 = dielectric self /\
                  force_constants_asr self1 = fa /\
                  eta self1 = x_ewald x /\
                  images self1 = Some (x_images x) /\
                  freqs_units self1 = freqs_units self /\
                  split_freqs_units self1 = split_freqs_units self).
  { destruct (opt_set_attrs o);
      [destruct (Nat.eqb (List.length new_qpts) 0); [discriminate|]|];
      apply Ok_inj in Hs; subst self1; cbn; repeat split. }
  destruct Hself as (Hc & Hb & Hd & Hf & He & Hi & Hu & Hsu).
  destruct (@prepare_cached self self1 o x fa w0 Hp Hc Hb Hd Hf He Hi)
    as [w' Hp'].
  unfold calculate_fine_phonons. rewrite Hp, Hp'. cbn [bind].
  pose proof (foldM_related same_state
                (loop_body lib x later_qpts) (loop_body lib x later_qpts)
                (seq 0 (List.length later_qpts))
                (fun a a' q Ha =>
                   loop_body_same_state lib later_qpts (or_introl eq_refl)
                                        q Ha)
                (initial_state (n_ions (x_crystal x))
                               (List.length later_qpts), w')
                (initial_state (n_ions (x_crystal x))
                               (List.length later_qpts), w0)
                eq_refl) as Hrel.
  unfold run_loop.
  destruct (foldM _ _ (_, w')) as [[st1 wa]|e1],
           (foldM _ _ (_, w0)) as [[st2 wb]|e2]; cbn in Hrel;
    try contradiction.
  - unfold same_state in Hrel. cbn in Hrel. subst st2.
    cbn [bind]. rewrite Hu.
    destruct (opt_set_attrs o);
      [destruct (Nat.eqb (List.length later_qpts) 0)|]; reflexivity.
  - subst e2. reflexivity.
Qed.

End Runs.

(** ** [_get_all_origins] lists a box in row-major order *)

Lemma nth_np_repeat {A : Type} (l : list A) (n k : nat) (d : A) :
  (k < List.length l * n)%nat ->
  nth k (np_repeat l n) d = nth (k / n) l d.
Proof.
  unfold np_repeat. revert k. induction l as [|x l IH]; intros k Hk.
  - cbn in Hk. lia.
  - assert (Hn : (0 < n)%nat) by (destruct n; [cbn in Hk|]; lia).
    cbn [flat_map]. destruct (Nat.lt_ge_cases k n) as [Hlt|Hge].
    + rewrite app_nth1 by now rewrite repeat_length.
      rewrite Nat.div_small by exact Hlt. cbn [nth].
      apply nth_repeat_lt. exact Hlt.
    + rewrite app_nth2 by now rewrite repeat_length.
      rewrite repeat_length, IH by (cbn [List.length] in Hk; nia).
      replace k with ((k - n) + 1 * n)%nat at 2 by lia.
      rewrite Nat.div_add by lia.
      replace (_ + 1)%nat with (Datatypes.S ((k - n) / n)) by lia.
      reflexivity.
Qed.

Lemma nth_np_tile {A : Type} (l : list A) (n k : nat) (d : A) :
  (k < List.length l * n)%nat ->
  nth k (np_tile l n) d = nth (k mod List.length l) l d.
Proof.
  unfold np_tile. revert k. induction n as [|n IH]; intros k Hk; [lia|].
  assert (Hl : (0 < List.length l)%nat) by (destruct l; [cbn in Hk|cbn]; lia).
  cbn [repeat List.concat]. destruct (Nat.lt_ge_cases k (List.length l)).
  - rewrite app_nth1 by assumption. now rewrite Nat.mod_small.
  - rewrite app_nth2 by assumption. rewrite IH by nia.
    replace k with ((k - List.length l) + 1 * List.length l)%nat at 2 by lia.
    now rewrite Nat.Div0.mod_add.
Qed.

Lemma nth_range (lo hi : Z) (k : nat) :
  (k < Z.to_nat (hi - lo))%nat ->
  nth k (range lo hi) 0%Z = (lo + Z.of_nat k)%Z.
Proof.
  intros Hk. unfold range.
  rewrite (nth_map_in _ _ 0%Z 0%nat) by now rewrite length_seq.
  now rewrite seq_nth.
Qed.

(** X10: for a box whose upper corner is not below its lower corner,
    [_get_all_origins] lists every cell of the box once, in row-major
    order (the third coordinate running fastest): entry number [k] of the
    [nx * ny * nz] entries is the cell
    [(x0 + k / (ny nz), y0 + (k / nz) mod ny, z0 + k mod nz)]. *)
Theorem get_all_origins_row_major (x0 x1 y0 y1 z0 z1 : Z) :
  (x0 <= x1)%Z -> (y0 <= y1)%Z -> (z0 <= z1)%Z ->
  forall nx ny nz,
    nx = Z.to_nat (x1 - x0) -> ny = Z.to_nat (y1 - y0) ->
    nz = Z.to_nat (z1 - z0) ->
    List.length (get_all_origins [x1; y1; z1] [x0; y0; z0])
    = (nx * ny * nz)%nat /\
    forall k, (k < nx * ny * nz)%nat ->
      nth k (get_all_origins [x1; y1; z1] [x0; y0; z0]) []
      = [(x0 + Z.of_nat (k / (ny * nz)))%Z;
         (y0 + Z.of_nat ((k / nz) mod ny))%Z;
         (z0 + Z.of_nat (k mod nz))%Z].
Proof.
  intros Hx Hy Hz nx ny nz Hnx Hny Hnz.
  unfold get_all_origins. cbv zeta. cbn [combine map nth fst snd].
  replace (Z.to_nat (Z.abs (x1 - x0))) with nx by lia.
  replace (Z.to_nat (Z.abs (y1 - y0))) with ny by lia.
  replace (Z.to_nat (Z.abs (z1 - z0))) with nz by lia.
  set (X := np_repeat (range x0 x1) (ny * nz)).
  set (Y := np_repeat (np_tile (range y0 y1) nx) nz).
  set (Zs := np_tile (range z0 z1) (nx * ny)).
  assert (LX : List.length X = (nx * ny * nz)%nat).
  { unfold X. rewrite length_np_repeat, length_range. lia. }
  assert (LY : List.length Y = (nx * ny * nz)%nat).
  { unfold Y. rewrite length_np_repeat, length_np_tile, length_range. lia. }
  assert (LZ : List.length Zs = (nx * ny * nz)%nat).
  { unfold Zs. rewrite length_np_tile, length_range. lia. }
  split.
  - rewrite length_map, !length_combine. lia.
  - intros k Hk.
    assert (Hnx0 : (0 < nx)%nat) by (destruct nx; lia).
    assert (Hny0 : (0 < ny)%nat) by (destruct ny; lia).
    assert (Hnz0 : (0 < nz)%nat) by (destruct nz; lia).
    rewrite (nth_map_in _ _ [] (0%Z, 0%Z, 0%Z))
      by (rewrite !length_combine; lia).
    rewrite (combine_nth (combine X Y) Zs k (0%Z, 0%Z) 0%Z)
      by (rewrite length_combine; lia).
    rewrite (combine_nth X Y k 0%Z 0%Z) by lia. cbn [fst snd].
    unfold X, Y, Zs.
    assert (Hkq : (k / nz < nx * ny)%nat)
      by (apply Nat.Div0.div_lt_upper_bound; lia).
    rewrite nth_np_repeat by (rewrite length_range; lia).
    rewrite nth_range
      by (rewrite <- Hnx; apply Nat.Div0.div_lt_upper_bound; lia).
    rewrite nth_np_repeat by (rewrite length_np_tile, length_range; lia).
    rewrite nth_np_tile by (rewrite length_range; lia).
    rewrite length_range, <- Hny.
    rewrite nth_range by (rewrite <- Hny; apply Nat.mod_upper_bound; lia).
    rewrite nth_np_tile by (rewrite length_range; lia).
    rewrite length_range, <- Hnz.
    rewrite nth_range by (rewrite <- Hnz; apply Nat.mod_upper_bound; lia).
    reflexivity.
Qed.

Lemma get_all_origins_witness :
  List.length (get_all_origins [3; 3; 3]%Z [-2; -2; -2]%Z) = 125%nat /\
  nth 62 (get_all_origins [3; 3; 3]%Z [-2; -2; -2]%Z) [] = [0; 0; 0]%Z.
Proof.
  destruct (@get_all_origins_row_major (-2) 3 (-2) 3 (-2) 3
              ltac:(lia) ltac:(lia) ltac:(lia) 5%nat 5%nat 5%nat
              eq_refl eq_refl eq_refl) as [Hl Hn].
  split; [exact Hl|]. rewrite (Hn 62%nat) by (cbn; lia). reflexivity.
Defined.

(** Runs on the cubic cell without charges. *)
Definition plain_cubic : interpolation_data :=
  fresh_data (cubic_cell [[1; 0; 0]; [0; QcZ 4; 0]; [0; 0; QcZ 9]]) None None.

Lemma returned_arrays_witness :
  exists self' fr ev w,
    calculate_fine_phonons exact_library plain_cubic
        [[half; 0; 0]; [0; 0; 0]] default_options
    = Ok (self', (fr, ev), w) /\
    List.length fr = 2%nat /\ sumQc (weights self') = 1.
Proof.
  destruct (ok_exists
              (calculate_fine_phonons exact_library plain_cubic
                   [[half; 0; 0]; [0; 0; 0]] default_options)
              (fun _ => true)) as [[[s [fr ev]] w] [Hr _]];
    [vm_compute; reflexivity|].
  exists s, fr, ev, w. split; [exact Hr|].
  pose proof (@returned_arrays_match_q_points
                exact_library plain_cubic
                [[half; 0; 0]; [0; 0; 0]] default_options s fr ev w Hr
                2%nat eq_refl) as (H1 & _ & _ & Hs & _).
  split; [exact H1|]. apply Hs. reflexivity.
Defined.

Lemma dipole_flags_witness :
  calculate_fine_phonons exact_library plain_cubic [[half; 0; 0]]
      default_options
  = calculate_fine_phonons exact_library plain_cubic [[half; 0; 0]]
        (without_dipole default_options).
Proof.
  apply dipole_flags_ignored. right. left. reflexivity.
Defined.

Lemma empty_q_point_list_witness :
  calculate_fine_phonons exact_library plain_cubic [] default_options
  = Raise ZeroDivisionError /\
  exists self',
    calculate_fine_phonons exact_library plain_cubic []
        (mkOptions None false false true true)
    = Ok (self', ([], []), []).
Proof.
  destruct (ok_exists
              (prepare exact_library
                       plain_cubic default_options)
              (fun r => match snd r with [] => true | _ => false end))
    as [[[x fa] w] [Hp Hw]]; [vm_compute; reflexivity|].
  cbn [snd] in Hw. destruct w; [|discriminate].
  split.
  - exact (proj1 (@empty_q_point_list
                    exact_library
                    plain_cubic default_options x fa [] Hp) eq_refl).
  - exact (proj2 (@empty_q_point_list
                    exact_library
                    plain_cubic (mkOptions None false false true true)
                    x fa [] Hp) eq_refl).
Defined.

Lemma cached_setup_witness :
  exists self1 out w,
    calculate_fine_phonons exact_library plain_cubic [[half; 0; 0]]
        default_options
    = Ok (self1, out, w) /\
    images self1 <> None /\
    rmap (fun r => snd (fst r))
         (calculate_fine_phonons exact_library self1 [[0; half; 0]]
              default_options)
    = rmap (fun r => snd (fst r))
           (calculate_fine_phonons exact_library plain_cubic [[0; half; 0]]
                default_options).
Proof.
  destruct (ok_exists
              (calculate_fine_phonons exact_library plain_cubic
                   [[half; 0; 0]] default_options)
              (fun r => is_some (images (fst (fst r)))))
    as [[[s out] w] [Hr Hi]]; [vm_compute; reflexivity|].
  exists s, out, w. split; [exact Hr|]. split.
  - cbn [fst] in Hi. destruct (images s); [discriminate|discriminate Hi].
  - exact (@cached_setup_is_transparent
             exact_library plain_cubic
             [[half; 0; 0]] default_options s out w [[0; half; 0]] Hr).
Defined.

(** ** The Monkhorst-Pack grid of [dw_coeff] (simphony/calculate/scattering.py)

    Lines 135-151 of [dw_coeff], for [grid = [g0, g1, g2]] with positive
    entries: the q-points on which the Debye-Waller coefficients are
    computed. *)

(** [np.true_divide(2*(np.arange(n) + 1) - n - 1, 2*n)]. *)
Definition mp_axis (n : Z) : list Qc :=
  map (fun r => QcZ (2 * (r + 1) - n - 1) / QcZ (2 * n)) (range 0 n).

Definition mp_grid (g0 g1 g2 : Z) : list (list Qc) :=
  let qh := np_repeat (mp_axis g0) (Z.to_nat (g1 * g2)) in
  let qk := np_tile (np_repeat (mp_axis g1) (Z.to_nat g2)) (Z.to_nat g0) in
  let ql := np_tile (mp_axis g2) (Z.to_nat (g0 * g1)) in
  map (fun p => [fst (fst p); snd (fst p); snd p])
      (combine (combine qh qk) ql).

(** The q-points of the grid are handed to [calculate_fine_phonons] with
    [set_attrs=False], the object's own [asr] and [dipole], and the
    defaults otherwise (lines 154-155). *)
Definition dw_grid_phonons (lib : library) (data : interpolation_data)
    (g0 g1 g2 : Z) :=
  calculate_fine_phonons lib data (mp_grid g0 g1 g2)
    (mkOptions (asr data) false false (dipole data) true).

Lemma length_mp_axis (n : Z) : List.length (mp_axis n) = Z.to_nat n.
Proof.
  unfold mp_axis. rewrite length_map, length_range. f_equal. lia.
Qed.

Lemma QcZ_div_pos (a : Z) (p : positive) :
  QcZ a / QcZ (Zpos p) = Q2Qc (Qmake a p).
Proof.
  apply Qc_is_canon. unfold Qcdiv, Qcmult, Qcinv, QcZ, Q2Qc. cbn [this].
  rewrite !Qred_correct. rewrite (Qmake_Qdiv a p). reflexivity.
Qed.

Lemma mp_axis_bounds (n : Z) (x : Qc) :
  In x (mp_axis n) -> Q2Qc (-1 # 2) < x /\ x < Q2Qc (1 # 2).
Proof.
  unfold mp_axis, range. rewrite map_map. intros H.
  apply in_map_iff in H as [k [<- Hk]]. apply in_seq in Hk.
  assert (Hn : (0 < n)%Z) by lia.
  destruct n as [|p|p]; try lia.
  change (2 * Z.pos p)%Z with (Z.pos (2 * p)). rewrite QcZ_div_pos.
  unfold Qclt, Q2Qc. cbn [this]. rewrite !Qred_correct.
  unfold Qlt. cbn [Qnum Qden]. lia.
Qed.

Lemma mp_axis_opposite (n : Z) : rev (mp_axis n) = map Qcopp (mp_axis n).
Proof.
  unfold mp_axis, range. rewrite <- !map_rev, rev_seq, !map_map.
  apply map_ext_in. intros k Hk. apply in_seq in Hk.
  replace (2 * (0 + Z.of_nat (Z.to_nat (n - 0) - 1 - k) + 1) - n - 1)%Z
    with (- (2 * (0 + Z.of_nat k + 1) - n - 1))%Z by lia.
  rewrite QcZ_opp. unfold Qcdiv. ring.
Qed.

Lemma In_np_repeat {A : Type} (x : A) (l : list A) (n : nat) :
  In x (np_repeat l n) -> In x l.
Proof.
  unfold np_repeat. intros H. apply in_flat_map in H as [y [Hy Hx]].
  apply repeat_spec in Hx. now subst.
Qed.

Lemma In_np_tile {A : Type} (x : A) (l : list A) (n : nat) :
  In x (np_tile l n) -> In x l.
Proof.
  unfold np_tile. intros H. apply in_concat in H as [r [Hr Hx]].
  apply repeat_spec in Hr. now subst.
Qed.

(** X11: for a grid with positive entries, the Monkhorst-Pack q-points of
    [dw_coeff] are [g0 g1 g2] in number, every coordinate lies strictly
    between -1/2 and 1/2, and the list read backwards is the list of the
    opposite q-points: the grid is symmetric under inversion. *)
Theorem mp_grid_symmetric (g0 g1 g2 : Z) :
  (0 < g0)%Z -> (0 < g1)%Z -> (0 < g2)%Z ->
  List.length (mp_grid g0 g1 g2) = Z.to_nat (g0 * g1 * g2) /\
  rev (mp_grid g0 g1 g2) = map negate (mp_grid g0 g1 g2) /\
  Forall (fun q => List.length q = 3%nat /\
                   Forall (fun x => Q2Qc (-1 # 2) < x /\ x < Q2Qc (1 # 2)) q)
         (mp_grid g0 g1 g2).
Proof.
  intros H0 H1 H2. unfold mp_grid. cbv zeta.
  set (X := np_repeat (mp_axis g0) (Z.to_nat (g1 * g2))).
  set (Y := np_tile (np_repeat (mp_axis g1) (Z.to_nat g2)) (Z.to_nat g0)).
  set (Zs := np_tile (mp_axis g2) (Z.to_nat (g0 * g1))).
  assert (LX : List.length X = Z.to_nat (g0 * g1 * g2)).
  { unfold X. rewrite length_np_repeat, length_mp_axis. nia. }
  assert (LY : List.length Y = Z.to_nat (g0 * g1 * g2)).
  { unfold Y. rewrite length_np_tile, length_np_repeat, length_mp_axis. nia. }
  assert (LZ : List.length Zs = Z.to_nat (g0 * g1 * g2)).
  { unfold Zs. rewrite length_np_tile, length_mp_axis. nia. }
  repeat split.
  - rewrite length_map, !length_combine. lia.
  - rewrite <- map_rev, !rev_combine by (rewrite ?length_combine; lia).
    unfold X, Y, Zs.
    rewrite rev_np_repeat, !rev_np_tile, rev_np_repeat, !mp_axis_opposite.
    rewrite !np_repeat_map, !np_tile_map.
    rewrite !combine_map, !map_map. reflexivity.
  - apply Forall_forall. intros q Hq.
    apply in_map_iff in Hq as [[[a b] c] [<- Hq]]. cbn [fst snd].
    split; [reflexivity|].
    pose proof (in_combine_l _ _ _ _ Hq) as Hab.
    pose proof (in_combine_r _ _ _ _ Hq) as Hc.
    pose proof (in_combine_l _ _ _ _ Hab) as Ha.
    pose proof (in_combine_r _ _ _ _ Hab) as Hb.
    repeat constructor.
    + eapply mp_axis_bounds, In_np_repeat; exact Ha.
    + eapply mp_axis_bounds, In_np_repeat; exact Ha.
    + eapply mp_axis_bounds, In_np_repeat, In_np_tile; exact Hb.
    + eapply mp_axis_bounds, In_np_repeat, In_np_tile; exact Hb.
    + eapply mp_axis_bounds, In_np_tile; exact Hc.
    + eapply mp_axis_bounds, In_np_tile; exact Hc.
Qed.

Lemma mp_grid_witness :
  List.length (mp_grid 2 3 4) = 24%nat /\
  rev (mp_grid 2 3 4) = map negate (mp_grid 2 3 4).
Proof.
  destruct (@mp_grid_symmetric 2 3 4 eq_refl eq_refl eq_refl)
    as (Hl & Hr & _).
  split; [exact Hl|exact Hr].
Defined.

(** ** Fortran records: [read_entry] of [_read_interpolation_data]

    Lines 202-230.  A file open for reading in binary mode is the list of
    the bytes not read yet, each a number below 256. *)

Inductive read_error : Type :=
| StructError        (* [struct.error]: [struct.unpack] on the wrong
                        number of bytes *)
| ReadValueError     (* [ValueError]: [read] of a length below -1 *)
| SystemExit.        (* [sys.exit("Problem reading binary file ...")] *)

Inductive outcome (A : Type) : Type :=
| Done (a : A)
| Fail (e : read_error).
Arguments Done {A} a.
Arguments Fail {A} e.

Definition and_then {A B : Type} (r : outcome A) (k : A -> outcome B)
  : outcome B :=
  match r with
  | Done a => k a
  | Fail e => Fail e
  end.

(** [file_obj.read(n)] of Python 3: up to [n] bytes, all the bytes left for
    [n = -1]; what is read and what is left. *)
Definition file_read (n : Z) (f : list Z) : outcome (list Z * list Z) :=
  if (n <? -1)%Z then Fail ReadValueError
  else if (n =? -1)%Z then Done (f, [])
  else Done (firstn (Z.to_nat n) f, skipn (Z.to_nat n) f).

(** [struct.unpack('>i', b)[0]]: four bytes, the first the most
    significant, as a signed integer. *)
Definition unpack_int (b : list Z) : outcome Z :=
  match b with
  | [b0; b1; b2; b3] =>
      let u := (b0 * 2 ^ 24 + b1 * 2 ^ 16 + b2 * 2 ^ 8 + b3)%Z in
      Done (if (u <? 2 ^ 31)%Z then u else (u - 2 ^ 32)%Z)
  | _ => Fail StructError
  end.

Definition record_mark_read (f : list Z) : outcome (Z * list Z) :=
  and_then (file_read 4 f) (fun r =>
  and_then (unpack_int (fst r)) (fun v => Done (v, snd r))).

(** What [read_entry] returns: bytes, one integer, or an array of
    integers. *)
Inductive entry : Type :=
| Bytes (b : list Z)
| Int (z : Z)
| IntArray (zs : list Z).

(** [np.fromfile(file_obj, dtype='>i4', count=n)]: [None] when the file
    holds fewer than [n] integers, in which case the array comes back
    short and fewer than four bytes are left. *)
Fixpoint fromfile_int (n : nat) (f : list Z) : option (list Z * list Z) :=
  match n with
  | O => Some ([], f)
  | S k =>
      match unpack_int (firstn 4 f) with
      | Done z =>
          match fromfile_int k (skipn 4 f) with
          | Some (zs, rest) => Some (z :: zs, rest)
          | None => None
          end
      | Fail _ => None
      end
  end.

(** [read_entry(file_obj)] and [read_entry(file_obj, '>i4')]. *)
Definition read_entry (int_type : bool) (f : list Z)
  : outcome (entry * list Z) :=
  and_then (record_mark_read f) (fun m =>
  let (begin, f1) := m in
  and_then
    (if int_type then
       let n_elems := Z.quot begin 4 in
       if (1 <? n_elems)%Z then
         match fromfile_int (Z.to_nat n_elems) f1 with
         | Some (zs, rest) => Done (IntArray zs, rest)
         | None => Fail StructError   (* from the closing marker *)
         end
       else
         and_then (file_read begin f1) (fun r =>
         and_then (unpack_int (fst r)) (fun z => Done (Int z, snd r)))
     else
       and_then (file_read begin f1) (fun r => Done (Bytes (fst r), snd r)))
    (fun d =>
  and_then (record_mark_read (snd d)) (fun m' =>
  if (begin =? fst m')%Z then Done (fst d, snd m') else Fail SystemExit))).

(** How Fortran writes an integer and a record. *)
Definition pack_int (z : Z) : list Z :=
  let u := (z mod 2 ^ 32)%Z in
  [(u / 2 ^ 24) mod 256; (u / 2 ^ 16) mod 256; (u / 2 ^ 8) mod 256;
   u mod 256]%Z.

Definition fortran_record (payload : list Z) : list Z :=
  pack_int (Z.of_nat (List.length payload)) ++ payload
  ++ pack_int (Z.of_nat (List.length payload)).

Definition int32 (z : Z) : Prop := (- 2 ^ 31 <= z < 2 ^ 31)%Z.

Lemma unpack_pack (z : Z) : int32 z -> unpack_int (pack_int z) = Done z.
Proof.
  unfold int32, unpack_int, pack_int. intros Hz. cbv zeta. f_equal.
  assert (Hu : (0 <= z mod 2 ^ 32 < 2 ^ 32)%Z)
    by (apply Z.mod_pos_bound; lia).
  assert (E : ((z mod 2 ^ 32 / 2 ^ 24) mod 256 * 2 ^ 24
               + (z mod 2 ^ 32 / 2 ^ 16) mod 256 * 2 ^ 16
               + (z mod 2 ^ 32 / 2 ^ 8) mod 256 * 2 ^ 8
               + (z mod 2 ^ 32) mod 256 = z mod 2 ^ 32)%Z).
  { generalize dependent (z mod 2 ^ 32)%Z. intros u Hu.
    change (2 ^ 32)%Z with 4294967296%Z in *.
    change (2 ^ 24)%Z with 16777216%Z. change (2 ^ 16)%Z with 65536%Z.
    change (2 ^ 8)%Z with 256%Z.
    Z.to_euclidean_division_equations. lia. }
  rewrite E.
  change (2 ^ 32)%Z with 4294967296%Z in *.
  change (2 ^ 31)%Z with 2147483648%Z in *.
  destruct (Z.ltb_spec (z mod 4294967296) 2147483648);
    Z.to_euclidean_division_equations; lia.
Qed.

Lemma length_pack_int (z : Z) : List.length (pack_int z) = 4%nat.
Proof. reflexivity. Qed.

Lemma file_read_app (l rest : list Z) :
  file_read (Z.of_nat (List.length l)) (l ++ rest) = Done (l, rest).
Proof.
  unfold file_read.
  destruct (Z.ltb_spec (Z.of_nat (List.length l)) (-1)); [lia|].
  destruct (Z.eqb_spec (Z.of_nat (List.length l)) (-1)); [lia|].
  rewrite Nat2Z.id, firstn_app, skipn_app, Nat.sub_diag, firstn_all,
    skipn_all.
  cbn [firstn skipn app]. now rewrite app_nil_r.
Qed.

Lemma record_mark_pack (z : Z) (rest : list Z) :
  int32 z -> record_mark_read (pack_int z ++ rest) = Done (z, rest).
Proof.
  intros Hz. unfold record_mark_read.
  change 4%Z with (Z.of_nat (List.length (pack_int z))).
  rewrite file_read_app. cbn [and_then fst snd].
  now rewrite unpack_pack.
Qed.

Lemma int32_length (l : list Z) :
  (Z.of_nat (List.length l) < 2 ^ 31)%Z -> int32 (Z.of_nat (List.length l)).
Proof. unfold int32. lia. Qed.

(** X12: a Fortran record, the payload between two markers that hold its
    length, is read back by [read_entry] as the payload, with the file
    left at the first byte after the record. *)
Theorem read_entry_round_trip (payload rest : list Z) :
  (Z.of_nat (List.length payload) < 2 ^ 31)%Z ->
  read_entry false (fortran_record payload ++ rest)
  = Done (Bytes payload, rest).
Proof.
  intros Hl. unfold read_entry, fortran_record. rewrite <- !app_assoc.
  rewrite record_mark_pack by now apply int32_length.
  cbn [and_then]. rewrite file_read_app. cbn [and_then fst snd].
  rewrite record_mark_pack by now apply int32_length.
  cbn [and_then fst snd]. now rewrite Z.eqb_refl.
Qed.

Lemma read_entry_witness :
  read_entry false (fortran_record [69; 78; 68]%Z ++ [0; 0; 0; 4]%Z)
  = Done (Bytes [69; 78; 68]%Z, [0; 0; 0; 4]%Z).
Proof. apply read_entry_round_trip. reflexivity. Defined.

Lemma fromfile_pack (zs : list Z) (rest : list Z) :
  Forall int32 zs ->
  fromfile_int (List.length zs) (flat_map pack_int zs ++ rest)
  = Some (zs, rest).
Proof.
  induction 1 as [|z zs Hz _ IH]; [reflexivity|].
  cbn [List.length flat_map fromfile_int]. rewrite <- app_assoc.
  replace (firstn 4 (pack_int z ++ flat_map pack_int zs ++ rest))
    with (pack_int z) by reflexivity.
  replace (skipn 4 (pack_int z ++ flat_map pack_int zs ++ rest))
    with (flat_map pack_int zs ++ rest) by reflexivity.
  now rewrite unpack_pack, IH.
Qed.

Lemma length_flat_pack (zs : list Z) :
  List.length (flat_map pack_int zs) = (4 * List.length zs)%nat.
Proof.
  induction zs as [|z zs IH]; [reflexivity|].
  cbn [flat_map]. rewrite length_app, IH, length_pack_int.
  cbn [List.length]. lia.
Qed.

(** X13: a record of 32-bit integers is read back with type ['>i4'] as the
    array of the integers when it holds two or more, and as a bare
    integer, not an array, when it holds one (which is why the caller
    wraps the value in an array when [n_species == 1]). *)
Theorem read_entry_integers (zs : list Z) (rest : list Z) :
  Forall int32 zs -> (Z.of_nat (4 * List.length zs) < 2 ^ 31)%Z ->
  (2 <= List.length zs)%nat \/ List.length zs = 1%nat ->
  read_entry true (fortran_record (flat_map pack_int zs) ++ rest)
  = Done (match zs with
          | [z] => Int z
          | _ => IntArray zs
          end, rest).
Proof.
  intros Hz Hl [Hn|Hn].
  - unfold read_entry, fortran_record.
    rewrite <- !app_assoc, !length_flat_pack.
    assert (H32 : int32 (Z.of_nat (4 * List.length zs)))
      by (unfold int32; lia).
    rewrite record_mark_pack by exact H32. cbn [and_then].
    replace (Z.quot (Z.of_nat (4 * List.length zs)) 4)
      with (Z.of_nat (List.length zs))
      by (rewrite Nat2Z.inj_mul, Z.mul_comm, Z.quot_mul; lia).
    destruct (Z.ltb_spec 1 (Z.of_nat (List.length zs))); [|lia].
    rewrite Nat2Z.id, fromfile_pack by exact Hz.
    cbn [and_then fst snd]. rewrite record_mark_pack by exact H32.
    cbn [and_then fst snd]. rewrite Z.eqb_refl.
    destruct zs as [|z [|z' zs]]; cbn [List.length] in Hn; try lia.
    reflexivity.
  - destruct zs as [|z [|z' zs]]; try discriminate Hn.
    inversion Hz as [|? ? Hz1 _]; subst.
    assert (H4 : int32 4) by (unfold int32; lia).
    unfold read_entry.
    change (fortran_record (flat_map pack_int [z]) ++ rest)
      with (pack_int 4 ++ pack_int z ++ pack_int 4 ++ rest).
    rewrite record_mark_pack by exact H4. cbn [and_then].
    change (1 <? Z.quot 4 4)%Z with false. cbv iota.
    change (file_read 4 (pack_int z ++ pack_int 4 ++ rest))
      with (Done (pack_int z, pack_int 4 ++ rest)).
    cbn [and_then fst snd]. rewrite unpack_pack by exact Hz1.
    cbn [and_then fst snd]. rewrite record_mark_pack by exact H4.
    reflexivity.
Qed.

Lemma read_entry_integers_witness :
  read_entry true (fortran_record (flat_map pack_int [1; -2; 3]%Z) ++ [])
  = Done (IntArray [1; -2; 3]%Z, []) /\
  read_entry true (fortran_record (flat_map pack_int [8]%Z) ++ [])
  = Done (Int 8, []).
Proof.
  split.
  - apply (@read_entry_integers [1; -2; 3]%Z []).
    + repeat constructor; unfold int32; lia.
    + cbn; lia.
    + left. cbn; lia.
  - apply (@read_entry_integers [8]%Z []).
    + repeat constructor; unfold int32; lia.
    + cbn; lia.
    + right. reflexivity.
Defined.

Lemma unpack_short (b : list Z) :
  (List.length b < 4)%nat -> unpack_int b = Fail StructError.
Proof.
  destruct b as [|b0 [|b1 [|b2 [|b3 b]]]]; cbn [List.length]; intros H;
    try reflexivity; lia.
Qed.

(** X14: [read_entry] rejects a damaged record: if the closing marker
    holds another length than the opening one, the program exits
    ([sys.exit]); if the file ends before the closing marker is complete,
    [struct.unpack] raises [struct.error]. *)
Theorem read_entry_damaged (a b : Z) (payload tail : list Z) :
  int32 a -> int32 b -> a = Z.of_nat (List.length payload) ->
  (a <> b ->
   read_entry false (pack_int a ++ payload ++ pack_int b ++ tail)
   = Fail SystemExit) /\
  ((Z.of_nat (List.length tail) < a + 4)%Z ->
   read_entry false (pack_int a ++ tail) = Fail StructError).
Proof.
  intros Ha Hb Hl. split.
  - intros Hab. unfold read_entry. rewrite record_mark_pack by exact Ha.
    cbn [and_then]. rewrite Hl, file_read_app. cbn [and_then fst snd].
    rewrite record_mark_pack by exact Hb. cbn [and_then fst snd].
    rewrite <- Hl. destruct (Z.eqb_spec a b); [contradiction|reflexivity].
  - intros Ht. unfold read_entry. rewrite record_mark_pack by exact Ha.
    cbn [and_then]. unfold file_read at 1.
    destruct (Z.ltb_spec a (-1)); [lia|].
    destruct (Z.eqb_spec a (-1)); [lia|].
    cbn [and_then fst snd]. unfold record_mark_read, file_read.
    cbn [Z.ltb Z.eqb Z.compare and_then fst snd].
    change (Z.to_nat 4) with 4%nat.
    rewrite unpack_short; [reflexivity|].
    rewrite length_firstn, length_skipn. lia.
Qed.

Lemma read_entry_damaged_witness :
  read_entry false (pack_int 3 ++ [69; 78; 68]%Z ++ pack_int 4 ++ [])
  = Fail SystemExit /\
  read_entry false (pack_int 3 ++ [69; 78; 68; 0; 0]%Z) = Fail StructError.
Proof.
  destruct (@read_entry_damaged 3 4 [69; 78; 68]%Z [69; 78; 68; 0; 0]%Z)
    as [H1 H2]; try (unfold int32; lia); [reflexivity|].
  split; [apply H1; lia|apply H2; cbn; lia].
Defined.

(** ** Without preconditioning the q-points are independent *)

Lemma nth_set_nth {A : Type} (l : list A) (q k : nat) (x d : A) :
  nth k (set_nth l q x) d
  = if Nat.eqb k q && Nat.ltb q (List.length l) then x else nth k l d.
Proof.
  revert q k. induction l as [|y l IH]; intros [|q] [|k];
    cbn [set_nth nth List.length Nat.eqb Nat.ltb Nat.leb andb];
    try reflexivity.
  - now rewrite andb_false_r.
  - rewrite IH. reflexivity.
Qed.

Lemma foldM_seq_invariant {B : Type} (P : nat -> B -> Prop)
    (f : B -> nat -> result B) (n : nat) :
  (forall j b b', (j < n)%nat -> P j b -> f b j = Ok b' -> P (S j) b') ->
  forall b b', P 0%nat b -> foldM f (seq 0 n) b = Ok b' -> P n b'.
Proof.
  intros Hf.
  assert (G : forall m a b b', (a + m = n)%nat -> P a b ->
                               foldM f (seq a m) b = Ok b' -> P n b').
  { induction m as [|m IH]; intros a b b' Ha Hb H.
    - apply Ok_inj in H. subst b'. now replace n with a by lia.
    - cbn [seq foldM] in H. apply bind_ok in H as [b1 [H1 H2]].
      apply (IH (S a) b1 b'); [lia| |exact H2].
      apply (Hf a b b1); [lia|exact Hb|exact H1]. }
  intros b b'. now apply G.
Qed.

(** What one pass of the loop computes from the context and the q-point
    alone when no correction depends on the neighbours: the matrix handed
    to the solver, the frequencies, the eigenvectors in both shapes, and
    the warnings. *)
Definition modes_at (lib : library) (x : loop_context) (qpt : list Qc)
  : result (cmatrix * list Qc * list (list (list C)) * cmatrix
            * list warning) :=
  dyn_mat <- dipole_corrected lib x qpt ;;
  dw <- match x_dyn_mat_gamma x with
        | Some dyn_mat_gamma =>
            enforce_reciprocal_asr (eigh lib) dyn_mat_gamma dyn_mat
        | None => Ok (dyn_mat, [])
        end ;;
  let dyn_mat_corr := mmap2 Cscale (x_weighting x) (fst dw) in
  ev <- diagonalise (eigh lib) (zheev lib) dyn_mat_corr ;;
  modes <- mode_set lib (n_ions (x_crystal x)) (fst ev) (snd ev) ;;
  Ok (dyn_mat_corr, fst modes, snd modes, snd ev, snd dw).

Definition store_at (q : nat) (st : loop_state)
    (r : cmatrix * list Qc * list (list (list C)) * cmatrix * list warning)
  : loop_state :=
  let '(dmc, f, v, evecs, _) := r in
  mkLoop evecs (set_nth (l_dyn_mats st) q dmc) (set_nth (l_freqs st) q f)
         (set_nth (l_eigenvecs st) q v) (l_split_i st) (l_split_freqs st)
         (l_split_eigenvecs st).

Section Independence.

Variable lib : library.

Lemma loop_body_modes_at (x : loop_context) (qpts : list (list Qc))
    (st : loop_state) (w : list warning) (q : nat) (qpt : list Qc) :
  x_precondition x = false ->
  x_splitting x && is_gamma qpt = false ->
  py_index qpts (Z.of_nat q) = Ok qpt ->
  loop_body lib x qpts (st, w) q
  = (r <- modes_at lib x qpt ;;
     Ok (store_at q st r, w ++ snd r)).
Proof.
  intros Hpre Hna Hq. unfold loop_body, modes_at. rewrite Hq. cbn [bind].
  destruct (dipole_corrected lib x qpt) as [dm|]; [|reflexivity].
  cbn [bind].
  destruct (match x_dyn_mat_gamma x with
            | Some g => enforce_reciprocal_asr (eigh lib) g dm
            | None => Ok (dm, [])
            end) as [[dm' wa]|]; [|reflexivity].
  cbn [bind fst snd]. unfold na_corrections. rewrite Hna.
  cbn [bind List.length seq combine foldM]. unfold solve_one.
  rewrite Hpre. unfold corrected_matrix.
  destruct (diagonalise _ _ _) as [[evals evecs]|]; [|reflexivity].
  cbn [bind fst snd].
  destruct (mode_set _ _ _ _) as [[f v]|]; [|reflexivity].
  reflexivity.
Qed.

Lemma no_lo_to_at (x : loop_context) (o : options)
    (qpts : list (list Qc)) (qpt : list Qc) :
  x_splitting x = opt_splitting o && x_dipole x ->
  no_lo_to (opt_splitting o) qpts -> In qpt qpts ->
  x_splitting x && is_gamma qpt = false.
Proof.
  intros Hs [Hoff|Hall] Hin.
  - now rewrite Hs, Hoff.
  - rewrite Forall_forall in Hall. rewrite (Hall qpt Hin).
    apply andb_false_r.
Qed.

(** What the loop has stored once it has dealt with the first [j]
    q-points. *)
Definition stored_up_to (x : loop_context) (qpts : list (list Qc))
    (j : nat) (a : loop_state * list warning) : Prop :=
  List.length (l_freqs (fst a)) = List.length qpts /\
  List.length (l_eigenvecs (fst a)) = List.length qpts /\
  forall k, (k < j)%nat ->
    exists r, modes_at lib x (nth k qpts []) = Ok r /\
              nth k (l_freqs (fst a)) [] = snd (fst (fst (fst r))) /\
              nth k (l_eigenvecs (fst a)) [] = snd (fst (fst r)).

Lemma run_loop_stored (x : loop_context) (o : options)
    (qpts : list (list Qc)) (w : list warning) a :
  x_precondition x = false ->
  x_splitting x = opt_splitting o && x_dipole x ->
  no_lo_to (opt_splitting o) qpts ->
  run_loop lib x qpts w = Ok a ->
  stored_up_to x qpts (List.length qpts) a.
Proof.
  intros Hpre Hs Hno. unfold run_loop.
  apply (foldM_seq_invariant (stored_up_to x qpts)).
  - intros j [st w1] b' Hj (L1 & L2 & Hk) H.
    rewrite (@loop_body_modes_at x qpts st w1 j (nth j qpts [])) in H;
      [|exact Hpre
       |apply (@no_lo_to_at x o qpts _ Hs Hno); now apply nth_In
       |now apply py_index_nonneg].
    apply bind_ok in H as [r [Hr H]]. apply Ok_inj in H. subst b'.
    destruct r as [[[[dmc f] v] evecs] wa].
    unfold stored_up_to, store_at.
    cbn [fst snd l_freqs l_eigenvecs] in *.
    rewrite !set_nth_length. repeat split; try assumption.
    intros k Hk'. rewrite !nth_set_nth, L1, L2.
    destruct (Nat.eqb_spec k j) as [->|Hne].
    + assert (Hlt : Nat.ltb j (List.length qpts) = true)
        by now apply Nat.ltb_lt.
      rewrite Hlt. cbn [andb]. exists (dmc, f, v, evecs, wa).
      repeat split. exact Hr.
    + cbn [andb]. apply Hk. lia.
  - unfold stored_up_to, initial_state. cbn [fst l_freqs l_eigenvecs].
    rewrite !repeat_length. repeat split. intros k Hk. lia.
Qed.

(** X15: without preconditioning and without a direction-dependent
    correction (splitting off, or no q-point at the zone centre), the
    q-points of a list do not influence one another: what a run on the
    list returns for q-point number [k] is what the run on that q-point
    alone returns. *)
Theorem q_points_are_independent (self : interpolation_data)
    (new_qpts : list (list Qc)) (o : options) self' fr ev w (k : nat) :
  opt_precondition o = false ->
  no_lo_to (opt_splitting o) new_qpts ->
  calculate_fine_phonons lib self new_qpts o = Ok (self', (fr, ev), w) ->
  (k < List.length new_qpts)%nat ->
  exists self_k w_k,
    calculate_fine_phonons lib self [nth k new_qpts []] o
    = Ok (self_k, ([nth k fr []], [nth k ev []]), w_k).
Proof.
  intros Hpre Hno H Hk. unfold calculate_fine_phonons in *.
  destruct (prepare lib self o) as [[[x fa] w0]|] eqn:Hp; [|discriminate].
  cbn [bind] in *.
  apply bind_ok in H as [[st w1] [Hl H]].
  apply bind_ok in H as [s1 [_ H]].
  apply Ok_inj in H. injection H as _ <- <- _.
  apply prepare_context in Hp as (_ & _ & _ & Hp1 & _ & Hs & _).
  rewrite Hpre in Hp1.
  destruct (@run_loop_stored x o new_qpts w0 _ Hp1 Hs Hno Hl)
    as (L1 & L2 & Hst).
  destruct (Hst k Hk) as [[[[[dmc f] v] evecs] wa] (Hr & Hf & Hv)].
  cbn [fst snd] in *.
  unfold run_loop. cbn [List.length seq foldM].
  rewrite (@loop_body_modes_at x [nth k new_qpts []] _ w0 0
             (nth k new_qpts []));
    [|exact Hp1
     |apply (@no_lo_to_at x o new_qpts _ Hs Hno); now apply nth_In
     |reflexivity].
  rewrite Hr. cbn [bind store_at initial_state l_dyn_mats l_freqs
                   l_eigenvecs l_split_i l_split_freqs l_split_eigenvecs
                   repeat set_nth map].
  rewrite <- Hf, <- Hv.
  replace (nth k (map (map (hartree_to lib (freqs_units self))) (l_freqs st))
               [])
    with (map (hartree_to lib (freqs_units self)) (nth k (l_freqs st) []))
    by (symmetry;
        exact (map_nth (map (hartree_to lib (freqs_units self)))
                       (l_freqs st) [] k)).
  destruct (opt_set_attrs o); cbn [Nat.eqb bind]; eauto.
Qed.

End Independence.

Lemma q_points_are_independent_witness :
  exists self' fr ev w self_k w_k,
    calculate_fine_phonons exact_library plain_cubic
        [[half; 0; 0]; [0; half; 0]] default_options
    = Ok (self', (fr, ev), w) /\
    calculate_fine_phonons exact_library plain_cubic [[0; half; 0]]
        default_options
    = Ok (self_k, ([nth 1 fr []], [nth 1 ev []]), w_k).
Proof.
  destruct (ok_exists
              (calculate_fine_phonons exact_library plain_cubic
                   [[half; 0; 0]; [0; half; 0]] default_options)
              (fun _ => true)) as [[[s [fr ev]] w] [Hr _]];
    [vm_compute; reflexivity|].
  assert (Hno : no_lo_to (opt_splitting default_options)
                          [[half; 0; 0]; [0; half; 0]])
    by (right; repeat constructor).
  pose proof (@q_points_are_independent
                exact_library plain_cubic
                [[half; 0; 0]; [0; half; 0]] default_options s fr ev w
                1%nat eq_refl Hno Hr (le_n 2)) as (sk & wk & Hk).
  exists s, fr, ev, w, sk, wk. split; [exact Hr | exact Hk].
Defined.

(** ** The supercell images index the phases *)

Lemma np_where_bound {A : Type} (cond : A -> bool) (l : list A) :
  Forall (fun z => (0 <= z < Z.of_nat (List.length l))%Z) (np_where cond l).
Proof.
  unfold np_where. apply Forall_forall. intros z Hz.
  apply in_map_iff in Hz as [[k a] [<- Hk]].
  apply filter_In in Hk as [Hk _]. apply in_combine_l in Hk.
  apply in_seq in Hk. cbn [fst]. lia.
Qed.

Lemma Forall_firstn_of {A : Type} (P : A -> Prop) (n : nat) (l : list A) :
  Forall P l -> Forall P (firstn n l).
Proof.
  intros H. revert n. induction H as [|x l Hx _ IH]; intros [|n];
    cbn [firstn]; constructor; auto.
Qed.

Lemma mapM_total {A B : Type} (f : A -> result B) (l : list A) :
  Forall (fun x => exists y, f x = Ok y) l -> exists ys, mapM f l = Ok ys.
Proof.
  induction 1 as [|x l [y Hy] _ [ys IH]]; [now exists []|].
  exists (y :: ys). cbn [mapM]. now rewrite Hy, IH.
Qed.

Lemma py_index_in_range {A : Type} (l : list A) (i : Z) :
  (- Z.of_nat (List.length l) <= i < Z.of_nat (List.length l))%Z ->
  exists x, py_index l i = Ok x.
Proof.
  intros Hi. unfold py_index.
  set (k := if (i <? 0)%Z then (i + Z.of_nat (List.length l))%Z else i).
  assert (Hk : (0 <= k < Z.of_nat (List.length l))%Z)
    by (unfold k; destruct (Z.ltb_spec i 0); lia).
  destruct (Z.leb_spec 0 k); [|lia].
  destruct (Z.ltb_spec k (Z.of_nat (List.length l))); [|lia].
  cbn [andb].
  destruct (nth_error l (Z.to_nat k)) as [x|] eqn:E; [now exists x|].
  apply nth_error_None in E. lia.
Qed.

Lemma length_phases_of (phase : list C) (unique_vals : list (list Z))
    (unique_i : list (list nat)) :
  List.length (phases_of phase unique_vals unique_i) = List.length unique_i.
Proof.
  unfold phases_of.
  assert (G : forall axes acc, List.length acc = List.length unique_i ->
            List.length
              (fold_left
                 (fun acc i =>
                    map2 Cmul acc
                      (map (fun idx =>
                              nth (nth i idx O)
                                  (map (Cpow (nth i phase C0))
                                       (nth i unique_vals [])) C0)
                           unique_i)) axes acc)
            = List.length unique_i).
  { induction axes as [|i axes IH]; intros acc Ha; [exact Ha|].
    cbn [fold_left]. apply IH. unfold map2.
    rewrite length_map, length_combine, length_map. lia. }
  apply G. apply repeat_length.
Qed.

(** The rows that [_calculate_supercell_images] fills. *)
Definition image_row (row : list Z) : Prop :=
  List.length row = 125%nat /\ Forall (fun z => (-1 <= z < 125)%Z) row.

Lemma supercell_image_rows (c : crystal) (t : sc_images) :
  calculate_supercell_images c 2 = Ok t ->
  Forall (Forall (Forall image_row)) (sc_image_i t).
Proof.
  unfold calculate_supercell_images.
  destruct (inv3 _) as [inv|]; [|discriminate]. cbn [bind]. cbv zeta.
  destruct (np_max _) as [m|]; [|discriminate]. cbn [bind].
  intros H. apply Ok_inj in H. subst t. cbn [sc_image_i].
  rewrite Forall_map. apply Forall_forall. intros cell Hcell.
  apply in_map_iff in Hcell as [nc [<- _]].
  rewrite Forall_map. apply Forall_forall. intros r1 Hr1.
  apply in_map_iff in Hr1 as [i [<- _]].
  rewrite Forall_map. apply Forall_forall. intros found Hf.
  apply in_map_iff in Hf as [j [<- _]].
  change (Z.to_nat ((2 * 2 + 1) ^ 3)) with 125%nat.
  match goal with
  | |- image_row (map int8 (firstn 125 (?f ++ _))) =>
      assert (Hb : Forall (fun z => (0 <= z < 125)%Z) f /\
                   (List.length f <= 125)%nat)
  end.
  { unfold triple_images. cbv zeta. split.
    - eapply Forall_impl; [|apply np_where_bound].
      intros z. cbv beta. unfold matmul, ZtoQc_mat.
      rewrite !length_map, candidates_2. intros Hz. exact Hz.
    - eapply Nat.le_trans; [apply np_where_length|].
      unfold matmul, ZtoQc_mat. rewrite !length_map, candidates_2.
      apply Nat.le_refl. }
  destruct Hb as [Hb Hl]. split.
  - rewrite length_map, length_firstn, length_app, repeat_length. lia.
  - rewrite Forall_map. apply Forall_firstn_of, Forall_app. split.
    + eapply Forall_impl; [|exact Hb]. intros z Hz. cbv beta in Hz |- *.
      rewrite int8_small; lia.
    + apply Forall_forall. intros z Hz. apply repeat_spec in Hz. subst.
      change (int8 (-1)) with (-1)%Z. lia.
Qed.

(** X16: every row of [sc_image_i] that [_calculate_supercell_images]
    fills for the image limit 2 has 125 entries, each an index of one of
    the 125 candidate images or the padding -1; so every index that
    [_calculate_dyn_mat] looks up in the phases of the images (to which a
    zero is appended for the padding) is in range, and
    [_calculate_dyn_mat] returns a matrix for every q-point, whatever the
    force constants. *)
Theorem supercell_images_index_the_phases (c : crystal) (t : sc_images) :
  calculate_supercell_images c 2 = Ok t ->
  Forall (Forall (Forall image_row)) (sc_image_i t) /\
  forall (np_exp_j : Qc -> C) (n : nat) (qpt : list Qc)
         (fc_img_weighted : list (list (list Qc)))
         (unique_cell_origins : list (list Z))
         (unique_cell_i : list (list nat)),
    let unique_sc :=
      unique_axes (sc_offsets (sc_matrix c) (image_candidates 2)) in
    exists dyn_mat,
      calculate_dyn_mat np_exp_j n t qpt fc_img_weighted
        (fst unique_sc) (snd unique_sc) unique_cell_origins unique_cell_i
      = Ok dyn_mat.
Proof.
  intros Ht. pose proof (supercell_image_rows c Ht) as Hrows.
  split; [exact Hrows|]. intros np_exp_j n qpt fc uco uci. cbv zeta.
  unfold calculate_dyn_mat, calculate_phases.
  set (sc := phases_of _ (fst _) (snd _)).
  assert (Hsc : List.length (sc ++ [C0]) = 126%nat).
  { unfold sc. rewrite length_app, length_phases_of. unfold unique_axes.
    cbn [snd List.length]. rewrite length_map, length_seq.
    unfold sc_offsets. rewrite length_map, candidates_2. reflexivity. }
  destruct (@mapM_total _ _
              (mapM (mapM (fun idx =>
                 ph <- mapM (py_index (sc ++ [C0]))
                            (py_slice_to idx (max_sc_images t)) ;;
                 Ok (sumC ph))))
              (sc_image_i t)) as [sums Hs].
  - eapply Forall_impl; [|exact Hrows]. intros l1 H1.
    apply mapM_total. eapply Forall_impl; [|exact H1]. intros l2 H2.
    apply mapM_total. eapply Forall_impl; [|exact H2].
    intros idx [_ Hidx].
    destruct (@mapM_total _ _ (py_index (sc ++ [C0]))
                (py_slice_to idx (max_sc_images t))) as [ph Hph].
    + unfold py_slice_to.
      destruct (_ <? 0)%Z; apply Forall_firstn_of;
        (eapply Forall_impl; [|exact Hidx]); intros z Hz;
        cbv beta in Hz; apply py_index_in_range; rewrite Hsc; lia.
    + exists (sumC ph). now rewrite Hph.
  - rewrite Hs. cbn [bind]. eexists. reflexivity.
Qed.

Lemma supercell_images_index_witness :
  exists t, calculate_supercell_images skew_cell 2 = Ok t /\
            Forall (Forall (Forall image_row)) (sc_image_i t).
Proof.
  destruct (ok_exists (calculate_supercell_images skew_cell 2)
              (fun _ => true)) as [t [Ht _]]; [vm_compute; reflexivity|].
  exists t. split; [exact Ht|].
  exact (proj1 (@supercell_images_index_the_phases skew_cell t Ht)).
Defined.

(** ** The indices that [_find_acoustic_modes] returns *)

Lemma insert_sorted_perm (x : Qc * nat) (l : list (Qc * nat)) :
  Permutation (insert_sorted x l) (x :: l).
Proof.
  induction l as [|y r IH]; cbn [insert_sorted]; [apply Permutation_refl|].
  destruct (Qcltb (fst x) (fst y)); [apply Permutation_refl|].
  eapply Permutation_trans; [apply perm_skip, IH|]. apply perm_swap.
Qed.

Lemma insertion_fold_perm (l acc : list (Qc * nat)) :
  Permutation (fold_left (fun acc x => insert_sorted x acc) l acc) (l ++ acc).
Proof.
  revert acc. induction l as [|x l IH]; intros acc; cbn [fold_left app];
    [apply Permutation_refl|].
  eapply Permutation_trans; [apply IH|].
  eapply Permutation_trans;
    [apply Permutation_app_head, insert_sorted_perm|].
  apply Permutation_sym, Permutation_middle.
Qed.

Lemma map_snd_combine {A B : Type} (l : list A) (s : list B) :
  List.length l = List.length s -> map snd (combine l s) = s.
Proof.
  revert s. induction l as [|x l IH]; intros [|y s] H; try discriminate;
    [reflexivity|].
  cbn [combine map snd]. f_equal. apply IH. now injection H.
Qed.

Lemma np_argsort_perm (l : list Qc) :
  Permutation (np_argsort l) (seq 0 (List.length l)).
Proof.
  unfold np_argsort.
  eapply Permutation_trans;
    [apply Permutation_map, insertion_fold_perm|].
  rewrite app_nil_r, map_snd_combine by (now rewrite length_seq).
  apply Permutation_refl.
Qed.

Lemma last3_of_distinct {A : Type} (l : list A) :
  (3 <= List.length l)%nat -> NoDup l ->
  List.length (last3 l) = 3%nat /\ NoDup (last3 l) /\ incl (last3 l) l.
Proof.
  intros Hl Hn. unfold last3. split; [rewrite length_skipn; lia|]. split.
  - rewrite <- (firstn_skipn (List.length l - 3) l) in Hn.
    now apply NoDup_app_remove_l in Hn.
  - intros x Hx. rewrite <- (firstn_skipn (List.length l - 3) l).
    apply in_or_app. now right.
Qed.

Lemma length_chunks_fuel {A : Type} (k : nat) (n fuel : nat) (l : list A) :
  (0 < k)%nat -> List.length l = (n * k)%nat -> (n <= fuel)%nat ->
  List.length (chunks_fuel fuel k l) = n.
Proof.
  intros Hk. revert fuel l. induction n as [|n IH]; intros fuel l Hl Hf.
  - destruct l; [|discriminate]. now destruct fuel.
  - destruct fuel as [|fuel]; [lia|].
    destruct l as [|x l]; [cbn in Hl; lia|].
    cbn [chunks_fuel List.length]. f_equal. apply IH; [|lia].
    rewrite length_skipn, Hl. cbn [Nat.mul]. lia.
Qed.

Lemma length_filter_le {A : Type} (p : A -> bool) (l : list A) :
  (List.length (filter p l) <= List.length l)%nat.
Proof.
  induction l as [|x l IH]; cbn [filter List.length]; [lia|].
  destruct (p x); cbn [List.length]; lia.
Qed.

(** X17: when [_find_acoustic_modes] returns, the result of the
    eigensolver is handed back unchanged, the matrix has at least three
    rows, and [ac_i] holds exactly three different branch indices, each
    below the number of rows. *)
Theorem acoustic_modes_are_three_branches (S : Type) (ops : entry_ops S)
    (eigh : list (list S) -> result (list Qc * list (list S)))
    (dyn_mat : list (list S)) ac_i evals evecs :
  find_acoustic_modes ops eigh dyn_mat = Ok (ac_i, evals, evecs) ->
  eigh dyn_mat = Ok (evals, evecs) /\
  (3 <= List.length dyn_mat)%nat /\
  List.length ac_i = 3%nat /\ NoDup ac_i /\
  Forall (fun i => (i < List.length dyn_mat)%nat) ac_i.
Proof.
  unfold find_acoustic_modes. set (nb := List.length dyn_mat).
  destruct (eigh dyn_mat) as [[evals' evecs']|]; [|discriminate].
  cbn [bind]. unfold reshape3. cbv zeta.
  set (flat := List.concat _).
  destruct (Nat.eqb_spec (List.length flat) (nb * (nb / 3) * 3))
    as [Hflat|]; [|discriminate].
  cbn [bind].
  set (disp := c_of_m_disp_sq ops _).
  destruct (Nat.ltb_spec (qualifying_modes (nb / 3) disp) 3) as [|Hq];
    [discriminate|].
  intros H. apply Ok_inj in H. injection H as <- <- <-.
  assert (Hd3 : (3 <= List.length disp)%nat).
  { eapply Nat.le_trans; [exact Hq|]. apply length_filter_le. }
  assert (Hlen : List.length disp = nb).
  { unfold disp, c_of_m_disp_sq in *. rewrite !length_map in *.
    unfold chunks in *.
    destruct (Nat.eq_dec (nb / 3) 0) as [E|E].
    - rewrite E, Nat.mul_0_r in Hflat. cbn [Nat.mul] in Hflat.
      destruct flat; [|discriminate]. cbn in Hd3. lia.
    - apply length_chunks_fuel;
        [lia | rewrite Hflat; symmetry; apply Nat.mul_assoc |].
      rewrite Hflat. generalize dependent (nb / 3)%nat. intros x _ _ Hx.
      destruct x as [|x]; [contradiction|]. nia. }
  destruct (@last3_of_distinct _ (np_argsort disp)) as (L1 & L2 & L3).
  - rewrite (Permutation_length (np_argsort_perm disp)), length_seq.
    exact Hd3.
  - apply (Permutation_NoDup (Permutation_sym (np_argsort_perm disp))).
    apply seq_NoDup.
  - repeat split; try assumption; [lia|].
    apply Forall_forall. intros i Hi. apply L3 in Hi.
    apply (Permutation_in _ (np_argsort_perm disp)) in Hi.
    apply in_seq in Hi. lia.
Qed.

Lemma acoustic_modes_witness :
  exists ac_i evals evecs,
    find_acoustic_modes complex_ops diagonal_solver (czeros 3)
    = Ok (ac_i, evals, evecs) /\
    List.length ac_i = 3%nat /\ NoDup ac_i.
Proof.
  destruct (ok_exists
              (find_acoustic_modes complex_ops diagonal_solver (czeros 3))
              (fun _ => true)) as [[[ac_i evals] evecs] [Hr _]];
    [vm_compute; reflexivity|].
  exists ac_i, evals, evecs. split; [exact Hr|].
  pose proof (@acoustic_modes_are_three_branches _ complex_ops
                diagonal_solver (czeros 3) ac_i evals evecs Hr)
    as (_ & _ & H3 & Hn & _).
  split; [exact H3 | exact Hn].
Defined.

(** * What a run reports for every q-point *)

Lemma foldM_app {A B : Type} (f : B -> A -> result B) (l1 l2 : list A)
    (b : B) :
  foldM f (l1 ++ l2) b = (b1 <- foldM f l1 b ;; foldM f l2 b1).
Proof.
  revert b. induction l1 as [|x l1 IH]; intros b; [reflexivity|].
  cbn [app foldM]. destruct (f b x) as [b1|e]; [|reflexivity].
  cbn [bind]. apply IH.
Qed.

Lemma seq_split_at (n k : nat) :
  (k < n)%nat -> seq 0 n = seq 0 k ++ k :: seq (S k) (n - S k).
Proof.
  intros H. replace n with (k + S (n - S k))%nat at 1 by lia.
  rewrite seq_app. reflexivity.
Qed.

Lemma nth_map2 {A B D : Type} (f : A -> B -> D) (u : list A) (v : list B)
    (i : nat) (da : A) (db : B) (dd : D) :
  List.length u = List.length v -> (i < List.length u)%nat ->
  nth i (map2 f u v) dd = f (nth i u da) (nth i v db).
Proof.
  intros Hl Hi. unfold map2.
  rewrite (nth_map_in (fun p => f (fst p) (snd p)) (combine u v) dd (da, db))
    by (rewrite length_combine; lia).
  now rewrite combine_nth.
Qed.

(** Lines 441-443: the weight of entry [(i, j)] is one over the square
    root of the product of the masses of the two ions. *)
Lemma dyn_mat_weighting_entry (np_sqrt : Qc -> Qc) (n : nat)
    (mass : list Qc) (i j : nat) :
  List.length mass = n -> (i < 3 * n)%nat -> (j < 3 * n)%nat ->
  nth j (nth i (dyn_mat_weighting np_sqrt n mass) []) 0
  = 1 / np_sqrt (nth (j / 3) mass 0 * nth (i / 3) mass 0).
Proof.
  intros Hm Hi Hj. unfold dyn_mat_weighting, mmap2. cbv zeta.
  set (row := np_repeat mass 3).
  assert (Hrow : List.length row = (3 * n)%nat).
  { unfold row. rewrite length_np_repeat. lia. }
  assert (Hnth : forall k, (k < 3 * n)%nat ->
                           nth k (repeat row (3 * n)) [] = row).
  { intros k Hk. rewrite (nth_indep _ [] row) by (rewrite repeat_length; lia).
    apply nth_repeat. }
  assert (Ht : List.length (transpose (3 * n) (repeat row (3 * n)))
               = (3 * n)%nat).
  { unfold transpose. now rewrite length_map, length_seq. }
  assert (Hti : nth i (transpose (3 * n) (repeat row (3 * n))) []
                = repeat (nth i row 0) (3 * n)).
  { unfold transpose. rewrite (nth_map_seq _ [] Hi). unfold col.
    rewrite map_repeat. reflexivity. }
  rewrite (nth_map2 _ _ _ [] [] []) by (rewrite ?repeat_length; lia).
  rewrite Hnth, Hti by assumption.
  rewrite (nth_map2 _ _ _ 0 0 0) by (rewrite ?repeat_length; lia).
  rewrite (nth_indep (repeat (nth i row 0) (3 * n)) 0 (nth i row 0))
    by (rewrite repeat_length; lia).
  rewrite nth_repeat. unfold row.
  rewrite !nth_np_repeat by lia. reflexivity.
Qed.

(** What the passes for the q-points from number [lo] up to, not
    including, number [hi] leave alone and what they add: the modes of the
    q-points before [lo] stay, and the split arrays grow at their ends, by
    entries for q-points in the range. *)
Definition passes_between (lo hi : nat) (st st' : loop_state) : Prop :=
  List.length (l_freqs st') = List.length (l_freqs st) /\
  List.length (l_eigenvecs st') = List.length (l_eigenvecs st) /\
  (forall k, (k < lo)%nat ->
     nth k (l_freqs st') [] = nth k (l_freqs st) [] /\
     nth k (l_eigenvecs st') [] = nth k (l_eigenvecs st) []) /\
  exists si sf se,
    List.length sf = List.length si /\ List.length se = List.length si /\
    Forall (fun i => (lo <= i < hi)%nat) si /\
    l_split_i st' = l_split_i st ++ si /\
    l_split_freqs st' = l_split_freqs st ++ sf /\
    l_split_eigenvecs st' = l_split_eigenvecs st ++ se.

Lemma passes_refl (lo hi : nat) (st : loop_state) :
  passes_between lo hi st st.
Proof.
  unfold passes_between. split; [reflexivity|]. split; [reflexivity|].
  split; [intros; split; reflexivity|].
  exists [], [], []. rewrite !app_nil_r.
  split; [reflexivity|]. split; [reflexivity|]. split; [constructor|].
  split; [reflexivity|]. split; reflexivity.
Qed.

Lemma passes_trans (lo hi : nat) (a b c : loop_state) :
  passes_between lo hi a b -> passes_between lo hi b c ->
  passes_between lo hi a c.
Proof.
  intros (L1 & M1 & N1 & si1 & sf1 & se1 & A1 & B1 & F1 & I1 & S1 & E1)
         (L2 & M2 & N2 & si2 & sf2 & se2 & A2 & B2 & F2 & I2 & S2 & E2).
  unfold passes_between.
  split; [congruence|]. split; [congruence|]. split.
  - intros k Hk. destruct (N1 k Hk) as [X1 Y1], (N2 k Hk) as [X2 Y2].
    split; congruence.
  - exists (si1 ++ si2), (sf1 ++ sf2), (se1 ++ se2). rewrite !length_app.
    split; [lia|]. split; [lia|]. split; [now apply Forall_app|].
    rewrite I2, S2, E2, I1, S1, E1, <- !app_assoc.
    split; [reflexivity|]. split; reflexivity.
Qed.

Section Reported.

Variable lib : library.

(** Lines 457-468: the dynamical matrix of a q-point with the dipole
    correction and the reciprocal acoustic sum rule, and the warnings
    given. *)
Definition asr_corrected (x : loop_context) (qpt : list Qc)
  : result (cmatrix * list warning) :=
  dyn_mat <- dipole_corrected lib x qpt ;;
  match x_dyn_mat_gamma x with
  | Some dyn_mat_gamma =>
      enforce_reciprocal_asr (eigh lib) dyn_mat_gamma dyn_mat
  | None => Ok (dyn_mat, [])
  end.

Lemma solve_one_between (lo hi n : nat) (pre : bool)
    (weighting : list (list Qc)) (dyn_mat : cmatrix) (q : nat)
    (st st' : loop_state) (ic : nat * option cmatrix) :
  (lo <= q < hi)%nat ->
  solve_one lib n pre weighting dyn_mat q st ic = Ok st' ->
  passes_between lo hi st st'.
Proof.
  intros Hq H. destruct ic as [i na].
  apply solve_one_stores in H
    as (evals & evecs & vs & _ & _ & _ & Hz & Hnz).
  destruct (Nat.eq_dec i 0) as [Hi|Hi].
  - destruct (Hz Hi) as (Hf & He & Hsi & Hsf & Hse).
    unfold passes_between. rewrite Hf, He, Hsi, Hsf, Hse, !set_nth_length.
    split; [reflexivity|]. split; [reflexivity|]. split.
    + intros k Hk. rewrite !nth_set_nth.
      replace (Nat.eqb k q) with false by (symmetry; apply Nat.eqb_neq; lia).
      split; reflexivity.
    + exists [], [], []. rewrite !app_nil_r.
      split; [reflexivity|]. split; [reflexivity|]. split; [constructor|].
      split; [reflexivity|]. split; reflexivity.
  - destruct (Hnz Hi) as (Hf & He & Hsi & Hsf & Hse).
    unfold passes_between. rewrite Hf, He, Hsi, Hsf, Hse.
    split; [reflexivity|]. split; [reflexivity|].
    split; [intros; split; reflexivity|].
    exists [q], [signed_frequencies (np_sqrt lib) evals], [vs].
    split; [reflexivity|]. split; [reflexivity|].
    split; [constructor; [lia|constructor]|].
    split; [reflexivity|]. split; reflexivity.
Qed.

Lemma loop_body_between (lo hi : nat) (x : loop_context)
    (qs : list (list Qc)) (acc acc' : loop_state * list warning) (q : nat) :
  (lo <= q < hi)%nat ->
  loop_body lib x qs acc q = Ok acc' ->
  passes_between lo hi (fst acc) (fst acc').
Proof.
  intros Hq H. destruct acc as [st w]. unfold loop_body in H.
  apply bind_ok in H as [qpt [_ H]]. apply bind_ok in H as [d0 [_ H]].
  apply bind_ok in H as [[dm wa] [_ H]]. apply bind_ok in H as [nas [_ H]].
  apply bind_ok in H as [st1 [Hf H]]. apply Ok_inj in H. subst acc'.
  cbn [fst]. revert Hf.
  apply (foldM_invariant (fun b => passes_between lo hi st b)).
  - intros b a b' _ Hb Hs. eapply passes_trans; [exact Hb|].
    exact (solve_one_between _ _ _ _ _ _ Hq Hs).
  - apply passes_refl.
Qed.

Lemma loop_range_between (lo hi : nat) (x : loop_context)
    (qs : list (list Qc)) (m a : nat) (acc acc' : loop_state * list warning) :
  (lo <= a)%nat -> (a + m <= hi)%nat ->
  foldM (loop_body lib x qs) (seq a m) acc = Ok acc' ->
  passes_between lo hi (fst acc) (fst acc').
Proof.
  intros Ha Hm.
  apply (foldM_invariant (fun b => passes_between lo hi (fst acc) (fst b))).
  - intros b q b' Hin Hb Hf. apply in_seq in Hin.
    eapply passes_trans; [exact Hb|].
    apply (@loop_body_between lo hi x qs b b' q); [lia|exact Hf].
  - apply passes_refl.
Qed.

(** The run, cut at q-point number [k]. *)
Lemma run_loop_at (x : loop_context) (qs : list (list Qc))
    (w0 : list warning) (a : loop_state * list warning) (k : nat) :
  (k < List.length qs)%nat -> run_loop lib x qs w0 = Ok a ->
  exists st_k w_k st1 w1,
    foldM (loop_body lib x qs) (seq 0 k)
          (initial_state (n_ions (x_crystal x)) (List.length qs), w0)
    = Ok (st_k, w_k) /\
    loop_body lib x qs (st_k, w_k) k = Ok (st1, w1) /\
    passes_between 0 k
      (initial_state (n_ions (x_crystal x)) (List.length qs)) st_k /\
    passes_between (S k) (List.length qs) st1 (fst a).
Proof.
  intros Hk H. unfold run_loop in H. cbv zeta in H.
  rewrite (seq_split_at Hk), foldM_app in H.
  apply bind_ok in H as [[st_k w_k] [H1 H]]. cbn [foldM] in H.
  apply bind_ok in H as [[st1 w1] [H2 H3]].
  exists st_k, w_k, st1, w1.
  split; [exact H1|]. split; [exact H2|]. split.
  - apply (@loop_range_between 0 k x qs k 0 _ _) in H1; [exact H1|lia|lia].
  - apply (@loop_range_between (S k) (List.length qs) x qs
             (List.length qs - S k) (S k) _ _) in H3; [exact H3|lia|lia].
Qed.

(** What the body of the loop does for one q-point. *)
Lemma loop_body_passes (x : loop_context) (qs : list (list Qc))
    (st st' : loop_state) (w w' : list warning) (q : nat) :
  (q < List.length qs)%nat ->
  loop_body lib x qs (st, w) q = Ok (st', w') ->
  exists dyn_mat wa nas,
    asr_corrected x (nth q qs []) = Ok (dyn_mat, wa) /\
    na_corrections x qs q (nth q qs []) = Ok nas /\
    foldM (solve_one lib (n_ions (x_crystal x)) (x_precondition x)
                     (x_weighting x) dyn_mat q)
          (combine (seq 0 (List.length nas)) nas) st = Ok st' /\
    w' = w ++ wa.
Proof.
  intros Hq H. unfold loop_body in H.
  rewrite (py_index_nonneg qs [] Hq) in H. cbn [bind] in H.
  apply bind_ok in H as [d0 [Hd H]].
  apply bind_ok in H as [[dm wa] [Ha H]].
  apply bind_ok in H as [nas [Hn H]].
  apply bind_ok in H as [st1 [Hf H]].
  apply Ok_inj in H. injection H as <- <-.
  exists dm, wa, nas. unfold asr_corrected. rewrite Hd. cbn [bind].
  split; [exact Ha|]. split; [exact Hn|]. split; [exact Hf|reflexivity].
Qed.

Lemma gamma_directions_shape (qs : list (list Qc)) (q : nat)
    (dirs : list (list Qc)) :
  gamma_directions qs q = Ok dirs ->
  (exists a, dirs = [a]) \/ (exists a c, dirs = [a; c]).
Proof.
  unfold gamma_directions. cbv zeta.
  destruct (Nat.eqb q 0).
  - intros H. apply bind_ok in H as [a [_ H]]. apply Ok_inj in H.
    left. exists a. now subst.
  - destruct (Nat.eqb q (List.length qs - 1)).
    + intros H. apply bind_ok in H as [a [_ H]]. apply Ok_inj in H.
      left. exists a. now subst.
    + intros H. apply bind_ok in H as [a [_ H]].
      apply bind_ok in H as [c [_ H]]. apply Ok_inj in H.
      right. exists (map Qcopp a), c. now subst.
Qed.

Lemma na_corrections_shape (x : loop_context) (qs : list (list Qc))
    (q : nat) (qpt : list Qc) (nas : list (option cmatrix)) :
  na_corrections x qs q qpt = Ok nas ->
  exists na rest, nas = na :: rest /\
                  (rest = [] \/ exists na2, rest = [na2]).
Proof.
  unfold na_corrections.
  destruct (x_splitting x && is_gamma qpt).
  - intros H. apply bind_ok in H as [dirs [Hd H]].
    destruct (x_born x) as [b|]; [|discriminate].
    destruct (x_dielectric x) as [d|]; [|discriminate].
    apply Ok_inj in H. subst nas.
    destruct (gamma_directions_shape _ _ Hd) as [[a ->]|[a [c ->]]];
      cbn [map]; eexists; eexists; (split; [reflexivity|]);
      [left; reflexivity | right; eexists; reflexivity].
  - intros H. apply Ok_inj in H. subst nas.
    exists None, []. split; [reflexivity|left; reflexivity].
Qed.

(** The one or two passes of the inner loop for q-point number [q]: the
    first stores the q-point's own modes, the second, if there is one,
    starts from the eigenvectors of the first and appends a set to the
    split arrays. *)
Lemma passes_store (n : nat) (pre : bool) (weighting : list (list Qc))
    (dyn_mat : cmatrix) (q : nat) (st st' : loop_state)
    (na : option cmatrix) (rest : list (option cmatrix)) :
  (rest = [] \/ exists na2, rest = [na2]) ->
  foldM (solve_one lib n pre weighting dyn_mat q)
        (combine (seq 0 (List.length (na :: rest))) (na :: rest)) st
  = Ok st' ->
  exists evals evecs vs,
    diagonalise (eigh lib) (zheev lib)
      (corrected_matrix n pre weighting dyn_mat (l_prev_evecs st) na)
    = Ok (evals, evecs) /\
    mode_set lib n evals evecs
    = Ok (signed_frequencies (np_sqrt lib) evals, vs) /\
    l_freqs st'
    = set_nth (l_freqs st) q (signed_frequencies (np_sqrt lib) evals) /\
    l_eigenvecs st' = set_nth (l_eigenvecs st) q vs /\
    match rest with
    | [] => l_split_i st' = l_split_i st /\
            l_split_freqs st' = l_split_freqs st /\
            l_split_eigenvecs st' = l_split_eigenvecs st
    | na2 :: _ =>
        exists evals2 evecs2 vs2,
          diagonalise (eigh lib) (zheev lib)
            (corrected_matrix n pre weighting dyn_mat evecs na2)
          = Ok (evals2, evecs2) /\
          mode_set lib n evals2 evecs2
          = Ok (signed_frequencies (np_sqrt lib) evals2, vs2) /\
          l_split_i st' = l_split_i st ++ [q] /\
          l_split_freqs st'
          = l_split_freqs st ++ [signed_frequencies (np_sqrt lib) evals2] /\
          l_split_eigenvecs st' = l_split_eigenvecs st ++ [vs2]
    end.
Proof.
  intros Hrest H. cbn [List.length seq combine foldM] in H.
  apply bind_ok in H as [st1 [H1 H]].
  apply solve_one_stores in H1
    as (evals & evecs & vs & Hd & Hm & Hp & Hz & _).
  destruct (Hz eq_refl) as (Hf & He & Hsi & Hsf & Hse).
  exists evals, evecs, vs. split; [exact Hd|]. split; [exact Hm|].
  destruct Hrest as [->|[na2 ->]].
  - cbn [List.length seq combine foldM] in H. apply Ok_inj in H. subst st'.
    split; [exact Hf|]. split; [exact He|].
    split; [exact Hsi|]. split; [exact Hsf|exact Hse].
  - cbn [List.length seq combine foldM] in H.
    apply bind_ok in H as [st2 [H2 H]]. apply Ok_inj in H. subst st'.
    apply solve_one_stores in H2
      as (evals2 & evecs2 & vs2 & Hd2 & Hm2 & _ & _ & Hnz).
    destruct (Hnz ltac:(discriminate)) as (Hf2 & He2 & Hsi2 & Hsf2 & Hse2).
    split; [congruence|]. split; [congruence|].
    exists evals2, evecs2, vs2. rewrite Hp in Hd2.
    split; [exact Hd2|]. split; [exact Hm2|].
    split; [congruence|]. split; congruence.
Qed.

(** The shape and the entries of the eigenvectors that [mode_set]
    returns. *)
Lemma mode_set_entries (n : nat) (evals : list Qc) (evecs : cmatrix)
    (fs : list Qc) (vs : list (list (list C))) :
  mode_set lib n evals evecs = Ok (fs, vs) ->
  List.length vs = (3 * n)%nat /\
  forall mode i a, (mode < 3 * n)%nat -> (i < n)%nat -> (a < 3)%nat ->
    nth a (nth i (nth mode vs []) []) C0 = cat2 evecs (3 * i + a) mode.
Proof.
  intros Hm. unfold mode_set in Hm. apply bind_ok in Hm as [vs' [Hr E]].
  apply Ok_inj in E. injection E as _ ->.
  destruct n as [|n'].
  - unfold reshape3 in Hr.
    destruct (Nat.eqb _ _); [|discriminate]. apply Ok_inj in Hr. subst vs.
    split; [reflexivity|]. intros; lia.
  - assert (Hlen : List.length evecs = (3 * S n')%nat).
    { unfold reshape3 in Hr.
      destruct (Nat.eqb_spec
                  (List.length
                     (List.concat (cmtranspose (3 * S n') evecs)))
                  (3 * S n' * S n' * 3)) as [E|]; [|discriminate].
      assert (Hrows : Forall (fun r : list C =>
                                List.length r = List.length evecs)
                             (cmtranspose (3 * S n') evecs)).
      { unfold cmtranspose, transpose_of. rewrite Forall_map.
        apply Forall_forall. intros j _. now rewrite length_map. }
      rewrite (length_concat_uniform Hrows) in E.
      unfold cmtranspose, transpose_of in E.
      rewrite length_map, length_seq in E. nia. }
    destruct (reshape_eigenvectors (S n') evecs Hlen) as [vs2 [Hr2 Hvs]].
    rewrite Hr in Hr2. apply Ok_inj in Hr2. subst vs2. exact Hvs.
Qed.

Lemma prepare_weighting (self : interpolation_data) (o : options)
    x fc_asr warned :
  prepare lib self o = Ok (x, fc_asr, warned) ->
  x_weighting x
  = dyn_mat_weighting (np_sqrt lib) (n_ions (crys self))
                      (ion_mass (crys self)).
Proof.
  unfold prepare. intros H.
  apply bind_ok in H as [[[fc fa] w0] [_ H]].
  apply bind_ok in H as [ew [_ H]].
  apply bind_ok in H as [img [_ H]].
  apply bind_ok in H as [gamma [_ H]].
  apply Ok_inj in H. injection H as <- _ _. reflexivity.
Qed.

End Reported.

(** [_calculate_gamma_correction] divides by the cell volume and by
    [q_dir . dielectric . q_dir]: a direction is regular when neither is
    zero, so that no [inf] or [nan] arises in the code. *)
Definition regular_direction (cv dielectric : list (list Qc))
    (q_dir : list Qc) : Prop :=
  cell_volume cv <> 0 /\
  dot q_dir (map (fun row => dot row q_dir) dielectric) <> 0.

(** Lines 385-391: whether a run applies the LO-TO splitting. *)
Definition splits (self : interpolation_data) (o : options) : bool :=
  opt_splitting o
  && (opt_dipole o && is_some (born self) && is_some (dielectric self)).

(** A run all of whose directions of approach are regular. *)
Definition regular_run (self : interpolation_data) (o : options)
    (qs : list (list Qc)) : Prop :=
  splits self o = true ->
  forall d q dirs,
    dielectric self = Some d -> (q < List.length qs)%nat ->
    is_gamma (nth q qs []) = true -> gamma_directions qs q = Ok dirs ->
    Forall (regular_direction (cell_vec (crys self)) d) dirs.

Section ReportedModes.

Variable lib : library.

(** C3: for every q-point of a run that returns, with regular directions
    of approach, the frequencies returned are, converted to the units of
    [self.freqs], [sign(e) * sqrt(|e|)] of the eigenvalues [e] that the
    solver returns for the matrix of that q-point: its dynamical matrix
    with the dipole and sum-rule corrections, plus the first non-analytic
    correction where there is one, every entry [(i, j)] multiplied by one
    over the square root of the product of the masses of the two ions,
    and with [precondition] transformed by the eigenvectors of the pass
    before.  The eigenvector of mode [m], column [m] of the solver's
    matrix, is returned as an [n_ions x 3] array whose entry [(i, a)] is
    component [3i + a]. *)
Theorem reported_modes_are_signed_roots (self : interpolation_data)
    (new_qpts : list (list Qc)) (o : options) self' fr ev w :
  np_sqrt lib 0 = 0 ->
  regular_run self o new_qpts ->
  calculate_fine_phonons lib self new_qpts o = Ok (self', (fr, ev), w) ->
  let n := n_ions (crys self) in
  let mass := ion_mass (crys self) in
  let weighting := dyn_mat_weighting (np_sqrt lib) n mass in
  (List.length mass = n ->
   forall i j, (i < 3 * n)%nat -> (j < 3 * n)%nat ->
     nth j (nth i weighting []) 0
     = 1 / np_sqrt lib (nth (j / 3) mass 0 * nth (i / 3) mass 0)) /\
  exists x fc_asr w0,
    prepare lib self o = Ok (x, fc_asr, w0) /\
    forall k, (k < List.length new_qpts)%nat ->
      exists st_k w_k dyn_mat wa na rest evals evecs,
        foldM (loop_body lib x new_qpts) (seq 0 k)
              (initial_state n (List.length new_qpts), w0)
        = Ok (st_k, w_k) /\
        asr_corrected lib x (nth k new_qpts []) = Ok (dyn_mat, wa) /\
        na_corrections x new_qpts k (nth k new_qpts []) = Ok (na :: rest) /\
        let corrected := match na with
                         | Some na_corr => cmadd dyn_mat na_corr
                         | None => dyn_mat
                         end in
        let weighted := mmap2 Cscale weighting corrected in
        let prev_evecs := l_prev_evecs st_k in
        let dyn_mat_corr :=
          if opt_precondition o
          then cmatmul (3 * n)
                 (cmatmul (3 * n) (cmtranspose (3 * n) (cmconj prev_evecs))
                          weighted)
                 prev_evecs
          else weighted in
        diagonalise (eigh lib) (zheev lib) dyn_mat_corr = Ok (evals, evecs) /\
        nth k fr []
        = map (fun e => hartree_to lib (freqs_units self)
                          (Qcsign e * np_sqrt lib (Qcabs e))) evals /\
        List.length (nth k ev []) = (3 * n)%nat /\
        forall mode i a,
          (mode < 3 * n)%nat -> (i < n)%nat -> (a < 3)%nat ->
          nth a (nth i (nth mode (nth k ev []) []) []) C0
          = cat2 evecs (3 * i + a) mode.
Proof.
  intros H0 _ H. cbv zeta. split.
  { intros Hm i j Hi Hj. now apply dyn_mat_weighting_entry. }
  unfold calculate_fine_phonons in H.
  destruct (prepare lib self o) as [[[x fc_asr] w0]|] eqn:Hp; [|discriminate].
  cbn [bind] in H.
  apply bind_ok in H as [[st w1] [Hl H]].
  apply bind_ok in H as [s1 [_ H]].
  apply Ok_inj in H. injection H as _ <- <- _.
  exists x, fc_asr, w0. split; [reflexivity|]. intros k Hk.
  pose proof (@prepare_weighting lib self o x fc_asr w0 Hp) as Hw.
  apply prepare_context in Hp as (Hc & _ & _ & Hpre & _).
  destruct (@run_loop_at lib x new_qpts w0 (st, w1) k Hk Hl)
    as (st_k & w_k & st1 & w1' & Hk1 & Hb & Hbefore & Hafter).
  destruct (@loop_body_passes lib x new_qpts st_k st1 w_k w1' k Hk Hb)
    as (dm & wa & nas & Ha & Hn & Hf & _).
  destruct (@na_corrections_shape x new_qpts k _ nas Hn)
    as (na & rest & -> & Hrest).
  destruct (@passes_store lib _ _ _ dm k st_k st1 na rest Hrest Hf)
    as (evals & evecs & vs & Hd & Hm & Hfr & Hev & _).
  rewrite Hc, Hpre, Hw in *.
  exists st_k, w_k, dm, wa, na, rest, evals, evecs.
  split; [exact Hk1|]. split; [exact Ha|]. split; [exact Hn|].
  split; [exact Hd|].
  destruct Hbefore as (Lf & Le & _).
  cbn [initial_state l_freqs l_eigenvecs] in Lf, Le.
  rewrite repeat_length in Lf, Le.
  destruct Hafter as (_ & _ & Hkeep & _).
  destruct (Hkeep k (Nat.lt_succ_diag_r k)) as [Kf Ke]. cbn [fst] in Kf, Ke.
  assert (Hlt : Nat.eqb k k && Nat.ltb k (List.length new_qpts) = true).
  { rewrite Nat.eqb_refl. now apply Nat.ltb_lt. }
  split.
  - transitivity (map (hartree_to lib (freqs_units self))
                      (nth k (l_freqs st) [])).
    + exact (map_nth (map (hartree_to lib (freqs_units self)))
                     (l_freqs st) [] k).
    + rewrite Kf, Hfr, nth_set_nth, Lf, Hlt.
      rewrite (signed_frequencies_spec (np_sqrt lib) evals H0), map_map.
      reflexivity.
  - rewrite Ke, Hev, nth_set_nth, Le, Hlt.
    exact (@mode_set_entries lib _ evals evecs _ vs Hm).
Qed.

End ReportedModes.

Section ZoneCentre.

Variable lib : library.

(** C7, as the code has it: in a run with the LO-TO splitting applied, on
    a list of at least two q-points with regular directions of approach,
    the directions at a zone-centre q-point are the single neighbour if it
    is first or last, and the negated previous and the next q-point if it
    is interior.  The modes for the first direction, from the q-point's
    matrix with that direction's correction, are the q-point's own
    frequencies and eigenvectors.  An endpoint leaves no entry in the split
    arrays; an interior q-point leaves exactly one, under its index: the
    modes for the second direction, from the matrix with the second
    direction's correction and, with [precondition], the eigenvectors of
    the first pass. *)
Theorem zone_centre_mode_sets (self : interpolation_data)
    (new_qpts : list (list Qc)) (o : options) self' fr ev w
    (b : list (list (list Qc))) (d : list (list Qc)) (k : nat) :
  born self = Some b -> dielectric self = Some d ->
  opt_dipole o = true -> opt_splitting o = true -> opt_set_attrs o = true ->
  regular_run self o new_qpts ->
  (2 <= List.length new_qpts)%nat -> (k < List.length new_qpts)%nat ->
  is_gamma (nth k new_qpts []) = true ->
  calculate_fine_phonons lib self new_qpts o = Ok (self', (fr, ev), w) ->
  let n := n_ions (crys self) in
  let dirs := expected_directions new_qpts k in
  gamma_directions new_qpts k = Ok dirs /\
  exists x fc_asr w0 st_k w_k dyn_mat wa evals evecs vs,
    prepare lib self o = Ok (x, fc_asr, w0) /\
    foldM (loop_body lib x new_qpts) (seq 0 k)
          (initial_state n (List.length new_qpts), w0)
    = Ok (st_k, w_k) /\
    asr_corrected lib x (nth k new_qpts []) = Ok (dyn_mat, wa) /\
    let dyn_mat_corr (prev_evecs : cmatrix) (q_dir : list Qc) :=
      let na_corr :=
        calculate_gamma_correction (cell_vec (crys self)) b d q_dir in
      let weighted :=
        mmap2 Cscale
              (dyn_mat_weighting (np_sqrt lib) n (ion_mass (crys self)))
              (cmadd dyn_mat na_corr) in
      if opt_precondition o
      then cmatmul (3 * n)
             (cmatmul (3 * n) (cmtranspose (3 * n) (cmconj prev_evecs))
                      weighted)
             prev_evecs
      else weighted in
    let modes_in (u : string) (evals : list Qc) :=
      map (hartree_to lib u) (signed_frequencies (np_sqrt lib) evals) in
    diagonalise (eigh lib) (zheev lib)
      (dyn_mat_corr (l_prev_evecs st_k) (nth 0 dirs []))
    = Ok (evals, evecs) /\
    mode_set lib n evals evecs
    = Ok (signed_frequencies (np_sqrt lib) evals, vs) /\
    nth k fr [] = modes_in (freqs_units self) evals /\ nth k ev [] = vs /\
    nth k (freqs self') [] = modes_in (freqs_units self) evals /\
    nth k (eigenvecs self') [] = vs /\
    (List.length dirs = 1%nat -> ~ In k (split_i self')) /\
    (forall q_dir, nth_error dirs 1 = Some q_dir ->
       exists evals2 evecs2 vs2,
         let j := List.length (l_split_i st_k) in
         diagonalise (eigh lib) (zheev lib) (dyn_mat_corr evecs q_dir)
         = Ok (evals2, evecs2) /\
         mode_set lib n evals2 evecs2
         = Ok (signed_frequencies (np_sqrt lib) evals2, vs2) /\
         nth_error (split_i self') j = Some k /\
         nth_error (split_freqs self') j
         = Some (modes_in (split_freqs_units self) evals2) /\
         nth_error (split_eigenvecs self') j = Some vs2 /\
         count_occ Nat.eq_dec (split_i self') k = 1%nat).
Proof.
  intros Hb Hd Hdip Hspl Hset _ Hn Hk Hg H. cbv zeta.
  pose proof (gamma_directions_spec new_qpts Hn Hk) as Hdirs.
  split; [exact Hdirs|].
  unfold calculate_fine_phonons in H.
  destruct (prepare lib self o) as [[[x fc_asr] w0]|] eqn:Hp; [|discriminate].
  cbn [bind] in H.
  apply bind_ok in H as [[st w1] [Hl H]].
  rewrite Hset in H.
  destruct (Nat.eqb (List.length new_qpts) 0); [discriminate|].
  cbn [bind] in H. apply Ok_inj in H. injection H as <- <- <- _.
  cbn [freqs eigenvecs split_i split_freqs split_eigenvecs].
  pose proof (@prepare_weighting lib self o x fc_asr w0 Hp) as Hw.
  pose proof Hp as Hp'.
  apply prepare_context in Hp'
    as (Hc & Hxb & Hxd & Hpre & Hxdip & Hxs & _).
  rewrite Hxdip, Hdip, Hb, Hd in Hxs. rewrite Hspl in Hxs. cbn in Hxs.
  destruct (@run_loop_at lib x new_qpts w0 (st, w1) k Hk Hl)
    as (st_k & w_k & st1 & w1' & Hk1 & Hbody & Hbefore & Hafter).
  destruct (@loop_body_passes lib x new_qpts st_k st1 w_k w1' k Hk Hbody)
    as (dm & wa & nas & Ha & Hna & Hf & _).
  unfold na_corrections in Hna.
  rewrite Hxs, Hg, Hdirs, Hxb, Hb, Hxd, Hd in Hna. cbn [andb bind] in Hna.
  apply Ok_inj in Hna. subst nas.
  destruct Hbefore as (Lf & Le & _ & si0 & sf0 & se0 & A0 & B0 & F0
                       & I0 & S0 & E0).
  cbn [initial_state l_freqs l_eigenvecs l_split_i l_split_freqs
       l_split_eigenvecs app] in Lf, Le, I0, S0, E0.
  rewrite repeat_length in Lf, Le.
  destruct Hafter as (_ & _ & Hkeep & si1 & sf1 & se1 & A1 & B1 & F1
                      & I1 & S1 & E1).
  destruct (Hkeep k (Nat.lt_succ_diag_r k)) as [Kf Ke].
  cbn [fst] in Kf, Ke, I1, S1, E1.
  assert (Hlt : Nat.eqb k k && Nat.ltb k (List.length new_qpts) = true).
  { rewrite Nat.eqb_refl. now apply Nat.ltb_lt. }
  assert (Hshape : (exists a, expected_directions new_qpts k = [a]) \/
                   (exists a c, expected_directions new_qpts k = [a; c])).
  { unfold expected_directions.
    destruct (Nat.eqb k 0); [left; eauto|].
    destruct (Nat.eqb k (List.length new_qpts - 1)); [left|right]; eauto. }
  assert (Hfreq : forall u, nth k (map (map (hartree_to lib u)) (l_freqs st))
                                []
                            = map (hartree_to lib u) (nth k (l_freqs st) [])).
  { intros u. exact (map_nth (map (hartree_to lib u)) (l_freqs st) [] k). }
  assert (Hlow : ~ In k si0).
  { intros Hin. rewrite Forall_forall in F0. specialize (F0 k Hin). lia. }
  assert (Hhigh : ~ In k si1).
  { intros Hin. rewrite Forall_forall in F1. specialize (F1 k Hin). lia. }
  exists x, fc_asr, w0, st_k, w_k, dm, wa.
  destruct Hshape as [[a Hs]|[a [c Hs]]]; rewrite Hs in *; cbn [map] in Hf.
  - destruct (@passes_store lib _ _ _ dm k st_k st1 _ []
                (or_introl eq_refl) Hf)
      as (evals & evecs & vs & Hdg & Hm & Hfr & Hev & Hsi & Hsf & Hse).
    rewrite Hc, Hpre, Hw in *.
    exists evals, evecs, vs.
    split; [reflexivity|]. split; [exact Hk1|]. split; [exact Ha|].
    split; [exact Hdg|]. split; [exact Hm|].
    assert (Ef : nth k (map (map (hartree_to lib (freqs_units self)))
                            (l_freqs st)) []
                 = map (hartree_to lib (freqs_units self))
                       (signed_frequencies (np_sqrt lib) evals)).
    { rewrite Hfreq, Kf, Hfr, nth_set_nth, Lf, Hlt. reflexivity. }
    assert (Ev : nth k (l_eigenvecs st) [] = vs).
    { rewrite Ke, Hev, nth_set_nth, Le, Hlt. reflexivity. }
    split; [exact Ef|]. split; [exact Ev|].
    split; [exact Ef|]. split; [exact Ev|]. split.
    + intros _ Hin. rewrite I1, Hsi, I0 in Hin.
      apply in_app_or in Hin as [Hin|Hin]; contradiction.
    + intros q_dir Hq. discriminate Hq.
  - destruct (@passes_store lib _ _ _ dm k st_k st1 _ [_]
                (or_intror (ex_intro _ _ eq_refl)) Hf)
      as (evals & evecs & vs & Hdg & Hm & Hfr & Hev
          & evals2 & evecs2 & vs2 & Hdg2 & Hm2 & Hsi & Hsf & Hse).
    rewrite Hc, Hpre, Hw in *.
    exists evals, evecs, vs.
    split; [reflexivity|]. split; [exact Hk1|]. split; [exact Ha|].
    split; [exact Hdg|]. split; [exact Hm|].
    assert (Ef : nth k (map (map (hartree_to lib (freqs_units self)))
                            (l_freqs st)) []
                 = map (hartree_to lib (freqs_units self))
                       (signed_frequencies (np_sqrt lib) evals)).
    { rewrite Hfreq, Kf, Hfr, nth_set_nth, Lf, Hlt. reflexivity. }
    assert (Ev : nth k (l_eigenvecs st) [] = vs).
    { rewrite Ke, Hev, nth_set_nth, Le, Hlt. reflexivity. }
    split; [exact Ef|]. split; [exact Ev|].
    split; [exact Ef|]. split; [exact Ev|]. split.
    + intros Hone. discriminate Hone.
    + intros q_dir Hq. cbn [nth_error] in Hq.
      assert (c = q_dir) by congruence. subst q_dir.
      exists evals2, evecs2, vs2.
      split; [exact Hdg2|]. split; [exact Hm2|].
      rewrite I1, S1, E1, Hsi, Hsf, Hse, I0, S0, E0.
      split; [|split; [|split]].
      * rewrite <- app_assoc, nth_error_app2, Nat.sub_diag by lia.
        reflexivity.
      * rewrite map_app, map_app. cbn [map].
        rewrite <- app_assoc, nth_error_app2, length_map, A0, Nat.sub_diag
          by (rewrite length_map; lia).
        reflexivity.
      * rewrite <- app_assoc, nth_error_app2, B0, Nat.sub_diag by lia.
        reflexivity.
      * rewrite !count_occ_app. cbn [count_occ].
        destruct (Nat.eq_dec k k) as [_|Hne]; [|contradiction].
        rewrite (proj1 (count_occ_not_In Nat.eq_dec si0 k) Hlow).
        rewrite (proj1 (count_occ_not_In Nat.eq_dec si1 k) Hhigh).
        reflexivity.
Qed.

End ZoneCentre.

(** One ion in the cubic cell, unstable along the first axis. *)
Definition unstable_cubic : interpolation_data :=
  fresh_data (cubic_cell [[QcZ (-4); 0; 0]; [0; 1; 0]; [0; 0; QcZ 9]])
             None None.

Lemma reported_modes_witness :
  exists self' fr ev w evals,
    calculate_fine_phonons exact_library unstable_cubic [[half; 0; 0]]
        default_options
    = Ok (self', (fr, ev), w) /\
    fr = [[QcZ (-2); 1; QcZ 3]] /\
    nth 0 fr [] = map (fun e => Qcsign e * sqrt_of_square (Qcabs e)) evals.
Proof.
  destruct (ok_exists
              (calculate_fine_phonons exact_library unstable_cubic
                   [[half; 0; 0]] default_options)
              (fun r => match fst (snd (fst r)) with
                        | [[a; b; c]] =>
                            Qceqb a (QcZ (-2)) && Qceqb b 1
                            && Qceqb c (QcZ 3)
                        | _ => false
                        end)) as [[[s [fr ev]] w] [Hr Hc]];
    [vm_compute; reflexivity|].
  cbn [fst snd] in Hc.
  assert (Hfr : fr = [[QcZ (-2); 1; QcZ 3]]).
  { destruct fr as [|[|a [|b [|c [|? ?]]]] [|? ?]]; try discriminate Hc.
    apply andb_prop in Hc as [Hc H3]. apply andb_prop in Hc as [H1 H2].
    apply Qceqb_true in H1, H2, H3. subst. reflexivity. }
  assert (H0 : np_sqrt exact_library 0 = 0)
    by (apply Qc_is_canon; reflexivity).
  assert (Hreg : regular_run unstable_cubic default_options [[half; 0; 0]]).
  { intros Hs. discriminate Hs. }
  pose proof (@reported_modes_are_signed_roots
                exact_library unstable_cubic [[half; 0; 0]] default_options
                s fr ev w H0 Hreg Hr) as Hthm.
  cbv zeta in Hthm.
  destruct Hthm as (_ & x & fa & w0 & _ & Hall).
  destruct (Hall 0%nat (le_n 1))
    as (st_k & w_k & dm & wa & na & rest & evals & evecs
        & _ & _ & _ & _ & Hk & _).
  exists s, fr, ev, w, evals.
  split; [exact Hr|]. split; [exact Hfr|exact Hk].
Defined.

Lemma zone_centre_mode_sets_witness :
  exists self' fr ev w,
    calculate_fine_phonons exact_library polar_cubic
        [[half; 0; 0]; [0; 0; 0]; [0; half; 0]] default_options
    = Ok (self', (fr, ev), w) /\
    gamma_directions [[half; 0; 0]; [0; 0; 0]; [0; half; 0]] 1
    = Ok [map Qcopp [half; 0; 0]; [0; half; 0]] /\
    count_occ Nat.eq_dec (split_i self') 1%nat = 1%nat.
Proof.
  destruct (ok_exists
              (calculate_fine_phonons exact_library polar_cubic
                   [[half; 0; 0]; [0; 0; 0]; [0; half; 0]] default_options)
              (fun _ => true)) as [[[s [fr ev]] w] [Hr _]];
    [vm_compute; reflexivity|].
  assert (Hreg : regular_run polar_cubic default_options
                             [[half; 0; 0]; [0; 0; 0]; [0; half; 0]]).
  { intros _ d q dirs Hd Hq Hg Hdirs.
    assert (d = eye3) by (cbn in Hd; congruence). subst d.
    destruct q as [|[|[|q]]].
    - discriminate Hg.
    - cbn [gamma_directions Nat.eqb List.length Nat.sub] in Hdirs.
      apply Ok_inj in Hdirs. subst dirs.
      repeat constructor; intros E; apply (f_equal this) in E;
        vm_compute in E; discriminate E.
    - discriminate Hg.
    - cbn [List.length] in Hq. lia. }
  assert (Hn : (2 <= 3)%nat) by lia.
  assert (Hk : (1 < 3)%nat) by lia.
  pose proof (@zone_centre_mode_sets
                exact_library polar_cubic
                [[half; 0; 0]; [0; 0; 0]; [0; half; 0]] default_options
                s fr ev w [eye3] eye3 1%nat eq_refl eq_refl eq_refl eq_refl
                eq_refl Hreg Hn Hk eq_refl Hr) as Hthm.
  cbv zeta in Hthm.
  destruct Hthm as (Hdirs & x & fa & w0 & st_k & w_k & dm & wa & evals
                    & evecs & vs & _ & _ & _ & _ & _ & _ & _ & _ & _ & _
                    & Hsecond).
  destruct (Hsecond [0; half; 0] eq_refl)
    as (evals2 & evecs2 & vs2 & _ & _ & _ & _ & _ & Hcount).
  exists s, fr, ev, w.
  split; [exact Hr|]. split; [exact Hdirs|exact Hcount].
Defined.
